(** * Reverse-mode automatic differentiation over scalars

    A shallow embedding of the [Scalar] class of
    [Solution_Autodiff_Algorithm.ipynb] (final version of the class, with
    [__add__], [__mul__] and the eager recursive [backward] closures), of the
    helpers [forward] and [mse], and of the caller protocol
    "zero the gradients, seed the root, call [backward]".

    Python objects live in a store addressed by object identity; a closure
    is the record of the references it captured. Arithmetic is kept behind
    a small interface so that the same engine runs on binary64 floats (the
    numbers the notebook uses) and on exact integers; what is proved of
    the engine uses no law of arithmetic, so that it holds of the floats. *)

From Stdlib Require Import ZArith Uint63 Floats Lia List.
From stdpp Require Import base option list.
Import ListNotations.

Set Default Proof Using "Type".

(** ** Numbers *)

(** What the engine needs from its numbers: the literals [0.] and [1.],
    [+] and [*]. *)
Class Arith (R : Type) := {
  n0 : R;
  n1 : R;
  nadd : R -> R -> R;
  nmul : R -> R -> R
}.

Infix "[+]" := nadd (at level 50, left associativity).
Infix "[*]" := nmul (at level 40, left associativity).

(** Python floats. *)
#[export] Instance float_Arith : Arith float :=
  {| n0 := 0%float; n1 := 1%float; nadd := PrimFloat.add; nmul := PrimFloat.mul |}.

(** Exact integers. *)
#[export] Instance Z_Arith : Arith Z :=
  {| n0 := 0%Z; n1 := 1%Z; nadd := Z.add; nmul := Z.mul |}.

(** ** Objects, closures and the store *)

(** A reference to an object: its position in the store. *)
Abbreviation ref := nat.

(** The three functions ever stored in the [backward] attribute, with the
    variables each closure captured: [lambda: None], the [backward] defined
    inside [__add__] and the one defined inside [__mul__]. *)
Inductive closure : Type :=
| LambdaNone
| AddBackward (self other result : ref)
| MulBackward (self other result : ref).

(** Exceptions the modelled code can end with. [RecursionError] is raised
    when the call depth budget is used up, [DanglingRef] when a reference
    does not name an object of the store (no Python program reaches it). *)
Inductive exn : Type :=
| ZeroDivisionError
| IndexError
| RecursionError
| DanglingRef.

Inductive result (A : Type) : Type :=
| Ok (a : A)
| Raise (e : exn).
Arguments Ok {A} a.
Arguments Raise {A} e.

Section Store.
Context {R : Type}.

(** An instance of [Scalar]: its three attributes. *)
Record node : Type := mkNode {
  val : R;
  grad : R;
  backward_rule : closure
}.

(** Computations over the store (the list of all objects created so far)
    that may raise. *)
Definition M (A : Type) : Type := list node -> result (A * list node).

Definition ret {A} (a : A) : M A := fun h => Ok (a, h).

Definition raise {A} (e : exn) : M A := fun _ => Raise e.

Definition bind {A B} (m : M A) (k : A -> M B) : M B :=
  fun h => match m h with
           | Ok (a, h') => k a h'
           | Raise e => Raise e
           end.

End Store.

Arguments node R : clear implicits.

(** The store. *)
Abbreviation heap R := (list (node R)).
Arguments M R A : clear implicits.

Notation "x <- m ;; k" := (bind m (fun x => k))
  (at level 100, m at next level, right associativity).
Notation "m ;;; k" := (bind m (fun _ => k))
  (at level 100, right associativity).

(** What happens during a backward pass: [Contrib n] is a statement
    [n.grad += ...], [Fire n] a call [n.backward()]. *)
Inductive event : Type :=
| Contrib (n : ref)
| Fire (n : ref).

#[export] Instance event_eq_dec : EqDecision event.
Proof. solve_decision. Defined.

(** No object receives a contribution after its rule has fired. *)
Fixpoint ordered (tr : list event) : bool :=
  match tr with
  | [] => true
  | Fire n :: tl => negb (bool_decide (Contrib n ∈ tl)) && ordered tl
  | Contrib _ :: tl => ordered tl
  end.

Section Engine.
Context {R : Type} {AR : Arith R}.

Local Abbreviation node := (node R).
Local Abbreviation heap := (list node).
Local Abbreviation M := (M R).

(** Attribute reads and writes. *)
Definition getattr {A} (f : node -> A) (n : ref) : M A :=
  fun h => match h !! n with
           | Some nd => Ok (f nd, h)
           | None => Raise DanglingRef
           end.

Definition setattr (f : node -> node) (n : ref) : M unit :=
  fun h => match h !! n with
           | Some nd => Ok (tt, <[n := f nd]> h)
           | None => Raise DanglingRef
           end.

Definition with_val (v : R) (nd : node) : node :=
  mkNode v (grad nd) (backward_rule nd).
Definition with_grad (g : R) (nd : node) : node :=
  mkNode (val nd) g (backward_rule nd).
Definition with_backward (c : closure) (nd : node) : node :=
  mkNode (val nd) (grad nd) c.

Definition get_val : ref -> M R := getattr val.
Definition get_grad : ref -> M R := getattr grad.
Definition get_backward : ref -> M closure := getattr backward_rule.
Definition set_val (n : ref) (v : R) : M unit := setattr (with_val v) n.
Definition set_grad (n : ref) (g : R) : M unit := setattr (with_grad g) n.
Definition set_backward (n : ref) (c : closure) : M unit :=
  setattr (with_backward c) n.

(** [n.grad += d] *)
Definition iadd_grad (n : ref) (d : R) : M unit :=
  g <- get_grad n ;; set_grad n (g [+] d).

(** ** The class

    [Scalar(val)]: a new object with [val], [grad = 0.] and
    [backward = lambda: None]. *)
Definition Scalar (v : R) : M ref :=
  fun h => Ok (length h, h ++ [mkNode v n0 LambdaNone]).

(** [self + other] *)
Definition __add__ (self other : ref) : M ref :=
  a <- get_val self ;;
  b <- get_val other ;;
  result <- Scalar (a [+] b) ;;
  set_backward result (AddBackward self other result) ;;;
  ret result.

(** [self * other] *)
Definition __mul__ (self other : ref) : M ref :=
  a <- get_val self ;;
  b <- get_val other ;;
  result <- Scalar (a [*] b) ;;
  set_backward result (MulBackward self other result) ;;;
  ret result.

(** [n.backward()]: look the attribute up and run the closure found
    there. [fuel] bounds the depth of the nested calls. *)
Fixpoint backward (fuel : nat) (n : ref) : M unit :=
  match fuel with
  | 0 => raise RecursionError
  | S fuel' =>
      c <- get_backward n ;;
      match c with
      | LambdaNone => ret tt
      | AddBackward self other result =>
          g <- get_grad result ;;
          iadd_grad self g ;;;
          g <- get_grad result ;;
          iadd_grad other g ;;;
          backward fuel' self ;;;
          backward fuel' other
      | MulBackward self other result =>
          v <- get_val other ;;
          g <- get_grad result ;;
          iadd_grad self (v [*] g) ;;;
          v <- get_val self ;;
          g <- get_grad result ;;
          iadd_grad other (v [*] g) ;;;
          backward fuel' self ;;;
          backward fuel' other
      end
  end.

(** A call [n.backward()] made by the caller. The nested calls of an
    acyclic graph never go deeper than the number of objects, so that
    budget stands for an interpreter stack that is deep enough. *)
Definition call_backward (n : ref) : M unit :=
  fun h => backward (length h) n h.

(** Any number of backward calls, one after the other. *)
Fixpoint backward_all (roots : list ref) : M unit :=
  match roots with
  | [] => ret tt
  | r :: rs => call_backward r ;;; backward_all rs
  end.

(** ** Reading the store *)

Definition valof (h : heap) (n : ref) : R := from_option val n0 (h !! n).
Definition gradof (h : heap) (n : ref) : R := from_option grad n0 (h !! n).
Definition ruleof (h : heap) (n : ref) : closure :=
  from_option backward_rule LambdaNone (h !! n).

(** [bump n d h]: the store after [n.grad += d]. *)
Definition bump (n : ref) (d : R) (h : heap) : heap :=
  match h !! n with
  | Some nd => <[n := with_grad (grad nd [+] d) nd]> h
  | None => h
  end.

(** The operands a closure propagates to. *)
Definition operands_of (c : closure) : list ref :=
  match c with
  | LambdaNone => []
  | AddBackward self other _ | MulBackward self other _ => [self; other]
  end.

Definition operands (h : heap) (n : ref) : list ref := operands_of (ruleof h n).

(** A leaf is an object whose [backward] is still [lambda: None]. *)
Definition is_leaf (h : heap) (n : ref) : Prop := ruleof h n = LambdaNone.

(** [reaches h r n]: [n] is [r] or an operand, an operand of an operand, ... *)
Inductive reaches (h : heap) : ref -> ref -> Prop :=
| reaches_refl n : reaches h n n
| reaches_step r m n : m ∈ operands h r -> reaches h m n -> reaches h r n.

(** [operand_at h p i n]: [n] is the first ([i = true]) or the second
    operand of the operator application that produced [p]. *)
Definition operand_at (h : heap) (p : ref) (i : bool) (n : ref) : Prop :=
  match ruleof h p with
  | LambdaNone => False
  | AddBackward self other _ | MulBackward self other _ =>
      (if i then self else other) = n
  end.

(** A tree-shaped expression graph: in the graph of [root], every object
    other than [root] is an operand of exactly one operator application
    (possibly as both of its operands). *)
Definition tree_shaped (h : heap) (root : ref) : Prop :=
  forall n, reaches h root n -> n <> root ->
    exists p, (reaches h root p /\ n ∈ operands h p) /\
      forall p', reaches h root p' -> n ∈ operands h p' -> p' = p.

(** Only a leaf is ever passed as both operands of one application. *)
Definition doubles_only_leaves (h : heap) (root : ref) : Prop :=
  forall p n, reaches h root p -> operands h p = [n; n] -> is_leaf h n.




(** [extends h h']: [h'] is [h] with more objects allocated after it. *)
Definition extends (h h' : heap) : Prop := exists t, h' = h ++ t.

(** ** Graphs the class builds

    Every closure created by [__add__] and [__mul__] sits on its own
    [result] and refers to operands that existed before it. *)
Definition closure_ok (i : ref) (c : closure) : Prop :=
  match c with
  | LambdaNone => True
  | AddBackward self other result | MulBackward self other result =>
      self < i /\ other < i /\ result = i
  end.

Definition wf (h : heap) : Prop :=
  forall i, i < length h -> closure_ok i (ruleof h i).

(** What a backward pass cannot change: the values and the closures. *)
Definition static (nd : node) : R * closure := (val nd, backward_rule nd).
Definition graph_of (h : heap) : list (R * closure) := static <$> h.

(** The stored value of an operator's result is the sum or the product of
    the values its operands have now (true until a caller writes [val]). *)
Definition val_ok (h : heap) (i : ref) : Prop :=
  match ruleof h i with
  | LambdaNone => True
  | AddBackward self other _ => valof h i = valof h self [+] valof h other
  | MulBackward self other _ => valof h i = valof h self [*] valof h other
  end.

Definition consistent (h : heap) : Prop := forall i, val_ok h i.

(** Stores reached with the constructor, the two operators, writes to
    [grad] and calls of [backward]. *)
Inductive built : heap -> Prop :=
| built_empty : built []
| built_Scalar h v i h' : built h -> Scalar v h = Ok (i, h') -> built h'
| built_add h a b i h' : built h -> __add__ a b h = Ok (i, h') -> built h'
| built_mul h a b i h' : built h -> __mul__ a b h = Ok (i, h') -> built h'
| built_set_grad h n g h' : built h -> set_grad n g h = Ok (tt, h') -> built h'
| built_backward h n h' : built h -> call_backward n h = Ok (tt, h') -> built h'.

(** ** What a backward call does, in order

    [events fuel h n] lists what [backward fuel n] does on [h]: it fires
    the rule of [n]; a rule of [__add__] or [__mul__] contributes to
    [self.grad], then to [other.grad], then calls [self.backward()], then
    [other.backward()]. *)
Fixpoint events (fuel : nat) (h : heap) (n : ref) : list event :=
  match fuel with
  | 0 => []
  | S fuel' =>
      Fire n ::
      match ruleof h n with
      | LambdaNone => []
      | AddBackward self other _ | MulBackward self other _ =>
          Contrib self :: Contrib other ::
          events fuel' h self ++ events fuel' h other
      end
  end.

Definition trace (h : heap) (root : ref) : list event :=
  events (length h) h root.

(** What [n.grad] is given during [backward fuel r], one entry per
    statement [n.grad += ...] and in the order of these statements, when
    [G p] is the gradient [p] holds while its rule runs: a rule of [__add__]
    adds [result.grad] to each operand, a rule of [__mul__] adds the other
    operand's value times [result.grad]. *)
Fixpoint inflow (fuel : nat) (h : heap) (G : ref -> R) (r n : ref) : list R :=
  match fuel with
  | 0 => []
  | S fuel' =>
      match ruleof h r with
      | LambdaNone => []
      | AddBackward self other _ =>
          (if decide (self = n) then [G r] else []) ++
          (if decide (other = n) then [G r] else []) ++
          inflow fuel' h G self n ++ inflow fuel' h G other n
      | MulBackward self other _ =>
          (if decide (self = n) then [valof h other [*] G r] else []) ++
          (if decide (other = n) then [valof h self [*] G r] else []) ++
          inflow fuel' h G self n ++ inflow fuel' h G other n
      end
  end.

(** [n.grad] after the statements [n.grad += d] for the [d] of [ds], in
    order, starting from [g]. *)
Definition accumulate (g : R) (ds : list R) : R := fold_left nadd ds g.

(** The chain rule from the root down, in the arithmetic of the code:
    the root has derivative 1 and every other object the sum, added up
    from 0 in the order of [inflow], of what its consumers hand to it,
    each consumer's own derivative being known by then (a consumer is
    created after its operands). [adjoints k] is right for the objects
    [root - k .. root]. *)
Fixpoint adjoints (k : nat) (h : heap) (root : ref) : ref -> R :=
  match k with
  | 0 => fun n => if decide (n = root) then n1 else n0
  | S k' =>
      fun n =>
        if decide (n + k = root)
        then accumulate n0 (inflow (length h) h (adjoints k' h root) root n)
        else adjoints k' h root n
  end.

Definition adjoint (h : heap) (root n : ref) : R := adjoints root h root n.

(** [backward] again, writing down each call and each contribution as it
    happens: the log [events] is checked against. *)
Fixpoint backward_log (fuel : nat) (n : ref) (log : list event)
  : M (list event) :=
  match fuel with
  | 0 => raise RecursionError
  | S fuel' =>
      c <- get_backward n ;;
      match c with
      | LambdaNone => ret (log ++ [Fire n])
      | AddBackward self other result =>
          g <- get_grad result ;;
          iadd_grad self g ;;;
          g <- get_grad result ;;
          iadd_grad other g ;;;
          log1 <- backward_log fuel' self
                    (log ++ [Fire n; Contrib self; Contrib other]) ;;
          backward_log fuel' other log1
      | MulBackward self other result =>
          v <- get_val other ;;
          g <- get_grad result ;;
          iadd_grad self (v [*] g) ;;;
          v <- get_val self ;;
          g <- get_grad result ;;
          iadd_grad other (v [*] g) ;;;
          log1 <- backward_log fuel' self
                    (log ++ [Fire n; Contrib self; Contrib other]) ;;
          backward_log fuel' other log1
      end
  end.

(** During [backward fuel r] no rule of [__add__] or [__mul__] fires
    twice: below every operator the two operands reach disjoint sets of
    operator results. *)
Fixpoint fires_once (fuel : nat) (h : heap) (r : ref) : Prop :=
  match fuel with
  | 0 => True
  | S fuel' =>
      match ruleof h r with
      | LambdaNone => True
      | AddBackward a b _ | MulBackward a b _ =>
          fires_once fuel' h a /\ fires_once fuel' h b /\
          forall m, ~ is_leaf h m ->
            Fire m ∈ events fuel' h a -> Fire m ∈ events fuel' h b -> False
      end
  end.

(** ** The partial derivative

    [partial h root n] is the derivative of the value of [root] with respect
    to the value of [n], by the sum and product rules over the graph:
    d[n]/d[n] = 1, a leaf other than [n] does not depend on [n],
    d(a+b) = da + db and d(a*b) = b*da + a*db. *)
Fixpoint partial_aux (fuel : nat) (h : heap) (r n : ref) : R :=
  match fuel with
  | 0 => n0
  | S fuel' =>
      if decide (r = n) then n1 else
      match ruleof h r with
      | LambdaNone => n0
      | AddBackward a b _ =>
          partial_aux fuel' h a n [+] partial_aux fuel' h b n
      | MulBackward a b _ =>
          valof h b [*] partial_aux fuel' h a n
          [+] valof h a [*] partial_aux fuel' h b n
      end
  end.

Definition partial (h : heap) (root n : ref) : R :=
  partial_aux (length h) h root n.

End Engine.

(** ** Shapes, depth and allocation *)

Section Measures.
Context {R : Type} {AR : Arith R}.

(** Every operator result in the graph of [root], other than [root], fills
    one operand slot of one application; leaves may be shared freely. *)
Definition single_use (h : heap R) (root : ref) : Prop :=
  forall m p i p' i',
    ~ is_leaf h m -> reaches h root m -> m <> root ->
    reaches h root p -> reaches h root p' ->
    operand_at h p i m -> operand_at h p' i' m -> p = p' /\ i = i'.

(** The number of nested calls [r.backward()] makes, itself included: one
    for a leaf, one more than the deeper operand for an operator result. *)
Fixpoint depth (fuel : nat) (h : heap R) (r : ref) : nat :=
  match fuel with
  | 0 => 0
  | S fuel' =>
      match ruleof h r with
      | LambdaNone => 1
      | AddBackward a b _ | MulBackward a b _ =>
          S (Nat.max (depth fuel' h a) (depth fuel' h b))
      end
  end.

Definition height (h : heap R) (r : ref) : nat := depth (length h) h r.

(** [allocs k h h']: [h'] is [h] followed by [k] new objects, and is well
    formed if [h] was. *)
Definition allocs (k : nat) (h h' : heap R) : Prop :=
  exists t, h' = h ++ t /\ length t = k /\ (wf h -> wf h').

End Measures.

(** ** The helpers of the training loop, on floats *)

Section Helpers.
Local Abbreviation M := (M float).

(** [l[i]] *)
Definition getitem (l : list ref) (i : nat) : M ref :=
  fun h => match l !! i with
           | Some x => Ok (x, h)
           | None => Raise IndexError
           end.

(** [[f(i) for i in l]] *)
Fixpoint mapM {A B} (f : A -> M B) (l : list A) : M (list B) :=
  match l with
  | [] => ret []
  | a :: l' => b <- f a ;; bs <- mapM f l' ;; ret (b :: bs)
  end.

(** [range(n)] *)
Definition range (n : nat) : list nat := seq 0 n.

(** [float(n)] for a length [n] (exact below 2^53; lengths stay below
    2^63). *)
Definition float_of_nat (n : nat) : float :=
  PrimFloat.of_uint63 (Uint63.of_Z (Z.of_nat n)).

(** [x / n] for a float [x] and an int [n]: Python raises on a zero
    divisor. *)
Definition truediv (x : float) (n : nat) : M float :=
  match n with
  | 0 => raise ZeroDivisionError
  | S _ => ret (x / float_of_nat n)%float
  end.

(** [sum(l, start)]: [start + l[0] + l[1] + ...], with [__add__]. *)
Fixpoint py_sum (l : list ref) (acc : ref) : M ref :=
  match l with
  | [] => ret acc
  | x :: l' => acc' <- __add__ acc x ;; py_sum l' acc'
  end.

(** [forward(X, w)] *)
Definition forward (X : list ref) (w : ref) : M (list ref) :=
  mapM (fun i => x <- getitem X i ;; __mul__ w x) (range (length X)).

(** [mse(y, y_pred)] *)
Definition mse (y y_pred : list ref) : M ref :=
  error <- mapM (fun i =>
                   yi <- getitem y i ;;
                   m <- Scalar (-1)%float ;;
                   pi <- getitem y_pred i ;;
                   t <- __mul__ m pi ;;
                   __add__ yi t)
                (range (length y)) ;;
  se <- mapM (fun i =>
                e1 <- getitem error i ;;
                e2 <- getitem error i ;;
                __mul__ e1 e2)
             (range (length error)) ;;
  k <- truediv 1%float (length error) ;;
  c <- Scalar k ;;
  start <- Scalar 0%float ;;
  total <- py_sum se start ;;
  __mul__ c total.

(** The closed form: [(1/n) * sum_i (y_i - p_i)^2] in binary64, the
    squares added from the left starting from 0. *)
Definition mse_value (ys ps : list float) : float :=
  (1 / float_of_nat (length ys) *
   fold_left PrimFloat.add
     ((fun i => let e := nth i ys 0 - nth i ps 0 in e * e) <$> range (length ys))
     0)%float.

(** [LEARNING_RATE = 0.01] *)
Definition LEARNING_RATE : float := 0x1.47ae147ae147bp-7%float.

(** The body of the training loop:
    [y_pred = forward(X, w); loss = mse(y, y_pred); w.grad = 0.;
    loss.grad = 1.; loss.backward(); w.val -= LEARNING_RATE * w.grad]. *)
Definition epoch (X y : list ref) (w : ref) : M unit :=
  y_pred <- forward X w ;;
  loss <- mse y y_pred ;;
  set_grad w 0%float ;;;
  set_grad loss 1%float ;;;
  call_backward loss ;;;
  v <- get_val w ;;
  g <- get_grad w ;;
  set_val w (v - LEARNING_RATE * g)%float.

(** [for _ in range(epochs): ...] *)
Fixpoint train (epochs : nat) (X y : list ref) (w : ref) : M unit :=
  match epochs with
  | 0 => ret tt
  | S k => epoch X y w ;;; train k X y w
  end.

(** The loop body when the interpreter has room for [limit] nested calls
    at [loss.backward()]. *)
Definition epoch_within (limit : nat) (X y : list ref) (w : ref) : M unit :=
  y_pred <- forward X w ;;
  loss <- mse y y_pred ;;
  set_grad w 0%float ;;;
  set_grad loss 1%float ;;;
  backward limit loss ;;;
  v <- get_val w ;;
  g <- get_grad w ;;
  set_val w (v - LEARNING_RATE * g)%float.

(** The loop with that much room in every epoch. *)
Fixpoint train_within (limit epochs : nat) (X y : list ref) (w : ref)
    : M unit :=
  match epochs with
  | 0 => ret tt
  | S k => epoch_within limit X y w ;;; train_within limit k X y w
  end.

(** [EPOCHS = 100] *)
Definition EPOCHS : nat := 100.

(** [float(i)] for an int [i] *)
Definition float_of_Z (z : Z) : float :=
  if (z <? 0)%Z then (- float_of_nat (Z.to_nat (- z)))%float
  else float_of_nat (Z.to_nat z).

(** The values of [X]: [i * 0.1 for i in range(-50, 50)]. *)
Definition X_values : list float :=
  (fun k => (float_of_Z (Z.of_nat k - 50) * 0x1.999999999999ap-4)%float)
    <$> seq 0 100.

(** The data cells, in the order the notebook runs them:
    [w = Scalar(random.uniform(-1, 1))], [X = [Scalar(v) for v in ...]],
    [W = Scalar(7)],
    [y = [W * X[i] + Scalar(random.gauss(...)) for i in range(len(X))]].
    The random draws are inputs: [w0] is the draw for [w], [noise i] the
    draw for [y[i]]. *)
Definition dataset (w0 : float) (xs : list float) (noise : nat -> float)
    : M (ref * list ref * list ref) :=
  w <- Scalar w0 ;;
  X <- mapM Scalar xs ;;
  W <- Scalar 7%float ;;
  y <- mapM (fun i =>
               x <- getitem X i ;;
               t <- __mul__ W x ;;
               e <- Scalar (noise i) ;;
               __add__ t e)
            (range (length X)) ;;
  ret (w, X, y).

(** The data cells, the training loop, and [w]. *)
Definition notebook (w0 : float) (xs : list float) (noise : nat -> float)
    (epochs : nat) : M ref :=
  d <- dataset w0 xs noise ;;
  train epochs d.1.2 d.2 d.1.1 ;;;
  ret d.1.1.

(** The same with room for [limit] nested calls. *)
Definition notebook_within (limit : nat) (w0 : float) (xs : list float)
    (noise : nat -> float) (epochs : nat) : M ref :=
  d <- dataset w0 xs noise ;;
  train_within limit epochs d.1.2 d.2 d.1.1 ;;;
  ret d.1.1.

End Helpers.

(** ** The graph of the loss and what flows through it *)

Section LossShape.
Context {R : Type} {AR : Arith R}.
Variable minus_one : R.

(** [allocs0 k h h']: [h'] is [h] followed by [k] new objects whose
    gradients are zero, and is well formed if [h] was. *)
Definition allocs0 (k : nat) (h h' : heap R) : Prop :=
  exists t, h' = h ++ t /\ length t = k /\
    Forall (fun nd => grad nd = n0) t /\ (wf h -> wf h').

(** Where the objects of the loss graph sit:
    [y_pred = forward(X, w); loss = mse(y, y_pred)] on a store of [L]
    objects, with [N] inputs and [n] targets, puts the predictions at
    [L + i], then for every sample the constant, its product with the
    prediction and the error, then the squares, the factor, the start of the
    sum, the partial sums and the loss. [xs i] and [ys i] are the input and
    the target of sample [i], [minus_one] the value of [Scalar(-1.0)] and
    [rc] that of [Scalar(1./len(error))]. *)
Record loss_graph (g : heap R) (L N n : nat) (w : ref) (xs ys : nat -> ref)
    (rc : R) : Prop := {
  lg_wf : wf g;
  lg_len : length g = L + N + 3 * n + n + n + 3;
  lg_n : n <= N;
  lg_w : w < L /\ is_leaf g w;
  lg_x : forall i, i < n -> xs i < L /\ is_leaf g (xs i) /\ xs i <> w;
  lg_y : forall i, i < n -> ys i < L /\ ~ reaches g (ys i) w;
  lg_p : forall i, i < n -> ruleof g (L + i) = MulBackward w (xs i) (L + i);
  lg_m : forall i, i < n ->
    is_leaf g (L + N + 3 * i) /\ valof g (L + N + 3 * i) = minus_one;
  lg_t : forall i, i < n ->
    ruleof g (L + N + 3 * i + 1)
    = MulBackward (L + N + 3 * i) (L + i) (L + N + 3 * i + 1);
  lg_e : forall i, i < n ->
    ruleof g (L + N + 3 * i + 2)
    = AddBackward (ys i) (L + N + 3 * i + 1) (L + N + 3 * i + 2);
  lg_s : forall i, i < n ->
    ruleof g (L + N + 3 * n + i)
    = MulBackward (L + N + 3 * i + 2) (L + N + 3 * i + 2) (L + N + 3 * n + i);
  lg_c : is_leaf g (L + N + 3 * n + n) /\ valof g (L + N + 3 * n + n) = rc;
  lg_start : is_leaf g (L + N + 3 * n + n + 1);
  lg_acc : forall k, k < n ->
    ruleof g (L + N + 3 * n + n + 2 + k)
    = AddBackward (L + N + 3 * n + n + 1 + k) (L + N + 3 * n + k)
        (L + N + 3 * n + n + 2 + k);
  lg_loss :
    ruleof g (L + N + 3 * n + n + n + 2)
    = MulBackward (L + N + 3 * n + n) (L + N + 3 * n + n + 1 + n)
        (L + N + 3 * n + n + n + 2)
}.

(** What the closures below the square of one sample add to [w.grad]
    while [loss.backward()] runs, in the order they run. [g] is [w.grad]
    before, [G] the gradient the square carries, [e] the value of the error
    and [x] that of the input. [mse] squares the error as
    [error[i] * error[i]]: the rule of the square adds [e * G] to the
    gradient of the error twice, then calls the error's [backward] twice.
    The first call hands the error's gradient down once; the second finds
    the gradients of the objects below already filled and hands down their
    sum. *)
Definition sample_flow (g G e x : R) : R :=
  let de := n0 [+] e [*] G [+] e [*] G in
  let dt1 := n0 [+] de in
  let dp1 := n0 [+] minus_one [*] dt1 in
  let dt2 := dt1 [+] de in
  let dp2 := dp1 [+] minus_one [*] dt2 in
  g [+] x [*] dp1 [+] x [*] dp2.

(** What the chain of partial sums [sum(se, Scalar(0))] adds to [w.grad]:
    the [k]-th partial sum, carrying gradient [A], hands [0. + A] to the
    partial sum below and to the square of sample [k - 1]; the samples
    below run first. [es i] and [xs i] are the values of the error and of
    the input of sample [i]. *)
Fixpoint chain_flow (es xs : nat -> R) (k : nat) (A g : R) : R :=
  match k with
  | 0 => g
  | S k' =>
      sample_flow (chain_flow es xs k' (n0 [+] A) g) (n0 [+] A) (es k') (xs k')
  end.

End LossShape.


(** ** The notebook's checks, on floats *)

Module Notebook.

(** [x = Scalar(4.); y = ( x * x * x ) + x + x;
    x.grad = 0.; y.grad = 1.; y.backward(); x.grad] *)
Definition cubic_plus_2x : M float float :=
  x <- Scalar 4%float ;;
  xx <- __mul__ x x ;;
  xxx <- __mul__ xx x ;;
  s <- __add__ xxx x ;;
  y <- __add__ s x ;;
  set_grad x 0%float ;;;
  set_grad y 1%float ;;;
  call_backward y ;;;
  get_grad x.

(** The same protocol on [y = (x * x) * x] alone. *)
Definition cubic : M float float :=
  x <- Scalar 4%float ;;
  xx <- __mul__ x x ;;
  y <- __mul__ xx x ;;
  set_grad x 0%float ;;;
  set_grad y 1%float ;;;
  call_backward y ;;;
  get_grad x.

(** [x = Scalar(5.); y = x + x] and the same protocol. *)
Definition double : M float float :=
  x <- Scalar 5%float ;;
  y <- __add__ x x ;;
  set_grad x 0%float ;;;
  set_grad y 1%float ;;;
  call_backward y ;;;
  get_grad x.

(** The graph of [y = ( x * x * x ) + x + x] over any numbers, seeded:
    [x] is object 0 and [y] object 4. *)
Definition cubic_plus_2x_graph {R} {AR : Arith R} (x0 : R) : M R unit :=
  x <- Scalar x0 ;;
  xx <- __mul__ x x ;;
  xxx <- __mul__ xx x ;;
  s <- __add__ xxx x ;;
  y <- __add__ s x ;;
  set_grad x n0 ;;;
  set_grad y n1.

(** [t = x * z; y = t + t], seeded: an operator result passed as both
    operands. [x] is object 0, [z] 1, [t] 2 and [y] 3. *)
Definition doubled_product_graph {R} {AR : Arith R} (x0 z0 : R) : M R unit :=
  x <- Scalar x0 ;;
  z <- Scalar z0 ;;
  t <- __mul__ x z ;;
  y <- __add__ t t ;;
  set_grad y n1.

(** [t = x + x; y = t * c], seeded: a leaf passed as both operands.
    [x] is object 0, [t] 1, [c] 2 and [y] 3. *)
Definition doubled_leaf_graph {R} {AR : Arith R} (x0 c0 : R) : M R unit :=
  x <- Scalar x0 ;;
  t <- __add__ x x ;;
  c <- Scalar c0 ;;
  y <- __mul__ t c ;;
  set_grad y n1.

(** [u = x + x; a = u + x; y = a + u], seeded: [x] feeds the two
    applications [u] and [a], whose results meet again in [y].
    [x] is object 0, [u] 1, [a] 2 and [y] 3. *)
Definition reconvergent_graph {R} {AR : Arith R} (x0 : R) : M R unit :=
  x <- Scalar x0 ;;
  u <- __add__ x x ;;
  a <- __add__ u x ;;
  y <- __add__ a u ;;
  set_grad y n1.

(** [xx = x * x; y = x + xx], seeded: the leaf [x] is used three times,
    the operator result [xx] once, and [x] receives the contributions of
    [xx] after its own [backward] was called by [y]. [x] is object 0,
    [xx] 1 and [y] 2. *)
Definition shared_leaf_graph {R} {AR : Arith R} (x0 : R) : M R unit :=
  x <- Scalar x0 ;;
  xx <- __mul__ x x ;;
  y <- __add__ x xx ;;
  set_grad y n1.

(** [a = Scalar(2.); b = Scalar(3.); c = a * b; a.val = 10.;
    c.grad = 1.; c.backward()]: returns [b.grad] after the pass, and beside
    it what [b.grad] would be had the rule used the value [a] had when [c]
    was built. *)
Definition stale_operand : M float (float * float) :=
  a <- Scalar 2%float ;;
  b <- Scalar 3%float ;;
  c <- __mul__ a b ;;
  a_old <- get_val a ;;
  set_val a 10%float ;;;
  set_grad c 1%float ;;;
  g <- get_grad c ;;
  b_before <- get_grad b ;;
  call_backward c ;;;
  b_after <- get_grad b ;;
  ret (b_after, b_before [+] a_old [*] g).

(** [Scalar(p) + Scalar(q)] and [Scalar(p) * Scalar(q)]: the operands and
    the result. *)
Definition add_of {R} {AR : Arith R} (p q : R) : M R (ref * ref * ref) :=
  a <- Scalar p ;;
  b <- Scalar q ;;
  c <- __add__ a b ;;
  ret (a, b, c).

Definition mul_of {R} {AR : Arith R} (p q : R) : M R (ref * ref * ref) :=
  a <- Scalar p ;;
  b <- Scalar q ;;
  c <- __mul__ a b ;;
  ret (a, b, c).


(** One step of the training loop on a single sample:
    [y_pred = forward(X, w); loss = mse(y, y_pred); w.grad = 0.;
    loss.grad = 1.; loss.backward()] with [X = [Scalar(1.)]],
    [y = [Scalar(7.)]] and [w = Scalar(2.)]. Returns [w.grad] after the
    pass and, beside it, the derivative of the loss with respect to [w]. *)
Definition one_sample_step : M float (float * float) :=
  x <- Scalar 1%float ;;
  y <- Scalar 7%float ;;
  w <- Scalar 2%float ;;
  y_pred <- forward [x] w ;;
  loss <- mse [y] y_pred ;;
  set_grad w 0%float ;;;
  set_grad loss 1%float ;;;
  h <- (fun h => Ok (h, h)) ;;
  call_backward loss ;;;
  g <- get_grad w ;;
  ret (g, partial h loss w).

(** The store a computation leaves, started on the empty store. *)
Definition store_of {R A} (m : M R A) : heap R :=
  match m [] with
  | Ok (_, h) => h
  | Raise _ => []
  end.

(** What a computation returns, started on the empty store. *)
Definition returns {R A} (m : M R A) : result A :=
  match m [] with
  | Ok (a, _) => Ok a
  | Raise e => Raise e
  end.

End Notebook.

(** Case analysis on membership in an explicit list. *)
Ltac elem_cases :=
  repeat match goal with
         | H : list_elem_of _ [] |- _ => inversion H
         | H : list_elem_of _ (_ :: _) |- _ => inversion H; clear H; subst
         | H : _ ∈ [] |- _ => inversion H
         | H : _ ∈ _ :: _ |- _ => inversion H; clear H; subst
         end.

(** * Facts about the store *)

Section StoreFacts.
Context {R : Type} {AR : Arith R}.
Implicit Types (h : heap R) (n m : ref) (d g v : R).

Lemma bind_Ok {A B} (c : M R A) (k : A -> M R B) h a h' :
  c h = Ok (a, h') -> bind c k h = k a h'.
Proof. unfold bind. intros ->. reflexivity. Qed.

Lemma bind_Raise {A B} (c : M R A) (k : A -> M R B) h e :
  c h = Raise e -> bind c k h = Raise e.
Proof. unfold bind. intros ->. reflexivity. Qed.

Lemma bind_inv {A B} (c : M R A) (k : A -> M R B) h b h2 :
  bind c k h = Ok (b, h2) ->
  exists a h1, c h = Ok (a, h1) /\ k a h1 = Ok (b, h2).
Proof.
  unfold bind. destruct (c h) as [[a h1]|e]; [|discriminate].
  intros Hk. exists a, h1. split; [reflexivity|exact Hk].
Qed.

Lemma getattr_eq {A} (f : node R -> A) n h nd :
  h !! n = Some nd -> getattr f n h = Ok (f nd, h).
Proof. unfold getattr. intros ->. reflexivity. Qed.

Lemma lookup_node h n : n < length h -> exists nd, h !! n = Some nd.
Proof. intros Hn. apply lookup_lt_is_Some_2 in Hn. destruct Hn as [nd ?]. eauto. Qed.

Lemma get_val_eq h n : n < length h -> get_val n h = Ok (valof h n, h).
Proof.
  intros [nd Hnd]%lookup_node. unfold get_val, valof.
  rewrite (getattr_eq _ _ _ _ Hnd), Hnd. reflexivity.
Qed.

Lemma get_grad_eq h n : n < length h -> get_grad n h = Ok (gradof h n, h).
Proof.
  intros [nd Hnd]%lookup_node. unfold get_grad, gradof.
  rewrite (getattr_eq _ _ _ _ Hnd), Hnd. reflexivity.
Qed.

Lemma get_backward_eq h n :
  n < length h -> get_backward n h = Ok (ruleof h n, h).
Proof.
  intros [nd Hnd]%lookup_node. unfold get_backward, ruleof.
  rewrite (getattr_eq _ _ _ _ Hnd), Hnd. reflexivity.
Qed.

Lemma getattr_inv {A} (f : node R -> A) n h a h' :
  getattr f n h = Ok (a, h') -> h' = h /\ n < length h.
Proof.
  unfold getattr. destruct (h !! n) as [nd|] eqn:E; [|discriminate].
  intros [= _ <-]. split; [reflexivity|]. eapply lookup_lt_Some, E.
Qed.

Lemma iadd_grad_eq h n d : n < length h -> iadd_grad n d h = Ok (tt, bump n d h).
Proof.
  intros Hn. destruct (lookup_node _ _ Hn) as [nd Hnd].
  unfold iadd_grad. rewrite (bind_Ok _ _ _ _ _ (get_grad_eq _ _ Hn)).
  unfold set_grad, setattr, bump, gradof. rewrite Hnd. reflexivity.
Qed.

Lemma iadd_grad_inv h n d h' :
  iadd_grad n d h = Ok (tt, h') -> n < length h /\ h' = bump n d h.
Proof.
  intros H. assert (Hn : n < length h).
  { apply bind_inv in H as (g & h1 & Hg & _).
    apply getattr_inv in Hg. tauto. }
  rewrite (iadd_grad_eq _ _ _ Hn) in H. split; [exact Hn|congruence].
Qed.

(** [n.grad += d] changes one gradient and nothing else. *)
Lemma length_bump h n d : length (bump n d h) = length h.
Proof. unfold bump. destruct (h !! n); [apply length_insert|reflexivity]. Qed.

Lemma valof_bump h n d m : valof (bump n d h) m = valof h m.
Proof.
  unfold bump, valof. destruct (h !! n) as [nd|] eqn:E; [|reflexivity].
  destruct (decide (n = m)) as [->|Hne].
  - rewrite list_lookup_insert_eq by (eapply lookup_lt_Some, E).
    rewrite E. reflexivity.
  - rewrite list_lookup_insert_ne by exact Hne. reflexivity.
Qed.

Lemma ruleof_bump h n d m : ruleof (bump n d h) m = ruleof h m.
Proof.
  unfold bump, ruleof. destruct (h !! n) as [nd|] eqn:E; [|reflexivity].
  destruct (decide (n = m)) as [->|Hne].
  - rewrite list_lookup_insert_eq by (eapply lookup_lt_Some, E).
    rewrite E. reflexivity.
  - rewrite list_lookup_insert_ne by exact Hne. reflexivity.
Qed.

Lemma gradof_bump h n d m :
  n < length h ->
  gradof (bump n d h) m = if decide (m = n) then gradof h n [+] d else gradof h m.
Proof.
  intros Hn. destruct (lookup_node _ _ Hn) as [nd E].
  unfold bump, gradof. rewrite E.
  destruct (decide (m = n)) as [->|Hne].
  - rewrite list_lookup_insert_eq by exact Hn. reflexivity.
  - rewrite list_lookup_insert_ne by congruence. reflexivity.
Qed.

Lemma graph_of_bump h n d : graph_of (bump n d h) = graph_of h.
Proof.
  unfold bump, graph_of. destruct (h !! n) as [nd|] eqn:E; [|reflexivity].
  rewrite list_fmap_insert. apply list_insert_id.
  rewrite list_lookup_fmap, E. reflexivity.
Qed.

Lemma graph_of_length h h' : graph_of h' = graph_of h -> length h' = length h.
Proof.
  intros H. apply (f_equal length) in H. unfold graph_of in H.
  rewrite !length_fmap in H. exact H.
Qed.

Lemma graph_of_lookup h h' m :
  graph_of h' = graph_of h -> static <$> (h' !! m) = static <$> (h !! m).
Proof.
  intros H. rewrite <- !list_lookup_fmap. fold (graph_of h') (graph_of h).
  rewrite H. reflexivity.
Qed.

Lemma graph_of_valof h h' m : graph_of h' = graph_of h -> valof h' m = valof h m.
Proof.
  intros H%(graph_of_lookup _ _ m). unfold valof.
  destruct (h' !! m) as [x|], (h !! m) as [y|]; unfold static in H; cbn in *;
    congruence.
Qed.

Lemma graph_of_ruleof h h' m :
  graph_of h' = graph_of h -> ruleof h' m = ruleof h m.
Proof.
  intros H%(graph_of_lookup _ _ m). unfold ruleof.
  destruct (h' !! m) as [x|], (h !! m) as [y|]; unfold static in H; cbn in *;
    congruence.
Qed.

Lemma graph_of_wf h h' : graph_of h' = graph_of h -> wf h -> wf h'.
Proof.
  intros H Hwf i Hi. rewrite (graph_of_ruleof _ _ _ H).
  apply Hwf. rewrite <- (graph_of_length _ _ H). exact Hi.
Qed.

Lemma wf_operands h r a b c :
  wf h -> r < length h ->
  ruleof h r = AddBackward a b c \/ ruleof h r = MulBackward a b c ->
  a < r /\ b < r /\ c = r.
Proof.
  intros Hwf Hr Hc. specialize (Hwf r Hr).
  destruct Hc as [Hc|Hc]; rewrite Hc in Hwf; exact Hwf.
Qed.

(** One step of [backward] on an [__add__] result. *)
Lemma backward_S_add f r h a b c :
  ruleof h r = AddBackward a b c ->
  r < length h -> a < length h -> b < length h -> c < length h ->
  backward (S f) r h =
  (backward f a ;;; backward f b)
    (bump b (gradof (bump a (gradof h c) h) c) (bump a (gradof h c) h)).
Proof.
  intros Hc Hr Ha Hb Hcl. cbn [backward].
  rewrite (bind_Ok _ _ _ _ _ (get_backward_eq _ _ Hr)), Hc.
  rewrite (bind_Ok _ _ _ _ _ (get_grad_eq _ _ Hcl)).
  rewrite (bind_Ok _ _ _ _ _ (iadd_grad_eq _ _ _ Ha)).
  assert (Hcl' : c < length (bump a (gradof h c) h)) by (rewrite length_bump; exact Hcl).
  assert (Hb' : b < length (bump a (gradof h c) h)) by (rewrite length_bump; exact Hb).
  rewrite (bind_Ok _ _ _ _ _ (get_grad_eq _ _ Hcl')).
  rewrite (bind_Ok _ _ _ _ _ (iadd_grad_eq _ _ _ Hb')).
  reflexivity.
Qed.

(** One step of [backward] on a [__mul__] result. *)
Lemma backward_S_mul f r h a b c :
  ruleof h r = MulBackward a b c ->
  r < length h -> a < length h -> b < length h -> c < length h ->
  backward (S f) r h =
  (backward f a ;;; backward f b)
    (bump b (valof h a [*] gradof (bump a (valof h b [*] gradof h c) h) c)
       (bump a (valof h b [*] gradof h c) h)).
Proof.
  intros Hc Hr Ha Hb Hcl. cbn [backward].
  rewrite (bind_Ok _ _ _ _ _ (get_backward_eq _ _ Hr)), Hc.
  rewrite (bind_Ok _ _ _ _ _ (get_val_eq _ _ Hb)).
  rewrite (bind_Ok _ _ _ _ _ (get_grad_eq _ _ Hcl)).
  rewrite (bind_Ok _ _ _ _ _ (iadd_grad_eq _ _ _ Ha)).
  set (h1 := bump a _ h).
  assert (Hl : length h1 = length h) by apply length_bump.
  rewrite (bind_Ok _ _ _ _ _ (get_val_eq h1 a ltac:(lia))).
  rewrite (bind_Ok _ _ _ _ _ (get_grad_eq h1 c ltac:(lia))).
  rewrite (bind_Ok _ _ _ _ _ (iadd_grad_eq h1 b _ ltac:(lia))).
  unfold h1 at 1. rewrite valof_bump. reflexivity.
Qed.

(** A backward call that returns has changed gradients only. *)
Lemma backward_graph_of f : forall r h h',
  backward f r h = Ok (tt, h') -> graph_of h' = graph_of h.
Proof.
  induction f as [|f IH]; intros r h h' H; [discriminate|].
  cbn [backward] in H.
  apply bind_inv in H as (c & h0 & Hc & H).
  apply getattr_inv in Hc as [-> Hr].
  destruct c as [|a b c|a b c].
  - injection H as <-. reflexivity.
  - apply bind_inv in H as (g1 & h1 & Hg1 & H). apply getattr_inv in Hg1 as [-> _].
    apply bind_inv in H as ([] & h2 & Hi1 & H). apply iadd_grad_inv in Hi1 as [_ ->].
    apply bind_inv in H as (g2 & h3 & Hg2 & H). apply getattr_inv in Hg2 as [-> _].
    apply bind_inv in H as ([] & h4 & Hi2 & H). apply iadd_grad_inv in Hi2 as [_ ->].
    apply bind_inv in H as ([] & h5 & Hb1 & Hb2).
    apply IH in Hb1. apply IH in Hb2.
    rewrite Hb2, Hb1, !graph_of_bump. reflexivity.
  - apply bind_inv in H as (v1 & h1 & Hv1 & H). apply getattr_inv in Hv1 as [-> _].
    apply bind_inv in H as (g1 & h1 & Hg1 & H). apply getattr_inv in Hg1 as [-> _].
    apply bind_inv in H as ([] & h2 & Hi1 & H). apply iadd_grad_inv in Hi1 as [_ ->].
    apply bind_inv in H as (v2 & h3 & Hv2 & H). apply getattr_inv in Hv2 as [-> _].
    apply bind_inv in H as (g2 & h3 & Hg2 & H). apply getattr_inv in Hg2 as [-> _].
    apply bind_inv in H as ([] & h4 & Hi2 & H). apply iadd_grad_inv in Hi2 as [_ ->].
    apply bind_inv in H as ([] & h5 & Hb1 & Hb2).
    apply IH in Hb1. apply IH in Hb2.
    rewrite Hb2, Hb1, !graph_of_bump. reflexivity.
Qed.

(** On a well-formed store a backward call with enough budget returns. *)
Lemma backward_total f : forall r h,
  wf h -> r < f -> r < length h -> exists h', backward f r h = Ok (tt, h').
Proof.
  induction f as [|f IH]; intros r h Hwf Hf Hr; [lia|].
  destruct (ruleof h r) as [|a b c|a b c] eqn:Hc.
  - exists h. cbn [backward].
    rewrite (bind_Ok _ _ _ _ _ (get_backward_eq _ _ Hr)), Hc. reflexivity.
  - destruct (wf_operands h r a b c Hwf Hr (or_introl Hc)) as (Ha & Hb & ->).
    rewrite (backward_S_add f r h a b r Hc) by lia.
    set (h2 := bump b _ _).
    assert (G2 : graph_of h2 = graph_of h) by (unfold h2; rewrite !graph_of_bump; reflexivity).
    assert (L2 := graph_of_length _ _ G2).
    destruct (IH a h2 (graph_of_wf _ _ G2 Hwf) ltac:(lia) ltac:(lia)) as [h3 H3].
    assert (G3 := backward_graph_of _ _ _ _ H3).
    assert (L3 := graph_of_length _ _ G3).
    destruct (IH b h3 (graph_of_wf _ _ G3 (graph_of_wf _ _ G2 Hwf)) ltac:(lia) ltac:(lia))
      as [h4 H4].
    exists h4. rewrite (bind_Ok _ _ _ _ _ H3). exact H4.
  - destruct (wf_operands h r a b c Hwf Hr (or_intror Hc)) as (Ha & Hb & ->).
    rewrite (backward_S_mul f r h a b r Hc) by lia.
    set (h2 := bump b _ _).
    assert (G2 : graph_of h2 = graph_of h) by (unfold h2; rewrite !graph_of_bump; reflexivity).
    assert (L2 := graph_of_length _ _ G2).
    destruct (IH a h2 (graph_of_wf _ _ G2 Hwf) ltac:(lia) ltac:(lia)) as [h3 H3].
    assert (G3 := backward_graph_of _ _ _ _ H3).
    assert (L3 := graph_of_length _ _ G3).
    destruct (IH b h3 (graph_of_wf _ _ G3 (graph_of_wf _ _ G2 Hwf)) ltac:(lia) ltac:(lia))
      as [h4 H4].
    exists h4. rewrite (bind_Ok _ _ _ _ _ H3). exact H4.
Qed.

(** ** The constructor and the operators allocate *)

Lemma Scalar_eq h v : Scalar v h = Ok (length h, h ++ [mkNode v n0 LambdaNone]).
Proof. reflexivity. Qed.

Lemma set_backward_last h nd c :
  set_backward (length h) c (h ++ [nd]) = Ok (tt, h ++ [with_backward c nd]).
Proof.
  unfold set_backward, setattr.
  rewrite list_lookup_middle by reflexivity.
  rewrite insert_app_r_alt by lia. rewrite Nat.sub_diag. reflexivity.
Qed.

Lemma add_eq h a b :
  a < length h -> b < length h ->
  __add__ a b h =
  Ok (length h,
      h ++ [mkNode (valof h a [+] valof h b) n0 (AddBackward a b (length h))]).
Proof.
  intros Ha Hb. unfold __add__.
  rewrite (bind_Ok _ _ _ _ _ (get_val_eq _ _ Ha)).
  rewrite (bind_Ok _ _ _ _ _ (get_val_eq _ _ Hb)).
  rewrite (bind_Ok _ _ _ _ _ (Scalar_eq _ _)).
  rewrite (bind_Ok _ _ _ _ _ (set_backward_last _ _ _)). reflexivity.
Qed.

Lemma mul_eq h a b :
  a < length h -> b < length h ->
  __mul__ a b h =
  Ok (length h,
      h ++ [mkNode (valof h a [*] valof h b) n0 (MulBackward a b (length h))]).
Proof.
  intros Ha Hb. unfold __mul__.
  rewrite (bind_Ok _ _ _ _ _ (get_val_eq _ _ Ha)).
  rewrite (bind_Ok _ _ _ _ _ (get_val_eq _ _ Hb)).
  rewrite (bind_Ok _ _ _ _ _ (Scalar_eq _ _)).
  rewrite (bind_Ok _ _ _ _ _ (set_backward_last _ _ _)). reflexivity.
Qed.

Lemma add_inv h a b i h' :
  __add__ a b h = Ok (i, h') -> a < length h /\ b < length h.
Proof.
  intros H. apply bind_inv in H as (x & h1 & Hx & H).
  apply getattr_inv in Hx as [-> Ha].
  apply bind_inv in H as (y & h2 & Hy & H).
  apply getattr_inv in Hy as [-> Hb]. auto.
Qed.

Lemma mul_inv h a b i h' :
  __mul__ a b h = Ok (i, h') -> a < length h /\ b < length h.
Proof.
  intros H. apply bind_inv in H as (x & h1 & Hx & H).
  apply getattr_inv in Hx as [-> Ha].
  apply bind_inv in H as (y & h2 & Hy & H).
  apply getattr_inv in Hy as [-> Hb]. auto.
Qed.

(** Older objects keep their attributes when the store grows. *)
Lemma valof_app_l h t n : n < length h -> valof (h ++ t) n = valof h n.
Proof. intros Hn. unfold valof. rewrite lookup_app_l by exact Hn. reflexivity. Qed.

Lemma gradof_app_l h t n : n < length h -> gradof (h ++ t) n = gradof h n.
Proof. intros Hn. unfold gradof. rewrite lookup_app_l by exact Hn. reflexivity. Qed.

Lemma ruleof_app_l h t n : n < length h -> ruleof (h ++ t) n = ruleof h n.
Proof. intros Hn. unfold ruleof. rewrite lookup_app_l by exact Hn. reflexivity. Qed.

Lemma valof_last h nd : valof (h ++ [nd]) (length h) = val nd.
Proof. unfold valof. rewrite list_lookup_middle by reflexivity. reflexivity. Qed.

Lemma gradof_last h nd : gradof (h ++ [nd]) (length h) = grad nd.
Proof. unfold gradof. rewrite list_lookup_middle by reflexivity. reflexivity. Qed.

Lemma ruleof_last h nd : ruleof (h ++ [nd]) (length h) = backward_rule nd.
Proof. unfold ruleof. rewrite list_lookup_middle by reflexivity. reflexivity. Qed.

Lemma wf_snoc h nd :
  wf h -> closure_ok (length h) (backward_rule nd) -> wf (h ++ [nd]).
Proof.
  intros Hwf Hc i Hi. rewrite length_app in Hi. cbn in Hi.
  destruct (decide (i = length h)) as [->|Hne].
  - rewrite ruleof_last. exact Hc.
  - rewrite ruleof_app_l by lia. apply Hwf. lia.
Qed.

Lemma setattr_grad_graph_of h n g h' :
  set_grad n g h = Ok (tt, h') -> graph_of h' = graph_of h.
Proof.
  unfold set_grad, setattr. destruct (h !! n) as [nd|] eqn:E; [|discriminate].
  intros [= <-]. unfold graph_of. rewrite list_fmap_insert.
  apply list_insert_id. rewrite list_lookup_fmap, E. reflexivity.
Qed.

(** Every store the class builds is well formed. *)
Lemma built_wf h : built h -> wf h.
Proof.
  induction 1 as [|h v i h' _ IH H|h a b i h' _ IH H|h a b i h' _ IH H
                  |h n g h' _ IH H|h n h' _ IH H].
  - intros i Hi. cbn in Hi. lia.
  - rewrite Scalar_eq in H. injection H as _ <-. apply wf_snoc; [exact IH|exact I].
  - destruct (add_inv _ _ _ _ _ H) as [Ha Hb].
    rewrite add_eq in H by assumption. injection H as _ <-.
    apply wf_snoc; [exact IH|]. cbn. auto.
  - destruct (mul_inv _ _ _ _ _ H) as [Ha Hb].
    rewrite mul_eq in H by assumption. injection H as _ <-.
    apply wf_snoc; [exact IH|]. cbn. auto.
  - eapply graph_of_wf; [|exact IH]. eapply setattr_grad_graph_of, H.
  - eapply graph_of_wf; [|exact IH]. eapply backward_graph_of, H.
Qed.

(** ** What the operators allocate and what the rules read *)

Lemma op_fresh h a b c h' :
  __add__ a b h = Ok (c, h') \/ __mul__ a b h = Ok (c, h') ->
  a < length h /\ b < length h /\ c = length h /\
  exists nd, h' = h ++ [nd] /\ grad nd = n0 /\
    (__add__ a b h = Ok (c, h') ->
       val nd = valof h a [+] valof h b /\ backward_rule nd = AddBackward a b c) /\
    (__mul__ a b h = Ok (c, h') ->
       val nd = valof h a [*] valof h b /\ backward_rule nd = MulBackward a b c).
Proof.
  intros [H|H].
  - destruct (add_inv _ _ _ _ _ H) as [Ha Hb]. pose proof H as H'.
    rewrite add_eq in H by assumption. injection H as <- <-.
    repeat split; auto. eexists. split; [reflexivity|]. split; [reflexivity|].
    split; [intros _; split; reflexivity|].
    rewrite mul_eq by assumption. intros [= E]. apply app_inv_head in E.
    discriminate.
  - destruct (mul_inv _ _ _ _ _ H) as [Ha Hb]. pose proof H as H'.
    rewrite mul_eq in H by assumption. injection H as <- <-.
    repeat split; auto. eexists. split; [reflexivity|]. split; [reflexivity|].
    split; [|intros _; split; reflexivity].
    rewrite add_eq by assumption. intros [= E]. apply app_inv_head in E.
    discriminate.
Qed.

(** C3, amended: the rule of a product reads the operands' values from the
    store it runs on, not the values they had when the product was built:
    on any later store [h] in which [c] still carries its closure,
    [c.backward()] adds [b.val * c.grad] to [a.grad] and [a.val * c.grad]
    to [b.grad] with the values of [h], then calls [a.backward()] and
    [b.backward()]. Only [c.val] is fixed when the operator runs. Both
    operators leave every existing object as it was and return a new
    object, whose gradient is 0. *)
Theorem mul_backward_reads_current_values h0 a b c h1 h fuel :
  __mul__ a b h0 = Ok (c, h1) ->
  c < length h -> ruleof h c = MulBackward a b c ->
  (c = length h0 /\ length h1 = S (length h0) /\ take (length h0) h1 = h0 /\
   valof h1 c = valof h0 a [*] valof h0 b /\ gradof h1 c = n0) /\
  (exists c' h1', __add__ a b h0 = Ok (c', h1') /\
     c' = length h0 /\ length h1' = S (length h0) /\ take (length h0) h1' = h0 /\
     valof h1' c' = valof h0 a [+] valof h0 b /\ gradof h1' c' = n0) /\
  backward (S fuel) c h =
  (backward fuel a ;;; backward fuel b)
    (bump b (valof h a [*] gradof h c)
       (bump a (valof h b [*] gradof h c) h)).
Proof.
  intros H Hc Hr.
  destruct (op_fresh _ _ _ _ _ (or_intror H))
    as (Ha & Hb & -> & nd & -> & Hg & _ & Hm).
  destruct (Hm H) as [Hv _]. split; [|split].
  - rewrite length_app, take_app_length, gradof_last, valof_last. cbn.
    repeat split; auto; lia.
  - do 2 eexists. split; [apply add_eq; assumption|].
    rewrite length_app, take_app_length, gradof_last, valof_last. cbn.
    repeat split; auto; lia.
  - rewrite (backward_S_mul fuel _ h a b _ Hr) by lia.
    rewrite gradof_bump by lia.
    destruct (decide (length h0 = a)); [lia|reflexivity].
Qed.

Lemma backward_all_graph_of roots : forall h0 h,
  wf h -> graph_of h = graph_of h0 ->
  Forall (fun r => r < length h0) roots ->
  exists h', backward_all roots h = Ok (tt, h') /\ graph_of h' = graph_of h0.
Proof.
  induction roots as [|r rs IH]; intros h0 h Hwf G Hr.
  - exists h. split; [reflexivity|exact G].
  - apply Forall_cons in Hr as [Hr Hrs].
    assert (L := graph_of_length _ _ G).
    destruct (backward_total (length h) r h Hwf) as [h1 H1]; try lia.
    assert (G1 := backward_graph_of _ _ _ _ H1).
    destruct (IH h0 h1) as (h2 & H2 & G2); auto.
    { eapply graph_of_wf; eauto. }
    { congruence. }
    exists h2. split; [|exact G2].
    cbn [backward_all].
    rewrite (bind_Ok (call_backward r) _ h tt h1 H1). exact H2.
Qed.

(** C7: whatever objects [backward] is called on, and however often, every
    call returns and no [val] (and no closure) of the store has changed:
    the passes write gradients only. *)
Theorem backward_keeps_values h roots :
  built h -> Forall (fun r => r < length h) roots ->
  exists h', backward_all roots h = Ok (tt, h') /\
    graph_of h' = graph_of h /\ val <$> h' = val <$> h.
Proof.
  intros Hb%built_wf Hr.
  destruct (backward_all_graph_of roots h h Hb eq_refl Hr) as (h' & H' & G).
  exists h'. split; [exact H'|split; [exact G|]].
  apply (f_equal (fmap fst)) in G. unfold graph_of in G.
  rewrite <- !list_fmap_compose in G. exact G.
Qed.

End StoreFacts.

(** Run the first command of every [bind] whose outcome [H] gives: on
    [Raise] the whole goal is closed. *)
Ltac bind_step H :=
  first [ rewrite !(bind_Ok _ _ _ _ _ H)
        | rewrite !(bind_Raise _ _ _ _ H); reflexivity ].

(** * Facts about the order of events *)

Section EventFacts.
Context {R : Type} {AR : Arith R}.
Implicit Types (h : heap R) (n m r : ref).

Lemma events_ext f : forall h h' r,
  graph_of h' = graph_of h -> events f h' r = events f h r.
Proof.
  induction f as [|f IH]; intros h h' r G; [reflexivity|].
  cbn [events]. rewrite (graph_of_ruleof _ _ _ G).
  destruct (ruleof h r); rewrite ?(IH h h' _ G); reflexivity.
Qed.

Lemma partial_aux_ext f : forall h h' r n,
  graph_of h' = graph_of h -> partial_aux f h' r n = partial_aux f h r n.
Proof.
  induction f as [|f IH]; intros h h' r n G; [reflexivity|].
  cbn [partial_aux]. rewrite (graph_of_ruleof _ _ _ G).
  destruct (ruleof h r); rewrite ?(IH h h' _ _ G), ?(graph_of_valof _ _ _ G);
    reflexivity.
Qed.

Lemma is_leaf_ext h h' m :
  graph_of h' = graph_of h -> is_leaf h' m <-> is_leaf h m.
Proof. intros G. unfold is_leaf. rewrite (graph_of_ruleof _ _ _ G). tauto. Qed.

Lemma fires_once_ext f : forall h h' r,
  graph_of h' = graph_of h -> fires_once f h r -> fires_once f h' r.
Proof.
  induction f as [|f IH]; intros h h' r G H; [exact I|].
  cbn [fires_once] in *. rewrite (graph_of_ruleof _ _ _ G).
  destruct (ruleof h r) as [|a b c|a b c]; [exact I| |];
    destruct H as (Ha & Hb & Hd); (split; [|split]); eauto;
    intros m Hm; rewrite !(events_ext f h h' _ G);
    rewrite (is_leaf_ext _ _ m G) in Hm; eauto.
Qed.

Lemma events_head f h r : 0 < f -> Fire r ∈ events f h r.
Proof. destruct f; [lia|]. intros _. cbn [events]. apply elem_of_cons. auto. Qed.

(** Whatever fires below [r] was created no later than [r]. *)
Lemma events_le f : forall h r m,
  wf h -> r < length h -> Fire m ∈ events f h r -> m <= r.
Proof.
  induction f as [|f IH]; intros h r m Hwf Hr Hm.
  - cbn in Hm. apply elem_of_nil in Hm. contradiction.
  - cbn [events] in Hm. apply elem_of_cons in Hm as [[= ->]|Hm]; [lia|].
    destruct (ruleof h r) as [|a b c|a b c] eqn:Hc.
    + apply elem_of_nil in Hm. contradiction.
    + destruct (wf_operands h r a b c Hwf Hr (or_introl Hc)) as (Ha & Hb & _).
      apply elem_of_cons in Hm as [[=]|Hm].
      apply elem_of_cons in Hm as [[=]|Hm].
      apply elem_of_app in Hm as [Hm|Hm]; apply IH in Hm; (exact Hwf || lia).
    + destruct (wf_operands h r a b c Hwf Hr (or_intror Hc)) as (Ha & Hb & _).
      apply elem_of_cons in Hm as [[=]|Hm].
      apply elem_of_cons in Hm as [[=]|Hm].
      apply elem_of_app in Hm as [Hm|Hm]; apply IH in Hm; (exact Hwf || lia).
Qed.

(** What fires is reachable. *)
Lemma events_reaches f : forall h r m, Fire m ∈ events f h r -> reaches h r m.
Proof.
  induction f as [|f IH]; intros h r m Hm.
  - cbn in Hm. apply elem_of_nil in Hm. contradiction.
  - cbn [events] in Hm. apply elem_of_cons in Hm as [[= ->]|Hm]; [constructor|].
    destruct (ruleof h r) as [|a b c|a b c] eqn:Hc.
    + apply elem_of_nil in Hm. contradiction.
    + apply elem_of_cons in Hm as [[=]|Hm].
      apply elem_of_cons in Hm as [[=]|Hm].
      apply elem_of_app in Hm as [Hm|Hm]; apply IH in Hm;
        (eapply reaches_step; [|exact Hm]); unfold operands; rewrite Hc; cbn;
        repeat constructor.
    + apply elem_of_cons in Hm as [[=]|Hm].
      apply elem_of_cons in Hm as [[=]|Hm].
      apply elem_of_app in Hm as [Hm|Hm]; apply IH in Hm;
        (eapply reaches_step; [|exact Hm]); unfold operands; rewrite Hc; cbn;
        repeat constructor.
Qed.

Lemma ordered_cons_Fire n tl :
  ordered (Fire n :: tl) = true <-> (Contrib n ∉ tl) /\ ordered tl = true.
Proof.
  cbn [ordered]. rewrite andb_true_iff, negb_true_iff, bool_decide_eq_false.
  tauto.
Qed.

Lemma ordered_app l1 l2 :
  ordered (l1 ++ l2) = true ->
  ordered l1 = true /\ ordered l2 = true /\
  forall n, Fire n ∈ l1 -> Contrib n ∉ l2.
Proof.
  induction l1 as [|e l1 IH]; intros H.
  - split; [reflexivity|split; [exact H|]].
    intros n Hn. apply elem_of_nil in Hn. contradiction.
  - destruct e as [k|k].
    + cbn [app ordered] in H |- *. destruct (IH H) as (H1 & H2 & H3).
      split; [exact H1|split; [exact H2|]].
      intros n [[=]|Hn]%elem_of_cons. auto.
    + rewrite <- app_comm_cons in H. apply ordered_cons_Fire in H as [Hk H].
      apply not_elem_of_app in Hk as [Hk1 Hk2].
      destruct (IH H) as (H1 & H2 & H3).
      split; [apply ordered_cons_Fire; auto|split; [exact H2|]].
      intros n [[= ->]|Hn]%elem_of_cons; auto.
Qed.

(** A rule that fires contributes to its first operand and then calls it. *)
Lemma events_operand f : forall h r m a b c,
  wf h -> r < f -> r < length h ->
  Fire m ∈ events f h r ->
  ruleof h m = AddBackward a b c \/ ruleof h m = MulBackward a b c ->
  Fire a ∈ events f h r /\ Contrib a ∈ events f h r.
Proof.
  induction f as [|f IH]; intros h r m a b c Hwf Hf Hr Hm Hc; [lia|].
  cbn [events] in Hm |- *.
  apply elem_of_cons in Hm as [[= ->]|Hm].
  - destruct (wf_operands h r a b c Hwf Hr Hc) as (Ha & Hb & _).
    assert (Fire a ∈ events f h a) by (apply events_head; lia).
    destruct Hc as [-> | ->]; rewrite !elem_of_cons, !elem_of_app; auto 6.
  - destruct (ruleof h r) as [|x y z|x y z] eqn:Hx.
    + apply elem_of_nil in Hm. contradiction.
    + destruct (wf_operands h r x y z Hwf Hr (or_introl Hx)) as (Hx1 & Hy1 & _).
      apply elem_of_cons in Hm as [[=]|Hm].
      apply elem_of_cons in Hm as [[=]|Hm].
      apply elem_of_app in Hm as [Hm|Hm];
        eapply IH in Hm as [? ?]; eauto; try lia;
        rewrite !elem_of_cons, !elem_of_app; auto 6.
    + destruct (wf_operands h r x y z Hwf Hr (or_intror Hx)) as (Hx1 & Hy1 & _).
      apply elem_of_cons in Hm as [[=]|Hm].
      apply elem_of_cons in Hm as [[=]|Hm].
      apply elem_of_app in Hm as [Hm|Hm];
        eapply IH in Hm as [? ?]; eauto; try lia;
        rewrite !elem_of_cons, !elem_of_app; auto 6.
Qed.

Lemma not_leaf_operands h m :
  ~ is_leaf h m ->
  exists a b c, ruleof h m = AddBackward a b c \/ ruleof h m = MulBackward a b c.
Proof.
  unfold is_leaf. destruct (ruleof h m) as [|a b c|a b c]; [congruence| |]; eauto.
Qed.

(** When contributions always precede firing, no operator fires twice. *)
Lemma ordered_fires_once f : forall h r,
  wf h -> r < f -> r < length h ->
  ordered (events f h r) = true -> fires_once f h r.
Proof.
  induction f as [|f IH]; intros h r Hwf Hf Hr Ho; [exact I|].
  cbn [events fires_once] in Ho |- *.
  apply ordered_cons_Fire in Ho as [_ Ho].
  destruct (ruleof h r) as [|a b c|a b c] eqn:Hc; [exact I| |].
  - destruct (wf_operands h r a b c Hwf Hr (or_introl Hc)) as (Ha & Hb & _).
    cbn [ordered] in Ho. apply ordered_app in Ho as (Hoa & Hob & Hab).
    split; [apply IH; auto; lia|split; [apply IH; auto; lia|]].
    intros m Hnl Hma Hmb.
    destruct (not_leaf_operands _ _ Hnl) as (x & y & z & Hm).
    destruct (events_operand f h a m x y z) as [Hx _]; auto; try lia.
    destruct (events_operand f h b m x y z) as [_ Hx']; auto; try lia.
    exact (Hab x Hx Hx').
  - destruct (wf_operands h r a b c Hwf Hr (or_intror Hc)) as (Ha & Hb & _).
    cbn [ordered] in Ho. apply ordered_app in Ho as (Hoa & Hob & Hab).
    split; [apply IH; auto; lia|split; [apply IH; auto; lia|]].
    intros m Hnl Hma Hmb.
    destruct (not_leaf_operands _ _ Hnl) as (x & y & z & Hm).
    destruct (events_operand f h a m x y z) as [Hx _]; auto; try lia.
    destruct (events_operand f h b m x y z) as [_ Hx']; auto; try lia.
    exact (Hab x Hx Hx').
Qed.

(** [events] is the log of [backward]: the instrumented run changes the
    store as [backward] does and appends [events] to the log. *)
Lemma backward_log_events f : forall n log h,
  backward_log f n log h =
  match backward f n h with
  | Ok (_, h') => Ok (log ++ events f h n, h')
  | Raise e => Raise e
  end.
Proof.
  induction f as [|f IH]; intros n log h; [reflexivity|].
  cbn [backward_log backward events].
  destruct (get_backward n h) as [[c h0]|e] eqn:Hc; bind_step Hc.
  pose proof (getattr_inv _ _ _ _ _ Hc) as [-> Hn].
  rewrite (get_backward_eq _ _ Hn) in Hc. injection Hc as <-.
  destruct (ruleof h n) as [|a b c|a b c] eqn:Hr; [reflexivity| |].
  - destruct (get_grad c h) as [[g1 h1]|e] eqn:E1; bind_step E1.
    apply getattr_inv in E1 as [-> _].
    destruct (iadd_grad a g1 h) as [[[] h1]|e] eqn:E2; bind_step E2.
    apply iadd_grad_inv in E2 as [_ ->].
    destruct (get_grad c (bump a g1 h)) as [[g2 h2]|e] eqn:E3; bind_step E3.
    apply getattr_inv in E3 as [-> _].
    destruct (iadd_grad b g2 (bump a g1 h)) as [[[] h2]|e] eqn:E4; bind_step E4.
    apply iadd_grad_inv in E4 as [_ ->].
    set (h2 := bump b g2 (bump a g1 h)).
    assert (G2 : graph_of h2 = graph_of h)
      by (unfold h2; rewrite !graph_of_bump; reflexivity).
    unfold bind. rewrite IH.
    destruct (backward f a h2) as [[[] h3]|e] eqn:E5; [|reflexivity].
    assert (G3 := backward_graph_of _ _ _ _ E5).
    rewrite IH. destruct (backward f b h3) as [[[] h4]|e]; [|reflexivity].
    rewrite (events_ext f h2 h3 _ G3), !(events_ext f h h2 _ G2).
    rewrite <- !app_assoc. reflexivity.
  - destruct (get_val b h) as [[v1 h1]|e] eqn:E0; bind_step E0.
    apply getattr_inv in E0 as [-> _].
    destruct (get_grad c h) as [[g1 h1]|e] eqn:E1; bind_step E1.
    apply getattr_inv in E1 as [-> _].
    destruct (iadd_grad a (v1 [*] g1) h) as [[[] h1]|e] eqn:E2; bind_step E2.
    apply iadd_grad_inv in E2 as [_ ->].
    destruct (get_val a (bump a (v1 [*] g1) h)) as [[v2 h2]|e] eqn:E3';
      bind_step E3'.
    apply getattr_inv in E3' as [-> _].
    destruct (get_grad c (bump a (v1 [*] g1) h)) as [[g2 h2]|e] eqn:E3;
      bind_step E3.
    apply getattr_inv in E3 as [-> _].
    destruct (iadd_grad b (v2 [*] g2) (bump a (v1 [*] g1) h))
      as [[[] h2]|e] eqn:E4; bind_step E4.
    apply iadd_grad_inv in E4 as [_ ->].
    set (h2 := bump b (v2 [*] g2) (bump a (v1 [*] g1) h)).
    assert (G2 : graph_of h2 = graph_of h)
      by (unfold h2; rewrite !graph_of_bump; reflexivity).
    unfold bind. rewrite IH.
    destruct (backward f a h2) as [[[] h3]|e] eqn:E5; [|reflexivity].
    assert (G3 := backward_graph_of _ _ _ _ E5).
    rewrite IH. destruct (backward f b h3) as [[[] h4]|e]; [|reflexivity].
    rewrite (events_ext f h2 h3 _ G3), !(events_ext f h h2 _ G2).
    rewrite <- !app_assoc. reflexivity.
Qed.

(** ** Frame *)

Lemma operands_ext h h' p :
  graph_of h' = graph_of h -> operands h' p = operands h p.
Proof. intros G. unfold operands. rewrite (graph_of_ruleof _ _ _ G). reflexivity. Qed.

Lemma reaches_ext h h' r n :
  graph_of h' = graph_of h -> reaches h r n -> reaches h' r n.
Proof.
  intros G H. induction H as [|r m n Hm _ IH]; [constructor|].
  eapply reaches_step; [|exact IH]. rewrite (operands_ext _ _ _ G). exact Hm.
Qed.

(** A backward call leaves alone the gradient of whatever is not an operand
    of something that fires. *)
Lemma backward_frame f : forall r h h' n,
  wf h -> r < length h -> r < f ->
  backward f r h = Ok (tt, h') ->
  (forall p, Fire p ∈ events f h r -> n ∉ operands h p) ->
  gradof h' n = gradof h n.
Proof.
  induction f as [|f IH]; intros r h h' n Hwf Hr Hf H Hn; [lia|].
  assert (Hnr := Hn r (events_head (S f) h r ltac:(lia))).
  cbn [events] in Hn. unfold operands in Hnr.
  destruct (ruleof h r) as [|a b c|a b c] eqn:Hc.
  - cbn [backward] in H.
    rewrite (bind_Ok _ _ _ _ _ (get_backward_eq _ _ Hr)), Hc in H.
    injection H as <-. reflexivity.
  - destruct (wf_operands h r a b c Hwf Hr (or_introl Hc)) as (Ha & Hb & ->).
    rewrite (backward_S_add f r h a b r Hc) in H by lia.
    apply bind_inv in H as ([] & h3 & H3 & H4).
    set (h2 := bump b _ _) in H3.
    assert (G2 : graph_of h2 = graph_of h) by (unfold h2; rewrite !graph_of_bump; reflexivity).
    assert (G3 : graph_of h3 = graph_of h).
    { rewrite (backward_graph_of _ _ _ _ H3). exact G2. }
    assert (L2 := graph_of_length _ _ G2). assert (L3 := graph_of_length _ _ G3).
    rewrite (IH b h3 h' n); [rewrite (IH a h2 h3 n)|..]; auto; try lia.
    + cbn in Hnr. apply not_elem_of_cons in Hnr as [Hna Hnr].
      apply not_elem_of_cons in Hnr as [Hnb _].
      unfold h2. rewrite !gradof_bump by (rewrite ?length_bump; lia).
      repeat case_decide; congruence.
    + eapply graph_of_wf; eauto.
    + intros p Hp. rewrite (events_ext f h h2 _ G2) in Hp.
      rewrite (operands_ext _ _ _ G2). apply Hn.
      rewrite !elem_of_cons, elem_of_app. auto.
    + eapply graph_of_wf; eauto.
    + intros p Hp. rewrite (events_ext f h h3 _ G3) in Hp.
      rewrite (operands_ext _ _ _ G3). apply Hn.
      rewrite !elem_of_cons, elem_of_app. auto.
  - destruct (wf_operands h r a b c Hwf Hr (or_intror Hc)) as (Ha & Hb & ->).
    rewrite (backward_S_mul f r h a b r Hc) in H by lia.
    apply bind_inv in H as ([] & h3 & H3 & H4).
    set (h2 := bump b _ _) in H3.
    assert (G2 : graph_of h2 = graph_of h) by (unfold h2; rewrite !graph_of_bump; reflexivity).
    assert (G3 : graph_of h3 = graph_of h).
    { rewrite (backward_graph_of _ _ _ _ H3). exact G2. }
    assert (L2 := graph_of_length _ _ G2). assert (L3 := graph_of_length _ _ G3).
    rewrite (IH b h3 h' n); [rewrite (IH a h2 h3 n)|..]; auto; try lia.
    + cbn in Hnr. apply not_elem_of_cons in Hnr as [Hna Hnr].
      apply not_elem_of_cons in Hnr as [Hnb _].
      unfold h2. rewrite !gradof_bump by (rewrite ?length_bump; lia).
      repeat case_decide; congruence.
    + eapply graph_of_wf; eauto.
    + intros p Hp. rewrite (events_ext f h h2 _ G2) in Hp.
      rewrite (operands_ext _ _ _ G2). apply Hn.
      rewrite !elem_of_cons, elem_of_app. auto.
    + eapply graph_of_wf; eauto.
    + intros p Hp. rewrite (events_ext f h h3 _ G3) in Hp.
      rewrite (operands_ext _ _ _ G3). apply Hn.
      rewrite !elem_of_cons, elem_of_app. auto.
Qed.

(** A call does not change the gradient of the object it is made on. *)
Lemma backward_frame_root f r h h' :
  wf h -> r < length h -> r < f ->
  backward f r h = Ok (tt, h') -> gradof h' r = gradof h r.
Proof.
  intros Hwf Hr Hf H. eapply backward_frame; eauto.
  intros p Hp Hin. assert (Hle : p <= r) by (eapply events_le; eauto).
  assert (Hc := Hwf p ltac:(lia)). unfold operands in Hin.
  destruct (ruleof h p) as [|a b c|a b c]; cbn in Hin, Hc.
  - apply elem_of_nil in Hin. contradiction.
  - elem_cases; lia.
  - elem_cases; lia.
Qed.

(** ** Stored values *)

Lemma val_ok_ext h h' i : graph_of h' = graph_of h -> val_ok h i -> val_ok h' i.
Proof.
  intros G. unfold val_ok.
  rewrite (graph_of_ruleof _ _ _ G), !(graph_of_valof _ _ _ G).
  destruct (ruleof h i); rewrite ?(graph_of_valof _ _ _ G); auto.
Qed.

Lemma consistent_snoc h nd :
  wf h -> consistent h ->
  match backward_rule nd with
  | LambdaNone => True
  | AddBackward a b _ => a < length h /\ b < length h /\
                         val nd = valof h a [+] valof h b
  | MulBackward a b _ => a < length h /\ b < length h /\
                         val nd = valof h a [*] valof h b
  end ->
  consistent (h ++ [nd]).
Proof.
  intros Hwf Hc Hnd i. unfold val_ok.
  destruct (lt_eq_lt_dec i (length h)) as [[Hi| ->]|Hi].
  - specialize (Hc i). specialize (Hwf i Hi). unfold val_ok in Hc.
    rewrite ruleof_app_l by exact Hi.
    destruct (ruleof h i) as [|a b c|a b c]; [exact I| |];
      destruct Hwf as (Ha & Hb & _);
      rewrite !valof_app_l by lia; exact Hc.
  - rewrite ruleof_last, valof_last.
    destruct (backward_rule nd) as [|a b c|a b c]; [exact I| |];
      destruct Hnd as (Ha & Hb & Hv); rewrite !valof_app_l by lia; exact Hv.
  - unfold ruleof. rewrite lookup_ge_None_2; [exact I|].
    rewrite length_app. cbn. lia.
Qed.

(** As long as no caller writes [val], every stored value is the sum or the
    product of the operands' values. *)
Lemma built_consistent h : built h -> consistent h.
Proof.
  induction 1 as [|h v i h' Hb IH H|h a b i h' Hb IH H|h a b i h' Hb IH H
                  |h n g h' Hb IH H|h n h' Hb IH H].
  - intros i. unfold val_ok, ruleof. rewrite lookup_nil. exact I.
  - rewrite Scalar_eq in H. injection H as _ <-.
    apply consistent_snoc; [apply built_wf, Hb|exact IH|exact I].
  - destruct (add_inv _ _ _ _ _ H) as [Ha Hb'].
    rewrite add_eq in H by assumption. injection H as _ <-.
    apply consistent_snoc; [apply built_wf, Hb|exact IH|]. cbn. auto.
  - destruct (mul_inv _ _ _ _ _ H) as [Ha Hb'].
    rewrite mul_eq in H by assumption. injection H as _ <-.
    apply consistent_snoc; [apply built_wf, Hb|exact IH|]. cbn. auto.
  - intros i. eapply val_ok_ext; [eapply setattr_grad_graph_of, H|apply IH].
  - intros i. eapply val_ok_ext; [eapply backward_graph_of, H|apply IH].
Qed.

(** ** Tree shapes *)

Lemma reaches_trans h a b c : reaches h a b -> reaches h b c -> reaches h a c.
Proof.
  induction 1 as [|r m n Hm _ IH]; [auto|].
  intros Hc. eapply reaches_step; eauto.
Qed.

Lemma operand_at_operands h p i n : operand_at h p i n -> n ∈ operands h p.
Proof.
  unfold operand_at, operands.
  destruct (ruleof h p) as [|a b c|a b c]; [contradiction| |];
    destruct i; intros <-; cbn; repeat constructor.
Qed.

Lemma operand_at_not_leaf h p i n : operand_at h p i n -> ~ is_leaf h p.
Proof.
  unfold operand_at, is_leaf. destruct (ruleof h p); [contradiction| |]; congruence.
Qed.

Lemma operand_at_lt h p i n :
  wf h -> p < length h -> operand_at h p i n -> n < p.
Proof.
  intros Hwf Hp H. specialize (Hwf p Hp). unfold operand_at in H.
  destruct (ruleof h p) as [|a b c|a b c]; [contradiction| |];
    destruct Hwf as (? & ? & _); destruct i; subst; assumption.
Qed.

Lemma operand_at_both h p n :
  operand_at h p true n -> operand_at h p false n -> operands h p = [n; n].
Proof.
  unfold operand_at, operands.
  destruct (ruleof h p) as [|a b c|a b c]; [contradiction| |];
    intros -> ->; reflexivity.
Qed.

(** Whatever fires below [r], other than [r] itself, is an operand of
    something that fires below [r]. *)
Lemma events_parent f : forall h r m,
  Fire m ∈ events f h r ->
  m = r \/ exists p i, Fire p ∈ events f h r /\ operand_at h p i m.
Proof.
  induction f as [|f IH]; intros h r m Hm.
  - cbn in Hm. apply elem_of_nil in Hm. contradiction.
  - assert (Hr : Fire r ∈ events (S f) h r) by (apply events_head; lia).
    cbn [events] in Hm |- *. apply elem_of_cons in Hm as [[= ->]|Hm]; [auto|].
    right. destruct (ruleof h r) as [|a b c|a b c] eqn:Hc.
    + apply elem_of_nil in Hm. contradiction.
    + apply elem_of_cons in Hm as [[=]|Hm].
      apply elem_of_cons in Hm as [[=]|Hm].
      apply elem_of_app in Hm as [Hm|Hm]; apply IH in Hm as [->|(p & i & Hp & Hi)].
      * exists r, true. split; [apply elem_of_cons; auto|].
        unfold operand_at. rewrite Hc. reflexivity.
      * exists p, i. split; [|exact Hi].
        rewrite !elem_of_cons, elem_of_app. auto.
      * exists r, false. split; [apply elem_of_cons; auto|].
        unfold operand_at. rewrite Hc. reflexivity.
      * exists p, i. split; [|exact Hi].
        rewrite !elem_of_cons, elem_of_app. auto.
    + apply elem_of_cons in Hm as [[=]|Hm].
      apply elem_of_cons in Hm as [[=]|Hm].
      apply elem_of_app in Hm as [Hm|Hm]; apply IH in Hm as [->|(p & i & Hp & Hi)].
      * exists r, true. split; [apply elem_of_cons; auto|].
        unfold operand_at. rewrite Hc. reflexivity.
      * exists p, i. split; [|exact Hi].
        rewrite !elem_of_cons, elem_of_app. auto.
      * exists r, false. split; [apply elem_of_cons; auto|].
        unfold operand_at. rewrite Hc. reflexivity.
      * exists p, i. split; [|exact Hi].
        rewrite !elem_of_cons, elem_of_app. auto.
Qed.

Lemma reaches_le h r m : wf h -> r < length h -> reaches h r m -> m <= r.
Proof.
  intros Hwf Hr H. induction H as [n|r m n Hm _ IH]; [lia|].
  unfold operands in Hm. specialize (Hwf r Hr).
  destruct (ruleof h r) as [|a b c|a b c]; cbn in Hm.
  - apply elem_of_nil in Hm. contradiction.
  - destruct Hwf as (? & ? & _).
    apply elem_of_cons in Hm as [->|Hm]; [lia|].
    apply list_elem_of_singleton in Hm as ->. lia.
  - destruct Hwf as (? & ? & _).
    apply elem_of_cons in Hm as [->|Hm]; [lia|].
    apply list_elem_of_singleton in Hm as ->. lia.
Qed.

Section Slots.
Variables (h : heap R) (root : ref).
Hypothesis Hwf : wf h.
Hypothesis Hroot : root < length h.
(** Every operator result below [root] sits in one operand slot only. *)
Hypothesis Hslot : forall m p i p' i',
  ~ is_leaf h m -> reaches h root m -> m <> root ->
  reaches h root p -> reaches h root p' ->
  operand_at h p i m -> operand_at h p' i' m -> p = p' /\ i = i'.

Lemma reaches_root_le r : reaches h root r -> r <= root /\ r < length h.
Proof using Hwf Hroot.
  intros H. apply reaches_le in H; auto. lia.
Qed.

Lemma slots_disjoint f k : forall r a b m,
  reaches h root r ->
  operand_at h r true a -> operand_at h r false b ->
  r - m <= k -> ~ is_leaf h m ->
  Fire m ∈ events f h a -> Fire m ∈ events f h b -> False.
Proof using Hwf Hroot Hslot.
  induction k as [|k IH]; intros r a b m Hr Ha Hb Hk Hnl Hma Hmb.
  - destruct (reaches_root_le r Hr) as [_ Hrl].
    assert (a < r) by (eapply operand_at_lt; eauto).
    assert (a < length h) by lia.
    apply events_le in Hma; auto. lia.
  - destruct (reaches_root_le r Hr) as [Hrr Hrl].
    assert (Hra : reaches h root a).
    { eapply reaches_trans; [exact Hr|].
      eapply reaches_step; [eapply operand_at_operands, Ha|constructor]. }
    assert (Hrb : reaches h root b).
    { eapply reaches_trans; [exact Hr|].
      eapply reaches_step; [eapply operand_at_operands, Hb|constructor]. }
    assert (Hal : a < r) by (eapply operand_at_lt; eauto).
    assert (Hbl : b < r) by (eapply operand_at_lt; eauto).
    assert (Hm_a : m <= a) by (eapply events_le; eauto; lia).
    assert (Hm_root : reaches h root m).
    { eapply reaches_trans; [exact Hra|]. eapply events_reaches, Hma. }
    assert (Hne : m <> root) by lia.
    destruct (events_parent _ _ _ _ Hma) as [->|(p & i & Hp & Hi)];
      destruct (events_parent _ _ _ _ Hmb) as [Hb'|(p' & i' & Hp' & Hi')].
    + subst b.
      destruct (Hslot a r true r false Hnl Hm_root Hne Hr Hr Ha Hb) as [_ [=]].
    + assert (p' <= b) by (eapply events_le; eauto; lia).
      assert (Hrp' : reaches h root p').
      { eapply reaches_trans; [exact Hrb|]. eapply events_reaches, Hp'. }
      destruct (Hslot a r true p' i' Hnl Hm_root Hne Hr Hrp' Ha Hi') as [? _].
      lia.
    + subst b.
      assert (p <= a) by (eapply events_le; eauto; lia).
      assert (Hrp : reaches h root p).
      { eapply reaches_trans; [exact Hra|]. eapply events_reaches, Hp. }
      destruct (Hslot m p i r false Hnl Hm_root Hne Hrp Hr Hi Hb) as [? _].
      lia.
    + assert (Hpa : p <= a) by (eapply events_le; eauto; lia).
      assert (Hrp : reaches h root p).
      { eapply reaches_trans; [exact Hra|]. eapply events_reaches, Hp. }
      assert (Hrp' : reaches h root p').
      { eapply reaches_trans; [exact Hrb|]. eapply events_reaches, Hp'. }
      destruct (Hslot m p i p' i' Hnl Hm_root Hne Hrp Hrp' Hi Hi') as [<- _].
      assert (m < p) by (eapply operand_at_lt; eauto; lia).
      eapply (IH r a b p); eauto; [lia|].
      eapply operand_at_not_leaf, Hi.
Qed.

Lemma slots_fires_once f : forall r, reaches h root r -> fires_once f h r.
Proof using Hwf Hroot Hslot.
  induction f as [|f IH]; intros r Hr; [exact I|].
  cbn [fires_once]. destruct (ruleof h r) as [|a b c|a b c] eqn:Hc; [exact I| |].
  - assert (Ha : operand_at h r true a) by (unfold operand_at; rewrite Hc; reflexivity).
    assert (Hb : operand_at h r false b) by (unfold operand_at; rewrite Hc; reflexivity).
    split; [|split].
    + apply IH. eapply reaches_trans; [exact Hr|].
      eapply reaches_step; [eapply operand_at_operands, Ha|constructor].
    + apply IH. eapply reaches_trans; [exact Hr|].
      eapply reaches_step; [eapply operand_at_operands, Hb|constructor].
    + intros m Hnl Hma Hmb.
      eapply (slots_disjoint f (r - m) r a b m); eauto.
  - assert (Ha : operand_at h r true a) by (unfold operand_at; rewrite Hc; reflexivity).
    assert (Hb : operand_at h r false b) by (unfold operand_at; rewrite Hc; reflexivity).
    split; [|split].
    + apply IH. eapply reaches_trans; [exact Hr|].
      eapply reaches_step; [eapply operand_at_operands, Ha|constructor].
    + apply IH. eapply reaches_trans; [exact Hr|].
      eapply reaches_step; [eapply operand_at_operands, Hb|constructor].
    + intros m Hnl Hma Hmb.
      eapply (slots_disjoint f (r - m) r a b m); eauto.
Qed.

End Slots.

(** In a tree-shaped graph where only leaves are doubled, every operator
    result sits in one operand slot. *)
Lemma tree_shaped_slots h root :
  tree_shaped h root -> doubles_only_leaves h root ->
  forall m p i p' i',
    ~ is_leaf h m -> reaches h root m -> m <> root ->
    reaches h root p -> reaches h root p' ->
    operand_at h p i m -> operand_at h p' i' m -> p = p' /\ i = i'.
Proof.
  intros Ht Hd m p i p' i' Hnl Hm Hne Hp Hp' Hi Hi'.
  destruct (Ht m Hm Hne) as (q & _ & Hq).
  assert (p = q) by (apply Hq; [exact Hp|eapply operand_at_operands, Hi]).
  assert (p' = q) by (apply Hq; [exact Hp'|eapply operand_at_operands, Hi']).
  subst p p'. split; [reflexivity|].
  destruct i, i'; try reflexivity; exfalso; apply Hnl; apply (Hd q m Hp);
    apply operand_at_both; assumption.
Qed.

End EventFacts.

(** * The chain rule, as the pass evaluates it *)

Section ChainRule.
Context {R : Type} {AR : Arith R}.
Implicit Types (h : heap R) (n m r a b : ref) (G : ref -> R).

(** The rule of an operand of a fired rule fires too. *)
Lemma events_operands_fire f : forall h r p n,
  wf h -> r < f -> r < length h ->
  Fire p ∈ events f h r -> n ∈ operands h p -> Fire n ∈ events f h r.
Proof.
  induction f as [|f IH]; intros h r p n Hwf Hf Hr Hp Hn; [lia|].
  cbn [events] in Hp |- *.
  apply elem_of_cons in Hp as [[= ->]|Hp].
  - unfold operands in Hn.
    destruct (ruleof h r) as [|a b c|a b c] eqn:Hc; cbn in Hn; cbv iota.
    + apply elem_of_nil in Hn. contradiction.
    + destruct (wf_operands h r a b c Hwf Hr (or_introl Hc)) as (Ha & Hb & _).
      rewrite !elem_of_cons, elem_of_app. right. right. right.
      apply elem_of_cons in Hn as [->|Hn]; [left; apply events_head; lia|].
      apply list_elem_of_singleton in Hn as ->. right. apply events_head. lia.
    + destruct (wf_operands h r a b c Hwf Hr (or_intror Hc)) as (Ha & Hb & _).
      rewrite !elem_of_cons, elem_of_app. right. right. right.
      apply elem_of_cons in Hn as [->|Hn]; [left; apply events_head; lia|].
      apply list_elem_of_singleton in Hn as ->. right. apply events_head. lia.
  - destruct (ruleof h r) as [|a b c|a b c] eqn:Hc; cbv iota in Hp |- *.
    + apply elem_of_nil in Hp. contradiction.
    + destruct (wf_operands h r a b c Hwf Hr (or_introl Hc)) as (Ha & Hb & _).
      rewrite !elem_of_cons, elem_of_app in Hp.
      rewrite !elem_of_cons, elem_of_app.
      destruct Hp as [[=]|[[=]|[Hp|Hp]]]; right; right; right;
        [left|right]; eapply IH; eauto; lia.
    + destruct (wf_operands h r a b c Hwf Hr (or_intror Hc)) as (Ha & Hb & _).
      rewrite !elem_of_cons, elem_of_app in Hp.
      rewrite !elem_of_cons, elem_of_app.
      destruct Hp as [[=]|[[=]|[Hp|Hp]]]; right; right; right;
        [left|right]; eapply IH; eauto; lia.
Qed.

(** A backward call changes no gradient of an object created after the
    one it is called on. *)
Lemma backward_frame_above f r h h' m :
  wf h -> r < length h -> r < f -> r < m ->
  backward f r h = Ok (tt, h') -> gradof h' m = gradof h m.
Proof.
  intros Hwf Hr Hf Hm H.
  apply (backward_frame f r h h' m Hwf Hr Hf H).
  intros p Hp Hin. assert (Hle : p <= r) by (eapply events_le; eauto).
  assert (Hc := Hwf p ltac:(lia)). unfold operands in Hin.
  destruct (ruleof h p) as [|a b c|a b c]; cbn in Hin, Hc.
  - apply elem_of_nil in Hin. contradiction.
  - destruct Hc as (? & ? & _).
    apply elem_of_cons in Hin as [->|Hin]; [lia|].
    apply list_elem_of_singleton in Hin as ->. lia.
  - destruct Hc as (? & ? & _).
    apply elem_of_cons in Hin as [->|Hin]; [lia|].
    apply list_elem_of_singleton in Hin as ->. lia.
Qed.

Lemma inflow_ext f : forall h h' G r n,
  graph_of h' = graph_of h -> inflow f h' G r n = inflow f h G r n.
Proof.
  induction f as [|f IH]; intros h h' G r n E; [reflexivity|].
  cbn [inflow]. rewrite (graph_of_ruleof _ _ _ E).
  destruct (ruleof h r) as [|a b c|a b c];
    rewrite ?(IH h h' G _ _ E), ?(graph_of_valof _ _ _ E); reflexivity.
Qed.

Lemma operands_lt h p n :
  wf h -> p < length h -> n ∈ operands h p -> n < p.
Proof.
  intros Hwf Hp Hin. specialize (Hwf p Hp). unfold operands in Hin.
  destruct (ruleof h p) as [|a b c|a b c]; cbn in Hin, Hwf.
  - apply elem_of_nil in Hin. contradiction.
  - destruct Hwf as (? & ? & _).
    apply elem_of_cons in Hin as [->|Hin]; [lia|].
    apply list_elem_of_singleton in Hin as ->. lia.
  - destruct Hwf as (? & ? & _).
    apply elem_of_cons in Hin as [->|Hin]; [lia|].
    apply list_elem_of_singleton in Hin as ->. lia.
Qed.

(** [inflow] for [n] reads [G] at the consumers of [n] that fire only. *)
Lemma inflow_agree_consumers f : forall h G G' r n,
  (forall p, n ∈ operands h p -> Fire p ∈ events f h r -> G p = G' p) ->
  inflow f h G r n = inflow f h G' r n.
Proof.
  induction f as [|f IH]; intros h G G' r n E; [reflexivity|].
  cbn [inflow].
  assert (Er : n ∈ operands h r -> G r = G' r).
  { intros Hin. apply E; [exact Hin|]. cbn [events]. apply elem_of_cons. auto. }
  assert (Ea : forall x, x ∈ operands h r ->
            inflow f h G x n = inflow f h G' x n).
  { intros x Hx. apply IH. intros p Hin Hp. apply E; [exact Hin|].
    cbn [events]. unfold operands in Hx.
    destruct (ruleof h r) as [|a b c|a b c]; cbn in Hx;
      [apply elem_of_nil in Hx; contradiction| |];
      rewrite !elem_of_cons, elem_of_app;
      apply elem_of_cons in Hx as [->|Hx]; auto;
      apply list_elem_of_singleton in Hx as ->; auto. }
  unfold operands in Er, Ea.
  destruct (ruleof h r) as [|a b c|a b c]; cbn in Er, Ea; [reflexivity| |].
  - rewrite (Ea a), (Ea b) by (rewrite !elem_of_cons; auto).
    destruct (decide (a = n)) as [->|], (decide (b = n)) as [->|];
      rewrite ?Er by (rewrite !elem_of_cons; auto); reflexivity.
  - rewrite (Ea a), (Ea b) by (rewrite !elem_of_cons; auto).
    destruct (decide (a = n)) as [->|], (decide (b = n)) as [->|];
      rewrite ?Er by (rewrite !elem_of_cons; auto); reflexivity.
Qed.

Lemma inflow_agree f h G G' r n :
  (forall m, ~ is_leaf h m -> Fire m ∈ events f h r -> G m = G' m) ->
  inflow f h G r n = inflow f h G' r n.
Proof.
  intros E. apply inflow_agree_consumers. intros p Hin Hp.
  apply E; [|exact Hp]. unfold is_leaf. intros Hl.
  unfold operands in Hin. rewrite Hl in Hin.
  apply elem_of_nil in Hin. contradiction.
Qed.

(** The two contributions and the two nested calls of a rule, when the
    operands reach disjoint sets of operator results. [da] and [db] are
    the lists of what the rule adds to [n] through its first and its
    second operand. *)
Lemma backward_inflow_step f h r a b ca cb :
  (forall h r, wf h -> r < f -> r < length h -> fires_once f h r ->
     exists h', backward f r h = Ok (tt, h') /\ graph_of h' = graph_of h /\
       forall n, gradof h' n = accumulate (gradof h n) (inflow f h (gradof h') r n)) ->
  wf h -> a < r -> b < r -> r < length h -> r <= f ->
  fires_once f h a -> fires_once f h b ->
  (forall m, ~ is_leaf h m ->
     Fire m ∈ events f h a -> Fire m ∈ events f h b -> False) ->
  exists h4,
    (backward f a ;;; backward f b) (bump b cb (bump a ca h)) = Ok (tt, h4) /\
    graph_of h4 = graph_of h /\ gradof h4 r = gradof h r /\
    forall n, gradof h4 n =
      accumulate (gradof h n)
        ((if decide (a = n) then [ca] else []) ++
         (if decide (b = n) then [cb] else []) ++
         inflow f h (gradof h4) a n ++ inflow f h (gradof h4) b n).
Proof.
  intros IH Hwf Ha Hb Hr Hf Foa Fob Hdisj.
  set (h1 := bump a ca h). set (h2 := bump b cb h1).
  assert (L1 : length h1 = length h) by apply length_bump.
  assert (G1 : graph_of h1 = graph_of h) by apply graph_of_bump.
  assert (G2 : graph_of h2 = graph_of h).
  { unfold h2. rewrite graph_of_bump. exact G1. }
  assert (L2 := graph_of_length _ _ G2).
  assert (W2 : wf h2) by (eapply graph_of_wf; eauto).
  destruct (IH h2 a W2 ltac:(lia) ltac:(lia) (fires_once_ext f h h2 a G2 Foa))
    as (h3 & R3 & G3 & E3).
  assert (G3' : graph_of h3 = graph_of h) by congruence.
  assert (L3 := graph_of_length _ _ G3').
  assert (W3 : wf h3) by (eapply graph_of_wf; eauto).
  destruct (IH h3 b W3 ltac:(lia) ltac:(lia) (fires_once_ext f h h3 b G3' Fob))
    as (h4 & R4 & G4 & E4).
  assert (G4' : graph_of h4 = graph_of h) by congruence.
  exists h4. split; [|split; [exact G4'|split]].
  - rewrite (bind_Ok _ _ _ _ _ R3). exact R4.
  - rewrite (backward_frame_above f b h3 h4 r W3) by (auto; lia).
    rewrite (backward_frame_above f a h2 h3 r W2) by (auto; lia).
    unfold h2, h1. rewrite !gradof_bump by (rewrite ?length_bump; lia).
    repeat case_decide; try lia. reflexivity.
  - intros n.
    assert (Fa : forall m, ~ is_leaf h m -> Fire m ∈ events f h a ->
              gradof h3 m = gradof h4 m).
    { intros m Hl Hm. symmetry.
      apply (backward_frame f b h3 h4 m W3 ltac:(lia) ltac:(lia) R4).
      intros p Hp Hin. rewrite (events_ext f h h3 b G3') in Hp.
      rewrite (operands_ext _ _ _ G3') in Hin.
      apply (Hdisj m Hl Hm).
      eapply (events_operands_fire f h b p m); eauto; lia. }
    rewrite E4, E3. unfold accumulate. rewrite !fold_left_app.
    rewrite (inflow_ext f h h3 _ b n G3').
    rewrite (inflow_ext f h h2 _ a n G2).
    rewrite (inflow_agree f h (gradof h3) (gradof h4) a n Fa).
    f_equal. f_equal.
    unfold h2, h1. rewrite !gradof_bump by (rewrite ?length_bump; lia).
    destruct (decide (a = n)) as [->|Han], (decide (b = n)) as [->|Hbn];
      repeat case_decide; try congruence; reflexivity.
Qed.

(** When no rule of an operator fires twice, every gradient ends as what
    it started from plus, in call order, what each operand slot it fills
    hands to it: the gradient its consumer ends with, times the local
    derivative. No law of arithmetic is used: this holds in binary64. *)
Lemma backward_inflow f : forall h r,
  wf h -> r < f -> r < length h -> fires_once f h r ->
  exists h', backward f r h = Ok (tt, h') /\ graph_of h' = graph_of h /\
    forall n, gradof h' n = accumulate (gradof h n) (inflow f h (gradof h') r n).
Proof.
  induction f as [|f IH]; intros h r Hwf Hf Hr Hfo; [lia|].
  destruct (ruleof h r) as [|a b c|a b c] eqn:Hc.
  - exists h. split; [|split; [reflexivity|]].
    + cbn [backward].
      rewrite (bind_Ok _ _ _ _ _ (get_backward_eq _ _ Hr)), Hc. reflexivity.
    + intros n. cbn [inflow]. rewrite Hc. reflexivity.
  - destruct (wf_operands h r a b c Hwf Hr (or_introl Hc)) as (Ha & Hb & ->).
    rewrite (backward_S_add f r h a b r Hc) by lia.
    rewrite gradof_bump by lia. destruct (decide (r = a)) as [|_]; [lia|].
    cbn [fires_once] in Hfo. rewrite Hc in Hfo.
    destruct Hfo as (Foa & Fob & Hdisj).
    destruct (backward_inflow_step f h r a b (gradof h r) (gradof h r) IH Hwf)
      as (h4 & R4 & G4 & Er & E4); auto; try lia.
    exists h4. split; [exact R4|split; [exact G4|]].
    intros n. rewrite E4. cbn [inflow]. rewrite Hc, Er. reflexivity.
  - destruct (wf_operands h r a b c Hwf Hr (or_intror Hc)) as (Ha & Hb & ->).
    rewrite (backward_S_mul f r h a b r Hc) by lia.
    rewrite gradof_bump by lia. destruct (decide (r = a)) as [|_]; [lia|].
    cbn [fires_once] in Hfo. rewrite Hc in Hfo.
    destruct Hfo as (Foa & Fob & Hdisj).
    destruct (backward_inflow_step f h r a b
                (valof h b [*] gradof h r) (valof h a [*] gradof h r) IH Hwf)
      as (h4 & R4 & G4 & Er & E4); auto; try lia.
    exists h4. split; [exact R4|split; [exact G4|]].
    intros n. rewrite E4. cbn [inflow]. rewrite Hc, Er. reflexivity.
Qed.

(** With the root seeded and the rest of its graph zeroed, a pass in
    which no operator's rule fires twice leaves the chain rule's value
    in every object of the graph. *)
Lemma backward_adjoint h root :
  wf h -> root < length h ->
  gradof h root = n1 ->
  (forall n, reaches h root n -> n <> root -> gradof h n = n0) ->
  fires_once (length h) h root ->
  exists h', call_backward root h = Ok (tt, h') /\
    forall n, reaches h root n -> gradof h' n = adjoint h root n.
Proof.
  intros Hwf Hr Hseed Hzero Hfo.
  destruct (backward_inflow (length h) h root Hwf Hr Hr Hfo) as (h' & Hrun & G & E).
  exists h'. split; [exact Hrun|].
  assert (Hroot : gradof h' root = n1).
  { rewrite (backward_frame_root _ _ _ _ Hwf Hr Hr Hrun). exact Hseed. }
  assert (K : forall k n, reaches h root n -> root <= n + k ->
            adjoints k h root n = gradof h' n).
  { induction k as [|k IH]; intros n Hn Hk.
    - assert (n <= root) by (eapply reaches_le; eauto).
      assert (n = root) as -> by lia.
      cbn [adjoints]. rewrite decide_True by reflexivity. symmetry. exact Hroot.
    - assert (n <= root) by (eapply reaches_le; eauto).
      cbn [adjoints]. destruct (decide (n + S k = root)) as [Heq|Hne].
      + rewrite E, (Hzero n Hn) by lia. f_equal.
        apply inflow_agree_consumers. intros p Hin Hp.
        assert (Hrp : reaches h root p) by (eapply events_reaches; eauto).
        assert (p <= root) by (eapply reaches_le; eauto).
        assert (n < p) by (eapply operands_lt; eauto; lia).
        apply IH; [exact Hrp|lia].
      + apply IH; [exact Hn|lia]. }
  intros n Hn. unfold adjoint. symmetry. apply K; [exact Hn|lia].
Qed.

(** C1, amended: on a graph built with [Scalar], [__add__] and [__mul__],
    when every reachable gradient other than the root's is zero and the
    root's is 1, and when during the pass no object receives a
    contribution after its own [backward] has been called,
    [root.backward()] returns and leaves in every reachable object the
    derivative of the root with respect to it as the chain rule gives it
    from the root down, its sums and products being those of the code's
    numbers, taken in the order of the calls. *)
Theorem backward_chain_rule_when_ordered h root :
  built h -> root < length h ->
  gradof h root = n1 ->
  (forall n, reaches h root n -> n <> root -> gradof h n = n0) ->
  ordered (trace h root) = true ->
  exists h', call_backward root h = Ok (tt, h') /\
    forall n, reaches h root n -> gradof h' n = adjoint h root n.
Proof.
  intros Hb Hr Hseed Hzero Hord. apply built_wf in Hb.
  apply backward_adjoint; auto.
  apply ordered_fires_once; auto.
Qed.

(** When every operator result in the graph of the root is used once,
    however the leaves are shared and whenever their contributions
    arrive, zeroing the gradients, seeding the root with 1 and calling
    [root.backward()] returns and leaves in every object of the graph the
    derivative of the root with respect to it as the chain rule gives it
    from the root down, in the arithmetic and the order of the code. *)
Theorem backward_chain_rule_single_use h root :
  built h -> root < length h ->
  gradof h root = n1 ->
  (forall n, reaches h root n -> n <> root -> gradof h n = n0) ->
  single_use h root ->
  exists h', call_backward root h = Ok (tt, h') /\
    forall n, reaches h root n -> gradof h' n = adjoint h root n.
Proof.
  intros Hb Hr Hseed Hzero Hs. apply built_wf in Hb.
  apply backward_adjoint; auto.
  apply (slots_fires_once h root Hb Hr); [exact Hs|constructor].
Qed.

(** Gradients are added to, never overwritten: when every operator
    result of the graph is used once, whatever the gradients are before
    the call, [root.backward()] returns, changes no value and no closure,
    and leaves in every object the gradient it had plus, in call order,
    what each operand slot it fills hands to it: the gradient its consumer
    ends with, times 1 below a sum and times the other operand's value
    below a product. *)
Theorem backward_accumulates h root :
  built h -> root < length h -> single_use h root ->
  exists h', call_backward root h = Ok (tt, h') /\
    graph_of h' = graph_of h /\
    forall n, gradof h' n =
      accumulate (gradof h n) (inflow (length h) h (gradof h') root n).
Proof.
  intros Hb Hr Hs. apply built_wf in Hb.
  apply backward_inflow; auto.
  apply (slots_fires_once h root Hb Hr); [exact Hs|constructor].
Qed.

(** ** Calling [backward] twice *)





End ChainRule.

(** * Stores of exact integers *)

Lemma doubled_product_built :
  built (Notebook.store_of (Notebook.doubled_product_graph 3%Z 5%Z)).
Proof.
  pose proof (@built_empty Z Z_Arith) as B.
  eapply (built_Scalar _ 3%Z) in B; [|reflexivity].
  eapply (built_Scalar _ 5%Z) in B; [|reflexivity].
  eapply (built_mul _ 0 1) in B; [|reflexivity].
  eapply (built_add _ 2 2) in B; [|reflexivity].
  eapply (built_set_grad _ 3 1%Z) in B; [|reflexivity].
  exact B.
Qed.

Lemma doubled_leaf_built :
  built (Notebook.store_of (Notebook.doubled_leaf_graph 3%Z 5%Z)).
Proof.
  pose proof (@built_empty Z Z_Arith) as B.
  eapply (built_Scalar _ 3%Z) in B; [|reflexivity].
  eapply (built_add _ 0 0) in B; [|reflexivity].
  eapply (built_Scalar _ 5%Z) in B; [|reflexivity].
  eapply (built_mul _ 1 2) in B; [|reflexivity].
  eapply (built_set_grad _ 3 1%Z) in B; [|reflexivity].
  exact B.
Qed.

(** * Growing stores *)

Section Growth.
Context {R : Type} {AR : Arith R}.
Implicit Types (h : heap R) (n a b : ref).

Lemma extends_refl h : extends h h.
Proof. exists []. symmetry. apply app_nil_r. Qed.

Lemma extends_trans h1 h2 h3 : extends h1 h2 -> extends h2 h3 -> extends h1 h3.
Proof. intros [t ->] [u ->]. exists (t ++ u). symmetry. apply app_assoc. Qed.

Lemma extends_length h h' : extends h h' -> length h <= length h'.
Proof. intros [t ->]. rewrite length_app. lia. Qed.

Lemma extends_valof h h' n : extends h h' -> n < length h -> valof h' n = valof h n.
Proof. intros [t ->] Hn. apply valof_app_l, Hn. Qed.

Lemma Scalar_grows h v :
  exists c h', Scalar v h = Ok (c, h') /\ extends h h' /\ c < length h' /\
    valof h' c = v.
Proof.
  do 2 eexists. split; [apply Scalar_eq|]. split; [eexists; reflexivity|].
  rewrite length_app, valof_last. cbn. split; [lia|reflexivity].
Qed.

Lemma add_grows h a b :
  a < length h -> b < length h ->
  exists c h', __add__ a b h = Ok (c, h') /\ extends h h' /\ c < length h' /\
    valof h' c = valof h a [+] valof h b.
Proof.
  intros Ha Hb. do 2 eexists. split; [apply add_eq; assumption|].
  split; [eexists; reflexivity|].
  rewrite length_app, valof_last. cbn. split; [lia|reflexivity].
Qed.

Lemma mul_grows h a b :
  a < length h -> b < length h ->
  exists c h', __mul__ a b h = Ok (c, h') /\ extends h h' /\ c < length h' /\
    valof h' c = valof h a [*] valof h b.
Proof.
  intros Ha Hb. do 2 eexists. split; [apply mul_eq; assumption|].
  split; [eexists; reflexivity|].
  rewrite length_app, valof_last. cbn. split; [lia|reflexivity].
Qed.

End Growth.

(** * Binary64 subtraction as the notebook writes it *)

Lemma Prim2SF_neg1 :
  Prim2SF (-1)%float = S754_finite true 4503599627370496 (-52).
Proof. vm_compute. reflexivity. Qed.

Lemma digits2_pos_shift (m : positive) :
  Zpos (digits2_pos (Pos.mul 4503599627370496 m))
  = (Zpos (digits2_pos m) + 52)%Z.
Proof. cbv [Pos.mul]. cbn [digits2_pos]. rewrite !Pos2Z.inj_succ. lia. Qed.

Lemma shr_fexp_shifted m e :
  fexp prec emax (Z.pos (digits2_pos m) + e) = e ->
  shr_fexp prec emax (Z.pos (4503599627370496 * m)) (-52 + e) loc_Exact =
  ({| shr_m := Z.pos m; shr_r := false; shr_s := false |}, e).
Proof.
  intros Hc. unfold shr_fexp, Zdigits2. rewrite digits2_pos_shift.
  replace (Z.pos (digits2_pos m) + 52 + (-52 + e))%Z
    with (Z.pos (digits2_pos m) + e)%Z by lia.
  rewrite Hc. replace (e - (-52 + e))%Z with 52%Z by lia.
  unfold shr. f_equal. lia.
Qed.

Lemma shr_fexp_canonical m e :
  fexp prec emax (Z.pos (digits2_pos m) + e) = e ->
  shr_fexp prec emax (Z.pos m) e loc_Exact =
  ({| shr_m := Z.pos m; shr_r := false; shr_s := false |}, e).
Proof.
  intros Hc. unfold shr_fexp, Zdigits2. rewrite Hc, Z.sub_diag. reflexivity.
Qed.

(** Multiplying by -1.0 is exact: it flips the sign. *)
Lemma SFmul_neg1 (x : spec_float) :
  valid_binary x = true ->
  SF64mul (S754_finite true 4503599627370496 (-52)) x = SFopp x.
Proof.
  destruct x as [s|s| |s m e]; intros Hv; try reflexivity.
  cbn [SpecFloat.valid_binary] in Hv. unfold bounded, canonical_mantissa in Hv.
  apply andb_prop in Hv as [Hc Hb]. apply Z.eqb_eq in Hc.
  unfold SF64mul, SFmul, binary_round_aux.
  rewrite (shr_fexp_shifted m e Hc).
  cbn [shr_m loc_of_shr_record round_nearest_even].
  rewrite (shr_fexp_canonical m e Hc). cbn [shr_m]. rewrite Hb. reflexivity.
Qed.

Lemma SFadd_opp x y : SF64add x (SFopp y) = SF64sub x y.
Proof.
  destruct x as [sx|sx| |sx mx ex], y as [sy|sy| |sy my ey]; try reflexivity;
    destruct sx, sy; reflexivity.
Qed.

(** [y + (-1.0) * p] is [y - p], for all floats. *)
Lemma add_neg1_mul (y p : float) : (y + (-1) * p = y - p)%float.
Proof.
  apply Prim2SF_inj.
  rewrite add_spec, mul_spec, sub_spec, Prim2SF_neg1.
  rewrite SFmul_neg1 by apply Prim2SF_valid. apply SFadd_opp.
Qed.

(** * The helpers *)

Section HelperFacts.
Implicit Types (h : heap float) (l rs : list ref).

Lemma getitem_eq l i x h : l !! i = Some x -> getitem l i h = Ok (x, h).
Proof. unfold getitem. intros ->. reflexivity. Qed.

(** A list comprehension whose body allocates a result of known value. *)
Lemma mapM_grows {A} (f : A -> M float ref) (g : A -> float) (h0 : heap float) :
  forall (l : list A),
  (forall a h1, a ∈ l -> extends h0 h1 ->
     exists r h2, f a h1 = Ok (r, h2) /\ extends h1 h2 /\ r < length h2 /\
       valof h2 r = g a) ->
  forall h1, extends h0 h1 ->
  exists rs h2, mapM f l h1 = Ok (rs, h2) /\ extends h1 h2 /\
    Forall (fun r => r < length h2) rs /\ valof h2 <$> rs = g <$> l.
Proof.
  induction l as [|a l IH]; intros Hf h1 H01.
  - exists [], h1. repeat split; [apply extends_refl|constructor].
  - destruct (Hf a h1) as (r & h2 & Hr & H12 & Hrl & Hv);
      [apply elem_of_cons; auto|exact H01|].
    destruct (IH (fun x hx Hx => Hf x hx (proj2 (elem_of_cons _ _ _) (or_intror Hx)))
                h2 (extends_trans _ _ _ H01 H12))
      as (rs & h3 & Hrs & H23 & Hall & Hvs).
    exists (r :: rs), h3. split; [|split; [|split]].
    + cbn [mapM]. rewrite (bind_Ok _ _ _ _ _ Hr), (bind_Ok _ _ _ _ _ Hrs).
      reflexivity.
    + eapply extends_trans; eauto.
    + constructor; [|exact Hall]. apply extends_length in H23. lia.
    + cbn [fmap list_fmap]. fold (valof h3 <$> rs) (g <$> l).
      rewrite Hvs, (extends_valof _ _ _ H23 Hrl), Hv. reflexivity.
Qed.

Lemma py_sum_grows l : forall acc h,
  Forall (fun r => r < length h) l -> acc < length h ->
  exists r h', py_sum l acc h = Ok (r, h') /\ extends h h' /\ r < length h' /\
    valof h' r = fold_left PrimFloat.add (valof h <$> l) (valof h acc).
Proof.
  induction l as [|x l IH]; intros acc h Hl Hacc.
  - exists acc, h. repeat split; [apply extends_refl|exact Hacc].
  - apply Forall_cons in Hl as [Hx Hl].
    destruct (add_grows h acc x Hacc Hx) as (c & h1 & Hc & H1 & Hcl & Hv).
    assert (Hlen := extends_length _ _ H1).
    destruct (IH c h1) as (r & h2 & Hr & H2 & Hrl & Hv2); [|exact Hcl|].
    { eapply Forall_impl; [exact Hl|]. cbn. intros. lia. }
    exists r, h2. split; [|split; [|split]].
    + cbn [py_sum]. rewrite (bind_Ok _ _ _ _ _ Hc). exact Hr.
    + eapply extends_trans; eauto.
    + exact Hrl.
    + rewrite Hv2, Hv. cbn [fmap list_fmap fold_left]. f_equal.
      apply Forall_fmap_ext_1. eapply Forall_impl; [exact Hl|].
      cbn. intros y Hy. apply (extends_valof _ _ _ H1 Hy).
Qed.

Lemma nth_fmap_valof h l i x :
  l !! i = Some x -> nth i (valof h <$> l) 0%float = valof h x.
Proof.
  intros Hx. apply nth_lookup_Some. rewrite list_lookup_fmap, Hx. reflexivity.
Qed.

(** The body of the first comprehension of [mse]. *)
Lemma mse_error_grows h0 ys ps i h1 :
  length ys = length ps ->
  Forall (fun r => r < length h0) ys -> Forall (fun r => r < length h0) ps ->
  i ∈ range (length ys) -> extends h0 h1 ->
  exists r h2,
    (yi <- getitem ys i ;;
     m <- Scalar (-1)%float ;;
     pi <- getitem ps i ;;
     t <- __mul__ m pi ;;
     __add__ yi t) h1 = Ok (r, h2) /\
    extends h1 h2 /\ r < length h2 /\
    valof h2 r =
      (nth i (valof h0 <$> ys) 0 - nth i (valof h0 <$> ps) 0)%float.
Proof.
  intros Hlen Hys Hps Hi H01. apply elem_of_seq in Hi.
  destruct (lookup_lt_is_Some_2 ys i ltac:(lia)) as [yi Hyi].
  destruct (lookup_lt_is_Some_2 ps i ltac:(lia)) as [pi Hpi].
  assert (Hy0 := Forall_lookup_1 _ _ _ _ Hys Hyi).
  assert (Hp0 := Forall_lookup_1 _ _ _ _ Hps Hpi). cbn in Hy0, Hp0.
  assert (L1 := extends_length _ _ H01).
  destruct (Scalar_grows h1 (-1)%float) as (m & ha & Hm & H1a & Hml & Hmv).
  assert (La := extends_length _ _ H1a).
  destruct (mul_grows ha m pi Hml ltac:(lia)) as (t & hb & Ht & Hab & Htl & Htv).
  assert (Lb := extends_length _ _ Hab).
  destruct (add_grows hb yi t ltac:(lia) Htl) as (e & hc & He & Hbc & Hel & Hev).
  exists e, hc. split; [|split; [|split]].
  - rewrite (bind_Ok _ _ _ _ _ (getitem_eq _ _ _ _ Hyi)).
    rewrite (bind_Ok _ _ _ _ _ Hm).
    rewrite (bind_Ok _ _ _ _ _ (getitem_eq _ _ _ _ Hpi)).
    rewrite (bind_Ok _ _ _ _ _ Ht). exact He.
  - eauto using extends_trans.
  - exact Hel.
  - rewrite Hev, Htv, Hmv.
    rewrite (nth_fmap_valof _ _ _ _ Hyi), (nth_fmap_valof _ _ _ _ Hpi).
    rewrite (extends_valof h0 hb yi) by (eauto using extends_trans).
    rewrite (extends_valof h0 ha pi) by (eauto using extends_trans).
    apply add_neg1_mul.
Qed.

(** The body of the second comprehension of [mse]. *)
Lemma mse_square_grows h0 errors i h1 :
  Forall (fun r => r < length h0) errors ->
  i ∈ range (length errors) -> extends h0 h1 ->
  exists r h2,
    (e1 <- getitem errors i ;; e2 <- getitem errors i ;; __mul__ e1 e2) h1
      = Ok (r, h2) /\
    extends h1 h2 /\ r < length h2 /\
    valof h2 r =
      (nth i (valof h0 <$> errors) 0 * nth i (valof h0 <$> errors) 0)%float.
Proof.
  intros Hes Hi H01. apply elem_of_seq in Hi.
  destruct (lookup_lt_is_Some_2 errors i ltac:(lia)) as [e He].
  assert (He0 := Forall_lookup_1 _ _ _ _ Hes He). cbn in He0.
  assert (L1 := extends_length _ _ H01).
  destruct (mul_grows h1 e e ltac:(lia) ltac:(lia)) as (r & h2 & Hr & H12 & Hrl & Hrv).
  exists r, h2. split; [|split; [|split]]; auto.
  - rewrite !(bind_Ok _ _ _ _ _ (getitem_eq _ _ _ _ He)). exact Hr.
  - rewrite Hrv, (nth_fmap_valof _ _ _ _ He), (extends_valof h0 h1 e) by auto.
    reflexivity.
Qed.

(** C10: [mse([], [])] raises [ZeroDivisionError]; on non-empty lists of
    equal length whose elements are objects of the store, [mse] returns an
    object whose value is the binary64 evaluation of
    [(1/n) * sum_i (y_i - p_i)^2]. *)
Theorem mse_empty_raises_and_value h ys ps :
  ys <> [] -> length ys = length ps ->
  Forall (fun r => r < length h) ys -> Forall (fun r => r < length h) ps ->
  mse [] [] h = Raise ZeroDivisionError /\
  exists r h',
    mse ys ps h = Ok (r, h') /\
    valof h' r = mse_value (valof h <$> ys) (valof h <$> ps).
Proof.
  intros Hne Hlen Hys Hps. split; [reflexivity|].
  set (vys := valof h <$> ys). set (vps := valof h <$> ps).
  set (n := length ys).
  (* the errors *)
  destruct (mapM_grows _ (fun i => (nth i vys 0 - nth i vps 0)%float) h
              (range n)
              (fun i h1 Hi H1 => mse_error_grows h ys ps i h1 Hlen Hys Hps Hi H1)
              h (extends_refl h))
    as (errors & he & Herr & Hhe & Herrl & Herrv).
  assert (Len : length errors = n).
  { apply (f_equal length) in Herrv. rewrite !length_fmap in Herrv.
    rewrite Herrv. apply length_seq. }
  (* the squares *)
  destruct (mapM_grows _
              (fun i => (nth i (valof he <$> errors) 0
                         * nth i (valof he <$> errors) 0)%float) he
              (range (length errors))
              (fun i h1 Hi H1 => mse_square_grows he errors i h1 Herrl Hi H1)
              he (extends_refl he))
    as (se & hs & Hse & Hhs & Hsel & Hsev).
  (* the factor, the start of the sum, the sum and the product *)
  destruct (Scalar_grows hs (1 / float_of_nat n)%float)
    as (c & hc & Hc & Hsc & Hcl & Hcv).
  destruct (Scalar_grows hc 0%float) as (z & hz & Hz & Hcz & Hzl & Hzv).
  assert (Lc := extends_length _ _ Hsc). assert (Lz := extends_length _ _ Hcz).
  destruct (py_sum_grows se z hz) as (t & ht & Ht & Hzt & Htl & Htv); [|exact Hzl|].
  { eapply Forall_impl; [exact Hsel|]. cbn. intros. lia. }
  assert (Lt := extends_length _ _ Hzt).
  destruct (mul_grows ht c t ltac:(lia) Htl) as (r & hr & Hr & Htr & Hrl & Hrv).
  exists r, hr. split.
  - unfold mse. fold n. rewrite (bind_Ok _ _ _ _ _ Herr).
    rewrite (bind_Ok _ _ _ _ _ Hse). rewrite Len.
    assert (Htd : truediv 1%float n hs = Ok ((1 / float_of_nat n)%float, hs)).
    { unfold n. destruct ys; [congruence|reflexivity]. }
    rewrite (bind_Ok _ _ _ _ _ Htd), (bind_Ok _ _ _ _ _ Hc).
    rewrite (bind_Ok _ _ _ _ _ Hz), (bind_Ok _ _ _ _ _ Ht). exact Hr.
  - rewrite Hrv, Htv, Hzv.
    rewrite (extends_valof hc ht c) by (eauto using extends_trans).
    assert (Lv : length vys = n) by apply length_fmap.
    rewrite Hcv. unfold mse_value. rewrite Lv.
    cbn [nadd nmul float_Arith]. do 2 f_equal.
    transitivity (valof hs <$> se).
    { apply Forall_fmap_ext_1. eapply Forall_impl; [exact Hsel|].
      cbn. intros x Hx. apply extends_valof; [eauto using extends_trans|exact Hx]. }
    rewrite Hsev, Len, Herrv. apply Forall_fmap_ext_1, Forall_forall.
    intros i Hi. cbn beta.
    assert (Hnth : nth i ((fun i => (nth i vys 0 - nth i vps 0)%float) <$> range n)
                     0%float = (nth i vys 0 - nth i vps 0)%float).
    { apply nth_lookup_Some. rewrite list_lookup_fmap.
      apply elem_of_seq in Hi. unfold range.
      rewrite lookup_seq_lt by lia. reflexivity. }
    rewrite Hnth. reflexivity.
Qed.

End HelperFacts.

(** * The notebook's numbers: binary64 floats *)

(** C6: for all floats [p] and [q], on any store, [Scalar(p) + Scalar(q)]
    returns an object whose value is the binary64 sum [p + q] and
    [Scalar(p) * Scalar(q)] one whose value is the binary64 product
    [p * q]; each result is a new object, different from its operands, with
    gradient 0, and the objects that existed before are untouched. *)
Theorem add_mul_values (p q : float) (h : heap float) :
  (exists a b c h', Notebook.add_of p q h = Ok ((a, b, c), h') /\
     valof h' c = (p + q)%float /\ gradof h' c = 0%float /\
     length h <= c /\ c <> a /\ c <> b /\ take (length h) h' = h) /\
  (exists a b c h', Notebook.mul_of p q h = Ok ((a, b, c), h') /\
     valof h' c = (p * q)%float /\ gradof h' c = 0%float /\
     length h <= c /\ c <> a /\ c <> b /\ take (length h) h' = h).
Proof.
  set (h1 := h ++ [mkNode p n0 LambdaNone]).
  set (h2 := h1 ++ [mkNode q n0 LambdaNone]).
  assert (L1 : length h1 = S (length h)).
  { unfold h1. rewrite length_app. cbn. lia. }
  assert (L2 : length h2 = S (S (length h))).
  { unfold h2. rewrite length_app, L1. cbn. lia. }
  assert (Va : valof h2 (length h) = p).
  { unfold h2. rewrite valof_app_l by lia. unfold h1. apply valof_last. }
  assert (Vb : valof h2 (length h1) = q).
  { unfold h2. apply valof_last. }
  assert (T : forall nd, take (length h) (h2 ++ [nd]) = h).
  { intros nd. unfold h2, h1. rewrite <- !app_assoc. apply take_app_length. }
  split.
  - exists (length h), (length h1), (length h2). eexists. split.
    + unfold Notebook.add_of.
      rewrite (bind_Ok _ _ _ _ _ (Scalar_eq h p)).
      rewrite (bind_Ok _ _ _ _ _ (Scalar_eq h1 q)).
      fold h1 h2.
      rewrite (bind_Ok _ _ _ _ _ (add_eq h2 (length h) (length h1) ltac:(lia) ltac:(lia))).
      reflexivity.
    + rewrite valof_last, gradof_last, T, Va, Vb. cbn. repeat split; lia.
  - exists (length h), (length h1), (length h2). eexists. split.
    + unfold Notebook.mul_of.
      rewrite (bind_Ok _ _ _ _ _ (Scalar_eq h p)).
      rewrite (bind_Ok _ _ _ _ _ (Scalar_eq h1 q)).
      fold h1 h2.
      rewrite (bind_Ok _ _ _ _ _ (mul_eq h2 (length h) (length h1) ltac:(lia) ltac:(lia))).
      reflexivity.
    + rewrite valof_last, gradof_last, T, Va, Vb. cbn. repeat split; lia.
Qed.

(** C3 as stated fails: after [a.val = 10.] the pass adds the new value of
    [a] times [c.grad] to [b.grad], 10.0, not the value 2.0 that [a] had
    when [c = a * b] was built. *)
Lemma mul_backward_counterexample :
  exists after captured,
    Notebook.returns Notebook.stale_operand = Ok (after, captured) /\
    after = 10%float /\ captured = 2%float /\ after <> captured.
Proof.
  exists 10%float, 2%float. repeat split.
  intros H. apply (f_equal Prim2SF) in H. vm_compute in H. discriminate.
Qed.

Lemma mul_backward_reads_current_values_witness :
  let h0 := [mkNode 2%float 0%float LambdaNone; mkNode 3%float 0%float LambdaNone] in
  let h1 := h0 ++ [mkNode 6%float 0%float (MulBackward 0 1 2)] in
  let h := [mkNode 10%float 0%float LambdaNone; mkNode 3%float 0%float LambdaNone;
            mkNode 6%float 1%float (MulBackward 0 1 2)] in
  (2 = length h0 /\ length h1 = S (length h0) /\ take (length h0) h1 = h0 /\
   valof h1 2 = valof h0 0 [*] valof h0 1 /\ gradof h1 2 = n0) /\
  (exists c' h1', __add__ 0 1 h0 = Ok (c', h1') /\
     c' = length h0 /\ length h1' = S (length h0) /\ take (length h0) h1' = h0 /\
     valof h1' c' = valof h0 0 [+] valof h0 1 /\ gradof h1' c' = n0) /\
  backward 3 2 h =
  (backward 2 0 ;;; backward 2 1)
    (bump 1 (valof h 0 [*] gradof h 2) (bump 0 (valof h 1 [*] gradof h 2) h)).
Proof.
  intros h0 h1 h.
  apply (mul_backward_reads_current_values h0 0 1 2 h1 h 2).
  - vm_compute. reflexivity.
  - cbn. lia.
  - reflexivity.
Defined.

Lemma backward_keeps_values_witness :
  let h := Notebook.store_of (Notebook.doubled_leaf_graph 3%Z 5%Z) in
  exists h', backward_all [3; 1; 3] h = Ok (tt, h') /\
    graph_of h' = graph_of h /\ val <$> h' = val <$> h.
Proof.
  intros h. apply (backward_keeps_values h [3; 1; 3]).
  - exact doubled_leaf_built.
  - repeat constructor.
Defined.

(** C2 fails on the code: with [u = x + x], [a = u + x], [y = a + u]
    (so that [x] feeds [u] and [a], which meet again in [y]),
    dy/dx = 5 while the pass leaves [x.grad == 9.0]: the rule of [u] fires
    once for each of its two consumers, the second time on a gradient that
    already holds the first contribution. *)
Theorem reconvergent_gradient :
  let h := Notebook.store_of (Notebook.reconvergent_graph 3%float) in
  gradof h 0 = 0%float /\ gradof h 3 = 1%float /\
  exists h', call_backward 3 h = Ok (tt, h') /\
    gradof h' 0 = 9%float /\ partial h 3 0 = 5%float.
Proof.
  intros h. split; [reflexivity|]. split; [reflexivity|].
  eexists. split; [vm_compute; reflexivity|].
  split; vm_compute; reflexivity.
Qed.

(** The same double firing in the notebook's own loss: [mse] squares each
    error with [error[i] * error[i]], an operator result passed as both
    operands, and the gradient that reaches [w] is four times the
    derivative of the loss. *)
Lemma mse_gradient_quadrupled :
  Notebook.returns Notebook.one_sample_step = Ok ((-40)%float, (-10)%float).
Proof. vm_compute. reflexivity. Qed.


Lemma mse_empty_raises_and_value_witness :
  let h := [mkNode 1%float 0%float LambdaNone; mkNode 2%float 0%float LambdaNone;
            mkNode 4%float 0%float LambdaNone; mkNode 0.5%float 0%float LambdaNone] in
  mse [] [] h = Raise ZeroDivisionError /\
  exists r h',
    mse [0; 1] [2; 3] h = Ok (r, h') /\
    valof h' r = mse_value (valof h <$> [0; 1]) (valof h <$> [2; 3]).
Proof.
  intros h. apply (mse_empty_raises_and_value h [0; 1] [2; 3]).
  - discriminate.
  - reflexivity.
  - repeat constructor.
  - repeat constructor.
Defined.

(** C4: with [x = Scalar(4.)], [y = ((x * x) * x) + x + x], [x.grad]
  zeroed and [y.grad] seeded with 1, [y.backward()] leaves
  [x.grad == 50.0]; under the same protocol [y = (x * x) * x] leaves
  [x.grad == 48.0]. *)
Theorem cubic_plus_2x_gradient :
Notebook.returns Notebook.cubic_plus_2x = Ok 50%float /\
Notebook.returns Notebook.cubic = Ok 48%float.
Proof. split; vm_compute; reflexivity. Qed.

(** C5: with [x = Scalar(5.)] and [y = x + x] (one object as both
  operands), [x.grad] zeroed and [y.grad] seeded with 1, [y.backward()]
  leaves [x.grad == 2.0]. *)
Theorem add_fanout_gradient :
Notebook.returns Notebook.double = Ok 2%float.
Proof. vm_compute; reflexivity. Qed.

(** ** The notebook's graphs, over any numbers *)

Lemma cubic_plus_2x_graph_built {R} {AR : Arith R} (x0 : R) :
  built (Notebook.store_of (Notebook.cubic_plus_2x_graph x0)).
Proof.
  pose proof (@built_empty R AR) as B.
  eapply (built_Scalar _ x0) in B; [|reflexivity].
  eapply (built_mul _ 0 0) in B; [|reflexivity].
  eapply (built_mul _ 1 0) in B; [|reflexivity].
  eapply (built_add _ 2 0) in B; [|reflexivity].
  eapply (built_add _ 3 0) in B; [|reflexivity].
  eapply (built_set_grad _ 0 n0) in B; [|reflexivity].
  eapply (built_set_grad _ 4 n1) in B; [|reflexivity].
  exact B.
Qed.

Lemma doubled_product_graph_built {R} {AR : Arith R} (x0 z0 : R) :
  built (Notebook.store_of (Notebook.doubled_product_graph x0 z0)).
Proof.
  pose proof (@built_empty R AR) as B.
  eapply (built_Scalar _ x0) in B; [|reflexivity].
  eapply (built_Scalar _ z0) in B; [|reflexivity].
  eapply (built_mul _ 0 1) in B; [|reflexivity].
  eapply (built_add _ 2 2) in B; [|reflexivity].
  eapply (built_set_grad _ 3 n1) in B; [|reflexivity].
  exact B.
Qed.

Lemma doubled_leaf_graph_built {R} {AR : Arith R} (x0 c0 : R) :
  built (Notebook.store_of (Notebook.doubled_leaf_graph x0 c0)).
Proof.
  pose proof (@built_empty R AR) as B.
  eapply (built_Scalar _ x0) in B; [|reflexivity].
  eapply (built_add _ 0 0) in B; [|reflexivity].
  eapply (built_Scalar _ c0) in B; [|reflexivity].
  eapply (built_mul _ 1 2) in B; [|reflexivity].
  eapply (built_set_grad _ 3 n1) in B; [|reflexivity].
  exact B.
Qed.

Lemma shared_leaf_graph_built {R} {AR : Arith R} (x0 : R) :
  built (Notebook.store_of (Notebook.shared_leaf_graph x0)).
Proof.
  pose proof (@built_empty R AR) as B.
  eapply (built_Scalar _ x0) in B; [|reflexivity].
  eapply (built_mul _ 0 0) in B; [|reflexivity].
  eapply (built_add _ 0 1) in B; [|reflexivity].
  eapply (built_set_grad _ 2 n1) in B; [|reflexivity].
  exact B.
Qed.

(** ** Derivatives in binary64 *)



(** C1 as stated fails in the arithmetic of the code: on the notebook's
    own [y = x * x * x + x + x] at [x = 0.1] the protocol is followed, no
    object receives a contribution after its [backward] was called, and
    the pass leaves [x.grad == 2.0299999999999994], while the sum and
    product rules give [3 * x * x + 2] as [2.0300000000000002]: the pass
    adds the same terms in another order, and binary64 addition is not
    associative. *)
Lemma backward_gradients_counterexample :
  let h := Notebook.store_of
             (Notebook.cubic_plus_2x_graph 0x1.999999999999ap-4%float) in
  built h /\ gradof h 4 = 1%float /\
  (forall n, reaches h 4 n -> n <> 4 -> gradof h n = 0%float) /\
  ordered (trace h 4) = true /\ reaches h 4 0 /\
  exists h', call_backward 4 h = Ok (tt, h') /\
    gradof h' 0 = 0x1.03d70a3d70a3cp+1%float /\
    partial h 4 0 = 0x1.03d70a3d70a3ep+1%float /\
    gradof h' 0 <> partial h 4 0.
Proof.
  intros h. split; [apply cubic_plus_2x_graph_built|].
  split; [reflexivity|]. split; [|split; [vm_compute; reflexivity|split]].
  - intros n _ Hn.
    do 5 (destruct n as [|n]; [try reflexivity; exfalso; apply Hn; reflexivity|]).
    reflexivity.
  - eapply reaches_step; [|constructor]. vm_compute. repeat constructor.
  - eexists. split; [vm_compute; reflexivity|].
    split; [vm_compute; reflexivity|]. split; [vm_compute; reflexivity|].
    intros H. apply (f_equal Prim2SF) in H. vm_compute in H. discriminate.
Qed.

(** C9 fails on the code: [t = x * z; y = t + t] with [x = 3.], [z = 5.]
    is tree-shaped (every object but [y] is an operand of exactly one
    application, [t] as both of its operands) and the protocol is
    followed, yet the pass leaves [x.grad == 20.0] while dy/dx = 2 * z =
    10: the rule of [t] fires once for each operand slot it fills, the
    second time on a gradient that already holds both contributions. *)
Theorem doubled_product_gradient :
  let h := Notebook.store_of (Notebook.doubled_product_graph 3%float 5%float) in
  built h /\ tree_shaped h 3 /\
  gradof h 3 = 1%float /\
  (forall n, reaches h 3 n -> n <> 3 -> gradof h n = 0%float) /\
  exists h', call_backward 3 h = Ok (tt, h') /\
    reaches h 3 0 /\ gradof h' 0 = 20%float /\ partial h 3 0 = 10%float.
Proof.
  intros h.
  pose proof (doubled_product_graph_built 3%float 5%float) as Hb. fold h in Hb.
  assert (R32 : reaches h 3 2).
  { eapply reaches_step; [|constructor]. vm_compute. repeat constructor. }
  assert (R30 : reaches h 3 0).
  { eapply reaches_trans; [exact R32|].
    eapply reaches_step; [|constructor]. vm_compute. repeat constructor. }
  split; [exact Hb|]. split; [|split; [reflexivity|split]].
  - intros n Hn Hne.
    assert (Hle : n <= 3).
    { eapply (reaches_le h); [apply built_wf, Hb|vm_compute; lia|exact Hn]. }
    assert (Hu : forall p k, reaches h 3 p -> k ∈ operands h p ->
              (p = 2 /\ (k = 0 \/ k = 1)) \/ (p = 3 /\ k = 2)).
    { intros p k Hp Hk.
      assert (p <= 3).
      { eapply (reaches_le h); [apply built_wf, Hb|vm_compute; lia|exact Hp]. }
      destruct p as [|[|[|[|p]]]]; try lia; vm_compute in Hk;
        elem_cases; lia. }
    destruct n as [|[|[|[|n]]]]; try lia.
    + exists 2. split; [split; [exact R32|vm_compute; repeat constructor]|].
      intros p' Hp' Hk. destruct (Hu p' 0 Hp' Hk); lia.
    + exists 2. split; [split; [exact R32|vm_compute; repeat constructor]|].
      intros p' Hp' Hk. destruct (Hu p' 1 Hp' Hk); lia.
    + exists 3. split; [split; [constructor|vm_compute; repeat constructor]|].
      intros p' Hp' Hk. destruct (Hu p' 2 Hp' Hk); lia.
  - intros n _ Hn.
    do 4 (destruct n as [|n]; [try reflexivity; exfalso; apply Hn; reflexivity|]).
    reflexivity.
  - eexists. split; [vm_compute; reflexivity|].
    split; [exact R30|]. split; vm_compute; reflexivity.
Qed.


(** * More about the engine *)

Section EngineMore.
Context {R : Type} {AR : Arith R}.
Implicit Types (h : heap R) (n m r a b : ref).

(** A backward call returns, keeps the gradient of the object it is called
    on, and changes the gradient of no object that is not an operand of
    something in the graph of that object. *)
Theorem backward_only_touches_operands h r :
  wf h -> r < length h ->
  exists h', call_backward r h = Ok (tt, h') /\
    gradof h' r = gradof h r /\
    forall n, (forall p, reaches h r p -> n ∉ operands h p) ->
      gradof h' n = gradof h n.
Proof.
  intros Hwf Hr.
  destruct (backward_total (length h) r h Hwf Hr Hr) as [h' H'].
  exists h'. split; [exact H'|split].
  - eapply backward_frame_root; eauto.
  - intros n Hn. eapply backward_frame; eauto.
    intros p Hp. apply Hn. eapply events_reaches, Hp.
Qed.

(** In every store the class builds, an operator result carries a closure
    that names itself as [result] and two older objects as operands, and
    its value is the sum or the product of the values its operands have. *)
Theorem built_graph_invariant h i :
  built h -> i < length h -> closure_ok i (ruleof h i) /\ val_ok h i.
Proof.
  intros Hb Hi. split; [apply built_wf; assumption|apply built_consistent, Hb].
Qed.

Lemma depth_ext f : forall h h' r,
  graph_of h' = graph_of h -> depth f h' r = depth f h r.
Proof.
  induction f as [|f IH]; intros h h' r G; [reflexivity|].
  cbn [depth]. rewrite (graph_of_ruleof _ _ _ G).
  destruct (ruleof h r); rewrite ?(IH h h' _ G); reflexivity.
Qed.

Lemma backward_depth_aux F : forall fuel r h,
  wf h -> r < F -> r < length h ->
  (depth F h r <= fuel -> exists h', backward fuel r h = Ok (tt, h')) /\
  (fuel < depth F h r -> backward fuel r h = Raise RecursionError).
Proof.
  induction F as [|F IH]; intros fuel r h Hwf HF Hr; [lia|].
  cbn [depth]. destruct fuel as [|f].
  { split; [|reflexivity]. destruct (ruleof h r); lia. }
  destruct (ruleof h r) as [|a b c|a b c] eqn:Hc.
  - split; [|lia]. intros _. exists h. cbn [backward].
    rewrite (bind_Ok _ _ _ _ _ (get_backward_eq _ _ Hr)), Hc. reflexivity.
  - destruct (wf_operands h r a b c Hwf Hr (or_introl Hc)) as (Ha & Hb & ->).
    rewrite (backward_S_add f r h a b r Hc) by lia.
    set (h2 := bump b _ _).
    assert (G2 : graph_of h2 = graph_of h)
      by (unfold h2; rewrite !graph_of_bump; reflexivity).
    assert (L2 := graph_of_length _ _ G2).
    assert (W2 : wf h2) by (eapply graph_of_wf; eauto).
    destruct (IH f a h2 W2 ltac:(lia) ltac:(lia)) as [Aok Aerr].
    rewrite (depth_ext F h h2 a G2) in Aok, Aerr.
    split.
    + intros Hd. destruct Aok as [h3 H3]; [lia|].
      assert (G3 : graph_of h3 = graph_of h).
      { rewrite (backward_graph_of _ _ _ _ H3). exact G2. }
      assert (L3 := graph_of_length _ _ G3).
      destruct (IH f b h3 ltac:(eapply graph_of_wf; eauto) ltac:(lia) ltac:(lia))
        as [Bok _].
      rewrite (depth_ext F h h3 b G3) in Bok.
      destruct Bok as [h4 H4]; [lia|].
      exists h4. rewrite (bind_Ok _ _ _ _ _ H3). exact H4.
    + intros Hd.
      destruct (le_lt_dec (depth F h a) f) as [Hle|Hlt].
      * destruct Aok as [h3 H3]; [lia|].
        assert (G3 : graph_of h3 = graph_of h).
        { rewrite (backward_graph_of _ _ _ _ H3). exact G2. }
        assert (L3 := graph_of_length _ _ G3).
        destruct (IH f b h3 ltac:(eapply graph_of_wf; eauto) ltac:(lia) ltac:(lia))
          as [_ Berr].
        rewrite (depth_ext F h h3 b G3) in Berr.
        rewrite (bind_Ok _ _ _ _ _ H3). apply Berr. lia.
      * apply bind_Raise, Aerr, Hlt.
  - destruct (wf_operands h r a b c Hwf Hr (or_intror Hc)) as (Ha & Hb & ->).
    rewrite (backward_S_mul f r h a b r Hc) by lia.
    set (h2 := bump b _ _).
    assert (G2 : graph_of h2 = graph_of h)
      by (unfold h2; rewrite !graph_of_bump; reflexivity).
    assert (L2 := graph_of_length _ _ G2).
    assert (W2 : wf h2) by (eapply graph_of_wf; eauto).
    destruct (IH f a h2 W2 ltac:(lia) ltac:(lia)) as [Aok Aerr].
    rewrite (depth_ext F h h2 a G2) in Aok, Aerr.
    split.
    + intros Hd. destruct Aok as [h3 H3]; [lia|].
      assert (G3 : graph_of h3 = graph_of h).
      { rewrite (backward_graph_of _ _ _ _ H3). exact G2. }
      assert (L3 := graph_of_length _ _ G3).
      destruct (IH f b h3 ltac:(eapply graph_of_wf; eauto) ltac:(lia) ltac:(lia))
        as [Bok _].
      rewrite (depth_ext F h h3 b G3) in Bok.
      destruct Bok as [h4 H4]; [lia|].
      exists h4. rewrite (bind_Ok _ _ _ _ _ H3). exact H4.
    + intros Hd.
      destruct (le_lt_dec (depth F h a) f) as [Hle|Hlt].
      * destruct Aok as [h3 H3]; [lia|].
        assert (G3 : graph_of h3 = graph_of h).
        { rewrite (backward_graph_of _ _ _ _ H3). exact G2. }
        assert (L3 := graph_of_length _ _ G3).
        destruct (IH f b h3 ltac:(eapply graph_of_wf; eauto) ltac:(lia) ltac:(lia))
          as [_ Berr].
        rewrite (depth_ext F h h3 b G3) in Berr.
        rewrite (bind_Ok _ _ _ _ _ H3). apply Berr. lia.
      * apply bind_Raise, Aerr, Hlt.
Qed.

(** The call depth [r.backward()] needs is the height of [r]: with a budget
    of at least that many nested calls it returns, with less it ends in
    [RecursionError]. *)
Theorem backward_needs_height h r fuel :
  wf h -> r < length h ->
  (height h r <= fuel -> exists h', backward fuel r h = Ok (tt, h')) /\
  (fuel < height h r -> backward fuel r h = Raise RecursionError).
Proof. intros Hwf Hr. apply backward_depth_aux; assumption. Qed.

End EngineMore.


(** * Allocation *)

Section Allocation.
Context {R : Type} {AR : Arith R}.
Implicit Types (h : heap R) (n a b : ref).

Lemma allocs_refl h : allocs 0 h h.
Proof. exists []. rewrite app_nil_r. auto. Qed.

Lemma allocs_trans j k h1 h2 h3 :
  allocs j h1 h2 -> allocs k h2 h3 -> allocs (j + k) h1 h3.
Proof.
  intros (t & -> & <- & W1) (u & -> & <- & W2). exists (t ++ u).
  rewrite app_assoc, length_app. auto.
Qed.

Lemma allocs_extends k h h' : allocs k h h' -> extends h h'.
Proof. intros (t & -> & _). exists t. reflexivity. Qed.

Lemma allocs_length k h h' : allocs k h h' -> length h' = length h + k.
Proof. intros (t & -> & <- & _). apply length_app. Qed.

Lemma allocs_wf k h h' : allocs k h h' -> wf h -> wf h'.
Proof. intros (t & _ & _ & W). exact W. Qed.

Lemma extends_ruleof h h' n : extends h h' -> n < length h -> ruleof h' n = ruleof h n.
Proof. intros [t ->] Hn. apply ruleof_app_l, Hn. Qed.

Lemma Scalar_allocs h v :
  exists h', Scalar v h = Ok (length h, h') /\ allocs 1 h h' /\
    valof h' (length h) = v.
Proof.
  eexists. split; [apply Scalar_eq|]. split; [|apply valof_last].
  eexists. split; [reflexivity|]. split; [reflexivity|].
  intros Hwf. apply wf_snoc; [exact Hwf|exact I].
Qed.

Lemma add_allocs h a b :
  a < length h -> b < length h ->
  exists h', __add__ a b h = Ok (length h, h') /\ allocs 1 h h'.
Proof.
  intros Ha Hb. eexists. split; [apply add_eq; assumption|].
  eexists. split; [reflexivity|]. split; [reflexivity|].
  intros Hwf. apply wf_snoc; [exact Hwf|]. cbn. auto.
Qed.

Lemma mul_allocs h a b :
  a < length h -> b < length h ->
  exists h', __mul__ a b h = Ok (length h, h') /\ allocs 1 h h'.
Proof.
  intros Ha Hb. eexists. split; [apply mul_eq; assumption|].
  eexists. split; [reflexivity|]. split; [reflexivity|].
  intros Hwf. apply wf_snoc; [exact Hwf|]. cbn. auto.
Qed.

(** Writes to one attribute of an existing object. *)
Lemma set_grad_ok h n g :
  n < length h ->
  exists h', set_grad n g h = Ok (tt, h') /\ graph_of h' = graph_of h.
Proof.
  intros [nd Hnd]%lookup_node.
  assert (H : set_grad n g h = Ok (tt, <[n := with_grad g nd]> h)).
  { unfold set_grad, setattr. rewrite Hnd. reflexivity. }
  eexists. split; [exact H|]. eapply setattr_grad_graph_of, H.
Qed.

Lemma set_val_ok h n v :
  n < length h ->
  exists h', set_val n v h = Ok (tt, h') /\ length h' = length h /\
    (forall m, ruleof h' m = ruleof h m) /\
    (forall m, m <> n -> valof h' m = valof h m) /\ valof h' n = v.
Proof.
  intros Hn. destruct (lookup_node _ _ Hn) as [nd Hnd].
  exists (<[n := with_val v nd]> h). split; [|split; [|split; [|split]]].
  - unfold set_val, setattr. rewrite Hnd. reflexivity.
  - apply length_insert.
  - intros m. unfold ruleof. destruct (decide (n = m)) as [->|Hne].
    + rewrite list_lookup_insert_eq by exact Hn. rewrite Hnd. reflexivity.
    + rewrite list_lookup_insert_ne by exact Hne. reflexivity.
  - intros m Hne. unfold valof. rewrite list_lookup_insert_ne by congruence.
    reflexivity.
  - unfold valof. rewrite list_lookup_insert_eq by exact Hn. reflexivity.
Qed.

Lemma wf_ruleof_ext h h' :
  length h' = length h -> (forall m, ruleof h' m = ruleof h m) -> wf h -> wf h'.
Proof. intros L E Hwf i Hi. rewrite E. apply Hwf. lia. Qed.

(** [y = x; x.grad = 0.; y.grad = 1.; y.backward(); x.grad]: [y] is
    the same object as [x], so the second assignment overwrites the first,
    the backward call of a leaf does nothing, and the read returns the seed;
    no other gradient, and no value or closure, has changed. *)
Theorem identity_gradient h x g0 g1 :
  x < length h -> is_leaf h x ->
  exists h',
    (set_grad x g0 ;;; set_grad x g1 ;;; call_backward x ;;; get_grad x) h
      = Ok (g1, h') /\
    graph_of h' = graph_of h /\
    forall n, n <> x -> gradof h' n = gradof h n.
Proof.
  intros Hx Hleaf.
  destruct (set_grad_ok h x g0 Hx) as (h1 & H1 & G1).
  assert (L1 := graph_of_length _ _ G1).
  destruct (set_grad_ok h1 x g1 ltac:(lia)) as (h2 & H2 & G2).
  assert (L2 := graph_of_length _ _ G2).
  assert (Hb : call_backward x h2 = Ok (tt, h2)).
  { unfold call_backward. destruct (length h2) as [|f] eqn:E; [lia|].
    cbn [backward]. rewrite (bind_Ok _ _ _ _ _ (get_backward_eq h2 x ltac:(lia))).
    rewrite (graph_of_ruleof _ _ _ G2), (graph_of_ruleof _ _ _ G1), Hleaf.
    reflexivity. }
  exists h2. split; [|split].
  - rewrite (bind_Ok _ _ _ _ _ H1), (bind_Ok _ _ _ _ _ H2), (bind_Ok _ _ _ _ _ Hb).
    rewrite (get_grad_eq h2 x ltac:(lia)). do 2 f_equal.
    revert H2. unfold set_grad, setattr, gradof.
    destruct (h1 !! x) as [nd|] eqn:E; [|discriminate]. intros [= <-].
    rewrite list_lookup_insert_eq by lia. reflexivity.
  - congruence.
  - intros n Hn. revert H1 H2. unfold set_grad, setattr, gradof.
    destruct (h !! x) as [nd|] eqn:E; [|discriminate]. intros [= <-].
    destruct (<[x:=_]> h !! x) as [nd'|] eqn:E'; [|discriminate]. intros [= <-].
    rewrite !list_lookup_insert_ne by auto. reflexivity.
Qed.

End Allocation.

(** * How deep the backward calls nest *)

Section HeightFacts.
Context {R : Type} {AR : Arith R}.
Implicit Types (h : heap R) (n r a b : ref).

Lemma depth_fuel h : wf h -> forall f f' r,
  r < length h -> r < f -> r < f' -> depth f h r = depth f' h r.
Proof.
  intros Hwf. induction f as [|f IH]; intros f' r Hr Hf Hf'; [lia|].
  destruct f' as [|f']; [lia|]. cbn [depth].
  destruct (ruleof h r) as [|a b c|a b c] eqn:Hc; [reflexivity| |].
  - destruct (wf_operands h r a b c Hwf Hr (or_introl Hc)) as (Ha & Hb & _).
    rewrite (IH f' a), (IH f' b) by lia. reflexivity.
  - destruct (wf_operands h r a b c Hwf Hr (or_intror Hc)) as (Ha & Hb & _).
    rewrite (IH f' a), (IH f' b) by lia. reflexivity.
Qed.

Lemma depth_extends h h' : wf h -> extends h h' -> forall f r,
  r < length h -> depth f h' r = depth f h r.
Proof.
  intros Hwf Hext. induction f as [|f IH]; intros r Hr; [reflexivity|].
  cbn [depth]. rewrite (extends_ruleof h h' r Hext Hr).
  destruct (ruleof h r) as [|a b c|a b c] eqn:Hc; [reflexivity| |].
  - destruct (wf_operands h r a b c Hwf Hr (or_introl Hc)) as (Ha & Hb & _).
    rewrite !IH by lia. reflexivity.
  - destruct (wf_operands h r a b c Hwf Hr (or_intror Hc)) as (Ha & Hb & _).
    rewrite !IH by lia. reflexivity.
Qed.

Lemma height_extends h h' r :
  wf h -> extends h h' -> r < length h -> height h' r = height h r.
Proof.
  intros Hwf Hext Hr. unfold height.
  rewrite (depth_extends h h' Hwf Hext) by exact Hr.
  pose proof (extends_length _ _ Hext). apply depth_fuel; auto; lia.
Qed.

Lemma height_graph_of h h' r :
  graph_of h' = graph_of h -> height h' r = height h r.
Proof.
  intros G. unfold height. rewrite (graph_of_length _ _ G). apply depth_ext, G.
Qed.

Lemma height_leaf h r : r < length h -> ruleof h r = LambdaNone -> height h r = 1.
Proof.
  intros Hr Hc. unfold height. destruct (length h); [lia|].
  cbn [depth]. rewrite Hc. reflexivity.
Qed.

Lemma height_pos h r : r < length h -> 1 <= height h r.
Proof.
  intros Hr. unfold height. destruct (length h); [lia|].
  cbn [depth]. destruct (ruleof h r); lia.
Qed.

Lemma height_op h r a b c :
  wf h -> r < length h ->
  ruleof h r = AddBackward a b c \/ ruleof h r = MulBackward a b c ->
  height h r = S (Nat.max (height h a) (height h b)).
Proof.
  intros Hwf Hr Hc.
  destruct (wf_operands h r a b c Hwf Hr Hc) as (Ha & Hb & _).
  unfold height. destruct (length h) as [|f] eqn:E; [lia|].
  assert (Da : depth f h a = depth (S f) h a) by (apply depth_fuel; auto; lia).
  assert (Db : depth f h b = depth (S f) h b) by (apply depth_fuel; auto; lia).
  rewrite <- Da, <- Db. cbn [depth].
  destruct Hc as [-> | ->]; reflexivity.
Qed.

Lemma Scalar_height h v :
  exists h', Scalar v h = Ok (length h, h') /\ allocs 1 h h' /\
    height h' (length h) = 1.
Proof.
  destruct (Scalar_allocs h v) as (h' & H' & A & _).
  exists h'. split; [exact H'|split; [exact A|]].
  apply height_leaf; [rewrite (allocs_length _ _ _ A); lia|].
  rewrite Scalar_eq in H'. injection H' as <-. apply ruleof_last.
Qed.

Lemma add_height h a b :
  wf h -> a < length h -> b < length h ->
  exists h', __add__ a b h = Ok (length h, h') /\ allocs 1 h h' /\
    height h' (length h) = S (Nat.max (height h a) (height h b)).
Proof.
  intros Hwf Ha Hb. destruct (add_allocs h a b Ha Hb) as (h' & H' & A).
  exists h'. split; [exact H'|split; [exact A|]].
  assert (E := allocs_extends _ _ _ A).
  rewrite <- (height_extends h h' a Hwf E Ha), <- (height_extends h h' b Hwf E Hb).
  apply (height_op h' (length h) a b (length h)).
  - apply (allocs_wf _ _ _ A Hwf).
  - rewrite (allocs_length _ _ _ A). lia.
  - left. rewrite add_eq in H' by assumption. injection H' as <-.
    apply ruleof_last.
Qed.

Lemma mul_height h a b :
  wf h -> a < length h -> b < length h ->
  exists h', __mul__ a b h = Ok (length h, h') /\ allocs 1 h h' /\
    height h' (length h) = S (Nat.max (height h a) (height h b)).
Proof.
  intros Hwf Ha Hb. destruct (mul_allocs h a b Ha Hb) as (h' & H' & A).
  exists h'. split; [exact H'|split; [exact A|]].
  assert (E := allocs_extends _ _ _ A).
  rewrite <- (height_extends h h' a Hwf E Ha), <- (height_extends h h' b Hwf E Hb).
  apply (height_op h' (length h) a b (length h)).
  - apply (allocs_wf _ _ _ A Hwf).
  - rewrite (allocs_length _ _ _ A). lia.
  - right. rewrite mul_eq in H' by assumption. injection H' as <-.
    apply ruleof_last.
Qed.

Lemma height_ruleof_ext h h' r :
  wf h -> length h <= length h' ->
  (forall m, m < length h -> ruleof h' m = ruleof h m) ->
  r < length h -> height h' r = height h r.
Proof.
  intros Hwf Hle Hrule Hr.
  assert (D : forall f n, n < length h -> depth f h' n = depth f h n).
  { induction f as [|f IH]; intros n Hn; [reflexivity|].
    cbn [depth]. rewrite (Hrule n Hn).
    destruct (ruleof h n) as [|a b c|a b c] eqn:Hc; [reflexivity| |].
    - destruct (wf_operands h n a b c Hwf Hn (or_introl Hc)) as (Ha & Hb & _).
      rewrite !IH by lia. reflexivity.
    - destruct (wf_operands h n a b c Hwf Hn (or_intror Hc)) as (Ha & Hb & _).
      rewrite !IH by lia. reflexivity. }
  unfold height. rewrite D by exact Hr. apply depth_fuel; auto; lia.
Qed.

Lemma Forall_height_extends (P : nat -> Prop) h h' (l : list ref) :
  wf h -> extends h h' ->
  Forall (fun r => r < length h /\ P (height h r)) l ->
  Forall (fun r => r < length h' /\ P (height h' r)) l.
Proof.
  intros Hwf Hext HF. eapply Forall_impl; [exact HF|]. intros r [Hr HP].
  pose proof (extends_length _ _ Hext).
  rewrite (height_extends h h' r Hwf Hext Hr). split; [lia|exact HP].
Qed.

(** More room for nested calls changes nothing once a call returns. *)
Lemma backward_fuel_mono : forall f f' r h h',
  wf h -> r < length h -> f <= f' ->
  backward f r h = Ok (tt, h') -> backward f' r h = Ok (tt, h').
Proof.
  induction f as [|f IH]; intros f' r h h' Hwf Hr Hle H; [discriminate|].
  destruct f' as [|f']; [lia|].
  destruct (ruleof h r) as [|a b c|a b c] eqn:Hc.
  - revert H. cbn [backward].
    rewrite !(bind_Ok _ _ _ _ _ (get_backward_eq _ _ Hr)), Hc. auto.
  - destruct (wf_operands h r a b c Hwf Hr (or_introl Hc)) as (Ha & Hb & ->).
    rewrite (backward_S_add f r h a b r Hc) in H by lia.
    rewrite (backward_S_add f' r h a b r Hc) by lia.
    set (h2 := bump b _ _) in *.
    assert (G2 : graph_of h2 = graph_of h)
      by (unfold h2; rewrite !graph_of_bump; reflexivity).
    assert (L2 := graph_of_length _ _ G2).
    apply bind_inv in H as ([] & h3 & H3 & H4).
    assert (G3 : graph_of h3 = graph_of h).
    { rewrite (backward_graph_of _ _ _ _ H3). exact G2. }
    assert (L3 := graph_of_length _ _ G3).
    rewrite (bind_Ok _ _ _ _ _
               (IH f' a h2 h3 ltac:(eapply graph_of_wf; eauto) ltac:(lia)
                  ltac:(lia) H3)).
    apply (IH f' b h3 h'); [eapply graph_of_wf; eauto|lia|lia|exact H4].
  - destruct (wf_operands h r a b c Hwf Hr (or_intror Hc)) as (Ha & Hb & ->).
    rewrite (backward_S_mul f r h a b r Hc) in H by lia.
    rewrite (backward_S_mul f' r h a b r Hc) by lia.
    set (h2 := bump b _ _) in *.
    assert (G2 : graph_of h2 = graph_of h)
      by (unfold h2; rewrite !graph_of_bump; reflexivity).
    assert (L2 := graph_of_length _ _ G2).
    apply bind_inv in H as ([] & h3 & H3 & H4).
    assert (G3 : graph_of h3 = graph_of h).
    { rewrite (backward_graph_of _ _ _ _ H3). exact G2. }
    assert (L3 := graph_of_length _ _ G3).
    rewrite (bind_Ok _ _ _ _ _
               (IH f' a h2 h3 ltac:(eapply graph_of_wf; eauto) ltac:(lia)
                  ltac:(lia) H3)).
    apply (IH f' b h3 h'); [eapply graph_of_wf; eauto|lia|lia|exact H4].
Qed.

End HeightFacts.

(** * More about the helpers *)

Section HelperMore.
Implicit Types (h : heap float) (l rs X ys ps : list ref).

Lemma mapM_ext {A B} (f g : A -> M float B) (l : list A) :
  (forall a h, a ∈ l -> f a h = g a h) -> forall h, mapM f l h = mapM g l h.
Proof.
  induction l as [|a l IH]; intros E h; [reflexivity|].
  cbn [mapM]. unfold bind at 1 3. rewrite (E a h) by (apply elem_of_cons; auto).
  destruct (g a h) as [[b h1]|e]; [|reflexivity].
  unfold bind. rewrite IH; [reflexivity|].
  intros x hx Hx. apply E, elem_of_cons. auto.
Qed.

Lemma mapM_app_raise {A B} (f : A -> M float B) (xs : list A) (a : A)
    (zs : list A) h (bs : list B) h1 e :
  mapM f xs h = Ok (bs, h1) -> f a h1 = Raise e ->
  mapM f (xs ++ a :: zs) h = Raise e.
Proof.
  revert h bs. induction xs as [|x xs IH]; intros h bs H Ha.
  - injection H as _ <-. cbn [app mapM]. apply bind_Raise, Ha.
  - cbn [app mapM] in H |- *.
    apply bind_inv in H as (b & hb & Hb & H).
    apply bind_inv in H as (cs & hc & Hcs & H). injection H as _ <-.
    rewrite (bind_Ok _ _ _ _ _ Hb). apply bind_Raise. eapply IH; eauto.
Qed.

(** A comprehension over [range(len(l))] that only reads [l[i]] is a
    comprehension over the elements of [l]. *)
Lemma bind_cong {A B} (c c' : M float A) (k : A -> M float B) h :
  c h = c' h -> bind c k h = bind c' k h.
Proof. unfold bind. intros ->. reflexivity. Qed.

Lemma mapM_getitem {B} (k : ref -> M float B) : forall l pre h,
  mapM (fun i => x <- getitem (pre ++ l) i ;; k x)
       (seq (length pre) (length l)) h
  = mapM k l h.
Proof.
  induction l as [|x l IH]; intros pre h; [reflexivity|].
  cbn [length seq mapM].
  assert (E : (x0 <- getitem (pre ++ x :: l) (length pre) ;; k x0) h = k x h).
  { apply bind_Ok, getitem_eq, list_lookup_middle. reflexivity. }
  rewrite (bind_cong _ _ _ _ E).
  destruct (k x h) as [[b h1]|e] eqn:Hk; bind_step Hk.
  specialize (IH (pre ++ [x]) h1).
  rewrite <- app_assoc, length_app in IH. cbn [app length] in IH.
  rewrite Nat.add_1_r in IH.
  apply bind_cong. exact IH.
Qed.

Lemma mapM_allocs {A} (f : A -> M float ref) (k : nat) : forall (l : list A) h,
  (forall a h1, a ∈ l -> extends h h1 ->
     exists r h2, f a h1 = Ok (r, h2) /\ allocs k h1 h2 /\ r < length h2) ->
  exists rs h2, mapM f l h = Ok (rs, h2) /\ allocs (length l * k) h h2 /\
    Forall (fun r => r < length h2) rs /\ length rs = length l.
Proof.
  induction l as [|a l IH]; intros h Hf.
  - exists [], h. repeat split; [apply allocs_refl|constructor].
  - destruct (Hf a h) as (r & h1 & Hr & A1 & Hrl);
      [apply elem_of_cons; auto|apply extends_refl|].
    destruct (IH h1) as (rs & h2 & Hrs & A2 & Hall & Hlen).
    { intros x hx Hx Hext. apply Hf; [apply elem_of_cons; auto|].
      eapply extends_trans; [eapply allocs_extends, A1|exact Hext]. }
    exists (r :: rs), h2. split; [|split; [|split]].
    + cbn [mapM]. rewrite (bind_Ok _ _ _ _ _ Hr), (bind_Ok _ _ _ _ _ Hrs).
      reflexivity.
    + cbn [length Nat.mul]. eapply allocs_trans; eauto.
    + constructor; [|exact Hall]. apply allocs_length in A2. lia.
    + cbn. lia.
Qed.

Lemma py_sum_allocs l : forall acc h,
  Forall (fun r => r < length h) l -> acc < length h ->
  exists r h', py_sum l acc h = Ok (r, h') /\ allocs (length l) h h' /\
    r < length h'.
Proof.
  induction l as [|x l IH]; intros acc h Hl Hacc.
  - exists acc, h. repeat split; [apply allocs_refl|exact Hacc].
  - apply Forall_cons in Hl as [Hx Hl].
    destruct (add_allocs h acc x Hacc Hx) as (h1 & Hc & A1).
    assert (L1 := allocs_length _ _ _ A1).
    destruct (IH (length h) h1) as (r & h2 & Hr & A2 & Hrl); [|lia|].
    { eapply Forall_impl; [exact Hl|]. cbn. intros. lia. }
    exists r, h2. split; [|split]; [|eapply (allocs_trans 1); eauto|exact Hrl].
    cbn [py_sum]. rewrite (bind_Ok _ _ _ _ _ Hc). exact Hr.
Qed.

(** ** [forward] *)

Lemma forward_elems w : forall X h0 h,
  extends h0 h -> w < length h0 -> Forall (fun r => r < length h0) X ->
  exists h',
    mapM (fun x => __mul__ w x) X h = Ok (seq (length h) (length X), h') /\
    allocs (length X) h h' /\
    forall i x, X !! i = Some x ->
      h' !! (length h + i) =
      Some (mkNode (valof h0 w * valof h0 x)%float 0%float
              (MulBackward w x (length h + i))).
Proof.
  induction X as [|x X IH]; intros h0 h Hext Hw HX.
  - exists h. repeat split; [apply allocs_refl|]. intros i x Hx. discriminate.
  - apply Forall_cons in HX as [Hx HX].
    assert (L := extends_length _ _ Hext).
    pose proof (mul_eq h w x ltac:(lia) ltac:(lia)) as Hm.
    destruct (mul_allocs h w x ltac:(lia) ltac:(lia)) as (h1 & Hm' & A1).
    rewrite Hm in Hm'. injection Hm' as <-.
    set (h1 := h ++ _) in *.
    assert (L1 := allocs_length _ _ _ A1).
    destruct (IH h0 h1) as (h2 & H2 & A2 & E2); auto.
    { eapply extends_trans; [exact Hext|eapply allocs_extends, A1]. }
    exists h2. split; [|split].
    + cbn [mapM length seq]. rewrite (bind_Ok _ _ _ _ _ Hm).
      rewrite (bind_Ok _ _ _ _ _ H2). rewrite L1, Nat.add_1_r. reflexivity.
    + eapply (allocs_trans 1); eauto.
    + intros i y Hy. destruct i as [|i].
      * injection Hy as <-. destruct (allocs_extends _ _ _ A2) as [t ->].
        rewrite Nat.add_0_r, lookup_app_l by lia. unfold h1.
        rewrite list_lookup_middle by reflexivity.
        rewrite (extends_valof h0 h w Hext Hw), (extends_valof h0 h x Hext Hx).
        reflexivity.
      * cbn in Hy. specialize (E2 i y Hy).
        replace (length h + S i) with (length h1 + i) by lia. exact E2.
Qed.

Lemma forward_run h X w :
  w < length h -> Forall (fun r => r < length h) X ->
  exists h',
    forward X w h = Ok (seq (length h) (length X), h') /\
    allocs (length X) h h' /\
    forall i x, X !! i = Some x ->
      h' !! (length h + i) =
      Some (mkNode (valof h w * valof h x)%float 0%float
              (MulBackward w x (length h + i))).
Proof.
  intros Hw HX.
  destruct (forward_elems w X h h (extends_refl h) Hw HX) as (h' & H' & A & E).
  exists h'. split; [|split; [exact A|exact E]].
  unfold forward, range. rewrite <- H'.
  apply (mapM_getitem (fun x => __mul__ w x) X [] h).
Qed.

(** [forward(X, w)] on objects of the store returns [len(X)] new objects,
    in order, the [i]-th with value [w.val * X[i].val], gradient 0 and the
    closure of [w * X[i]]; nothing older is touched. In particular
    [forward([], w)] returns [[]] and allocates nothing. *)
Theorem forward_spec h X w :
  w < length h -> Forall (fun r => r < length h) X ->
  exists h',
    forward X w h = Ok (seq (length h) (length X), h') /\
    length h' = length h + length X /\
    (forall m, m < length h -> h' !! m = h !! m) /\
    forall i x, X !! i = Some x ->
      valof h' (length h + i) = (valof h w * valof h x)%float /\
      gradof h' (length h + i) = 0%float /\
      ruleof h' (length h + i) = MulBackward w x (length h + i).
Proof.
  intros Hw HX.
  destruct (forward_run h X w Hw HX) as (h' & H' & A & E).
  exists h'. split; [exact H'|split; [exact (allocs_length _ _ _ A)|split]].
  - intros m Hm. destruct (allocs_extends _ _ _ A) as [t ->].
    apply lookup_app_l, Hm.
  - intros i x Hx. unfold valof, gradof, ruleof. rewrite (E i x Hx). auto.
Qed.

(** ** [mse]: errors *)

Lemma mse_error_allocs ys ps i h :
  Forall (fun r => r < length h) ys -> Forall (fun r => r < length h) ps ->
  i < length ys -> i < length ps ->
  forall h1, extends h h1 ->
  exists r h2,
    (yi <- getitem ys i ;;
     m <- Scalar (-1)%float ;;
     pi <- getitem ps i ;;
     t <- __mul__ m pi ;;
     __add__ yi t) h1 = Ok (r, h2) /\
    allocs 3 h1 h2 /\ r < length h2.
Proof.
  intros Hys Hps Hiy Hip h1 Hext.
  destruct (lookup_lt_is_Some_2 ys i Hiy) as [yi Hyi].
  destruct (lookup_lt_is_Some_2 ps i Hip) as [pi Hpi].
  assert (Hy0 := Forall_lookup_1 _ _ _ _ Hys Hyi).
  assert (Hp0 := Forall_lookup_1 _ _ _ _ Hps Hpi). cbn in Hy0, Hp0.
  assert (L1 := extends_length _ _ Hext).
  destruct (Scalar_allocs h1 (-1)%float) as (ha & Hm & Aa & _).
  assert (La := allocs_length _ _ _ Aa).
  destruct (mul_allocs ha (length h1) pi ltac:(lia) ltac:(lia)) as (hb & Ht & Ab).
  assert (Lb := allocs_length _ _ _ Ab).
  destruct (add_allocs hb yi (length ha) ltac:(lia) ltac:(lia)) as (hc & He & Ac).
  assert (Lc := allocs_length _ _ _ Ac).
  exists (length hb), hc. split; [|split; [|lia]].
  - rewrite (bind_Ok _ _ _ _ _ (getitem_eq _ _ _ _ Hyi)).
    rewrite (bind_Ok _ _ _ _ _ Hm).
    rewrite (bind_Ok _ _ _ _ _ (getitem_eq _ _ _ _ Hpi)).
    rewrite (bind_Ok _ _ _ _ _ Ht). exact He.
  - apply (allocs_trans 2 1 h1 hb hc); [|exact Ac].
    apply (allocs_trans 1 1 h1 ha hb); assumption.
Qed.

(** With no targets [mse] raises [ZeroDivisionError], whatever the
    predictions and the store: [1./len(error)] divides by zero before
    anything is summed. *)
Theorem mse_no_targets (h : heap float) ps :
  mse [] ps h = Raise ZeroDivisionError.
Proof. reflexivity. Qed.

(** With fewer predictions than targets [mse] raises [IndexError], at the
    first target that has no prediction. *)
Theorem mse_short_predictions h ys ps :
  Forall (fun r => r < length h) ys -> Forall (fun r => r < length h) ps ->
  length ps < length ys ->
  mse ys ps h = Raise IndexError.
Proof.
  intros Hys Hps Hlt.
  unfold mse. apply bind_Raise. unfold range.
  replace (length ys) with (length ps + S (length ys - length ps - 1)) by lia.
  rewrite seq_app. cbn [seq]. rewrite Nat.add_0_l.
  destruct (mapM_allocs
              (fun i => yi <- getitem ys i ;; m <- Scalar (-1)%float ;;
                        pi <- getitem ps i ;; t <- __mul__ m pi ;; __add__ yi t)
              3 (seq 0 (length ps)) h)
    as (rs & h1 & Hrs & A1 & _ & _).
  { intros i hx [_ Hi]%elem_of_seq Hext.
    apply (mse_error_allocs ys ps i h); auto; lia. }
  eapply mapM_app_raise; [exact Hrs|].
  destruct (lookup_lt_is_Some_2 ys (length ps) Hlt) as [yi Hyi].
  rewrite (bind_Ok _ _ _ _ _ (getitem_eq _ _ _ _ Hyi)).
  rewrite (bind_Ok _ _ _ _ _ (Scalar_eq _ _)).
  apply bind_Raise. unfold getitem.
  rewrite lookup_ge_None_2 by lia. reflexivity.
Qed.

(** Predictions beyond the number of targets are never read: [mse] ends
    (returns or raises) as it does on the predictions cut to [len(y)]. *)
Theorem mse_ignores_surplus h ys ps :
  length ys <= length ps -> mse ys ps h = mse ys (take (length ys) ps) h.
Proof.
  intros Hle. unfold mse. apply bind_cong. apply mapM_ext.
  intros i hx [_ Hi]%elem_of_seq.
  destruct (getitem ys i hx) as [[yi h1]|e] eqn:Hy; bind_step Hy.
  destruct (Scalar (-1)%float h1) as [[m h2]|e] eqn:Hm; bind_step Hm.
  apply bind_cong. unfold getitem. rewrite lookup_take_lt by lia. reflexivity.
Qed.

(** ** [mse]: what it allocates *)

Lemma mse_square_allocs errors i h :
  Forall (fun r => r < length h) errors -> i < length errors ->
  forall h1, extends h h1 ->
  exists r h2,
    (e1 <- getitem errors i ;; e2 <- getitem errors i ;; __mul__ e1 e2) h1
      = Ok (r, h2) /\
    allocs 1 h1 h2 /\ r < length h2.
Proof.
  intros Hes Hi h1 Hext.
  destruct (lookup_lt_is_Some_2 errors i Hi) as [e He].
  assert (He0 := Forall_lookup_1 _ _ _ _ Hes He). cbn in He0.
  assert (L1 := extends_length _ _ Hext).
  destruct (mul_allocs h1 e e ltac:(lia) ltac:(lia)) as (h2 & Hr & A).
  assert (L2 := allocs_length _ _ _ A).
  exists (length h1), h2. split; [|split; [exact A|lia]].
  rewrite !(bind_Ok _ _ _ _ _ (getitem_eq _ _ _ _ He)). exact Hr.
Qed.

Lemma mse_run h ys ps :
  ys <> [] -> length ys <= length ps ->
  Forall (fun r => r < length h) ys -> Forall (fun r => r < length h) ps ->
  exists h',
    mse ys ps h = Ok (length h + 5 * length ys + 2, h') /\
    allocs (5 * length ys + 3) h h'.
Proof.
  intros Hne Hle Hys Hps. set (n := length ys).
  destruct (mapM_allocs
              (fun i => yi <- getitem ys i ;; m <- Scalar (-1)%float ;;
                        pi <- getitem ps i ;; t <- __mul__ m pi ;; __add__ yi t)
              3 (range n) h)
    as (errors & he & Herr & Ae & Hel & Len).
  { intros i hx [_ Hi]%elem_of_seq Hext.
    apply (mse_error_allocs ys ps i h); auto; lia. }
  unfold range in Len. rewrite length_seq in Len.
  destruct (mapM_allocs
              (fun i => e1 <- getitem errors i ;; e2 <- getitem errors i ;;
                        __mul__ e1 e2)
              1 (range (length errors)) he)
    as (se & hs & Hse & As & Hsl & Lse).
  { intros i hx [_ Hi]%elem_of_seq Hext.
    apply (mse_square_allocs errors i he); auto; lia. }
  unfold range in Lse, Ae, As. rewrite length_seq in Lse, Ae, As.
  destruct (Scalar_allocs hs (1 / float_of_nat n)%float) as (hc & Hc & Ac & _).
  destruct (Scalar_allocs hc 0%float) as (hz & Hz & Az & _).
  assert (Lc := allocs_length _ _ _ Ac). assert (Lz := allocs_length _ _ _ Az).
  destruct (py_sum_allocs se (length hc) hz) as (t & ht & Ht & At & Htl); [|lia|].
  { eapply Forall_impl; [exact Hsl|]. cbn. intros. lia. }
  assert (Lt := allocs_length _ _ _ At).
  destruct (mul_allocs ht (length hs) t ltac:(lia) Htl) as (hr & Hr & Ar).
  assert (Le := allocs_length _ _ _ Ae). assert (Ls := allocs_length _ _ _ As).
  exists hr. split.
  - unfold mse. fold n. rewrite (bind_Ok _ _ _ _ _ Herr).
    rewrite (bind_Ok _ _ _ _ _ Hse). rewrite Len.
    assert (Htd : truediv 1%float n hs = Ok ((1 / float_of_nat n)%float, hs)).
    { unfold n. destruct ys; [congruence|reflexivity]. }
    rewrite (bind_Ok _ _ _ _ _ Htd), (bind_Ok _ _ _ _ _ Hc).
    rewrite (bind_Ok _ _ _ _ _ Hz), (bind_Ok _ _ _ _ _ Ht), Hr.
    do 2 f_equal. lia.
  - replace (5 * n + 3) with (n * 3 + (length errors * 1 + (1 + (1 + (length se + 1)))))
      by lia.
    repeat (eapply allocs_trans; [eassumption|]). exact Ar.
Qed.

(** With [n > 0] targets and at least [n] predictions, [mse] returns; it
    has allocated [5 * n + 3] objects, the loss it returns is the newest
    one, and the objects that existed before are as they were. *)
Theorem mse_allocates h ys ps :
  ys <> [] -> length ys <= length ps ->
  Forall (fun r => r < length h) ys -> Forall (fun r => r < length h) ps ->
  exists r h',
    mse ys ps h = Ok (r, h') /\
    length h' = length h + (5 * length ys + 3) /\
    r = length h' - 1 /\
    (forall m, m < length h -> h' !! m = h !! m) /\
    (wf h -> wf h').
Proof.
  intros Hne Hle Hys Hps.
  destruct (mse_run h ys ps Hne Hle Hys Hps) as (h' & H' & A).
  assert (L := allocs_length _ _ _ A).
  exists (length h + 5 * length ys + 2), h'.
  split; [exact H'|split; [exact L|split; [lia|split]]].
  - intros m Hm. destruct (allocs_extends _ _ _ A) as [t ->].
    apply lookup_app_l, Hm.
  - apply (allocs_wf _ _ _ A).
Qed.

(** ** The training loop *)

(* One pass of the loop body. *)
Lemma epoch_ok h X y w :
  wf h -> w < length h ->
  Forall (fun r => r < length h) X -> Forall (fun r => r < length h) y ->
  y <> [] -> length y <= length X ->
  exists h',
    epoch X y w h = Ok (tt, h') /\
    length h' = length h + (length X + 5 * length y + 3) /\
    wf h' /\
    (forall m, m < length h -> ruleof h' m = ruleof h m) /\
    (forall m, m < length h -> m <> w -> valof h' m = valof h m).
Proof.
  intros Hwf Hw HX Hy Hne Hle.
  destruct (forward_run h X w Hw HX) as (h1 & Hf & A1 & _).
  assert (L1 := allocs_length _ _ _ A1).
  assert (E1 := allocs_extends _ _ _ A1).
  destruct (mse_run h1 y (seq (length h) (length X))) as (h2 & Hm & A2).
  { exact Hne. }
  { rewrite length_seq. exact Hle. }
  { eapply Forall_impl; [exact Hy|]. cbn. intros. lia. }
  { apply Forall_forall. intros r [? ?]%elem_of_seq. lia. }
  assert (L2 := allocs_length _ _ _ A2).
  assert (E2 := allocs_extends _ _ _ A2).
  set (loss := length h1 + 5 * length y + 2) in *.
  destruct (set_grad_ok h2 w 0%float ltac:(lia)) as (h3 & H3 & G3).
  assert (L3 := graph_of_length _ _ G3).
  destruct (set_grad_ok h3 loss 1%float ltac:(lia)) as (h4 & H4 & G4).
  assert (L4 := graph_of_length _ _ G4).
  assert (W4 : wf h4).
  { apply (graph_of_wf h3), (graph_of_wf h2); auto.
    eapply allocs_wf; [exact A2|]. eapply allocs_wf; [exact A1|exact Hwf]. }
  destruct (backward_total (length h4) loss h4 W4 ltac:(lia) ltac:(lia))
    as (h5 & H5).
  assert (G5 := backward_graph_of _ _ _ _ H5).
  assert (L5 := graph_of_length _ _ G5).
  destruct (set_val_ok h5 w (valof h5 w - LEARNING_RATE * gradof h5 w)%float
              ltac:(lia)) as (h6 & H6 & L6 & R6 & V6 & _).
  exists h6. split; [|split; [lia|split; [|split]]].
  - unfold epoch. rewrite (bind_Ok _ _ _ _ _ Hf), (bind_Ok _ _ _ _ _ Hm).
    rewrite (bind_Ok _ _ _ _ _ H3), (bind_Ok _ _ _ _ _ H4).
    assert (H5' : call_backward loss h4 = Ok (tt, h5)) by exact H5.
    rewrite (bind_Ok _ _ _ _ _ H5').
    rewrite (bind_Ok _ _ _ _ _ (get_val_eq h5 w ltac:(lia))).
    rewrite (bind_Ok _ _ _ _ _ (get_grad_eq h5 w ltac:(lia))). exact H6.
  - apply (wf_ruleof_ext h5); auto. apply (graph_of_wf h4); auto.
  - intros m Hm'. rewrite R6, (graph_of_ruleof _ _ _ G5), (graph_of_ruleof _ _ _ G4).
    rewrite (graph_of_ruleof _ _ _ G3).
    rewrite (extends_ruleof h1 h2) by (auto; lia). apply extends_ruleof; auto.
  - intros m Hm' Hmw. rewrite V6 by exact Hmw.
    rewrite (graph_of_valof _ _ _ G5), (graph_of_valof _ _ _ G4).
    rewrite (graph_of_valof _ _ _ G3).
    rewrite (extends_valof h1 h2) by (auto; lia). apply extends_valof; auto.
Qed.

Lemma train_ok epochs : forall h X y w,
  wf h -> w < length h ->
  Forall (fun r => r < length h) X -> Forall (fun r => r < length h) y ->
  y <> [] -> length y <= length X ->
  exists h',
    train epochs X y w h = Ok (tt, h') /\
    length h' = length h + epochs * (length X + 5 * length y + 3) /\
    wf h' /\
    (forall m, m < length h -> ruleof h' m = ruleof h m) /\
    (forall m, m < length h -> m <> w -> valof h' m = valof h m).
Proof.
  induction epochs as [|k IH]; intros h X y w Hwf Hw HX Hy Hne Hle.
  - exists h. cbn [train]. repeat split; auto.
  - destruct (epoch_ok h X y w Hwf Hw HX Hy Hne Hle)
      as (h1 & H1 & L1 & W1 & R1 & V1).
    destruct (IH h1 X y w W1 ltac:(lia)) as (h2 & H2 & L2 & W2 & R2 & V2); auto.
    { eapply Forall_impl; [exact HX|]. cbn. intros. lia. }
    { eapply Forall_impl; [exact Hy|]. cbn. intros. lia. }
    exists h2. split; [|split; [lia|split; [exact W2|split]]].
    + cbn [train]. rewrite (bind_Ok _ _ _ _ _ H1). exact H2.
    + intros m Hm. rewrite R2 by lia. auto.
    + intros m Hm Hmw. rewrite V2 by (auto; lia). auto.
Qed.

(** The training loop on a well-formed store, with at least one target
    and at least as many inputs as targets, for any number of epochs: it
    never raises; every epoch allocates [len(X) + 5 * len(y) + 3] objects
    (nothing is freed or reused); among the objects that existed before,
    only [w] changes its value, and none changes its closure, so [w]
    stays a leaf. *)
Theorem train_spec epochs h X y w :
  wf h -> w < length h ->
  Forall (fun r => r < length h) X -> Forall (fun r => r < length h) y ->
  y <> [] -> length y <= length X ->
  exists h',
    train epochs X y w h = Ok (tt, h') /\
    length h' = length h + epochs * (length X + 5 * length y + 3) /\
    wf h' /\
    (forall m, m < length h -> ruleof h' m = ruleof h m) /\
    (forall m, m < length h -> m <> w -> valof h' m = valof h m).
Proof. apply train_ok. Qed.

End HelperMore.

(** * The depth of the calls in the training loop *)

Section HelperDepth.
Implicit Types (h : heap float) (l rs X ys ps : list ref).

Lemma mapM_inv {A} (f : A -> M float ref) (k : nat)
    (Q : ref -> heap float -> Prop) :
  (forall r h1 h2, wf h1 -> r < length h1 -> extends h1 h2 -> Q r h1 -> Q r h2) ->
  forall (xs : list A) h, wf h ->
  (forall a h1, a ∈ xs -> extends h h1 -> wf h1 ->
     exists r h2, f a h1 = Ok (r, h2) /\ allocs k h1 h2 /\ r < length h2 /\
       Q r h2) ->
  exists rs h2, mapM f xs h = Ok (rs, h2) /\ allocs (length xs * k) h h2 /\
    length rs = length xs /\ Forall (fun r => r < length h2 /\ Q r h2) rs.
Proof.
  intros Hst. induction xs as [|a xs IH]; intros h Hwf Hbody.
  - exists [], h. repeat split; [apply allocs_refl|constructor].
  - destruct (Hbody a h ltac:(left) (extends_refl h) Hwf)
      as (r & h1 & Hr & A1 & Hrl & HQ).
    assert (W1 := allocs_wf _ _ _ A1 Hwf).
    assert (E1 := allocs_extends _ _ _ A1).
    destruct (IH h1 W1) as (rs & h2 & Hrs & A2 & Lrs & Frs).
    { intros a' hx Ha' Hext Wx. apply Hbody; auto; [right; exact Ha'|].
      eapply extends_trans; eauto. }
    assert (E2 := allocs_extends _ _ _ A2).
    pose proof (extends_length _ _ E2).
    exists (r :: rs), h2. split; [|split; [|split]].
    + cbn [mapM]. rewrite (bind_Ok _ _ _ _ _ Hr), (bind_Ok _ _ _ _ _ Hrs).
      reflexivity.
    + cbn [length]. replace (S (length xs) * k) with (k + length xs * k) by lia.
      eapply allocs_trans; eauto.
    + cbn [length]. lia.
    + constructor; [|exact Frs]. split; [lia|]. eapply Hst; eauto.
Qed.

Lemma height_stable c :
  forall r h1 h2, wf h1 -> r < length h1 -> extends h1 h2 ->
    height h1 r = c -> height h2 r = c.
Proof. intros r h1 h2 W Hr E <-. apply height_extends; assumption. Qed.

Lemma mse_error_height ys ps b i h :
  wf h ->
  Forall (fun r => r < length h /\ height h r <= S b) ys ->
  Forall (fun r => r < length h /\ height h r = b) ps ->
  i < length ys -> i < length ps ->
  forall h1, extends h h1 -> wf h1 ->
  exists r h2,
    (yi <- getitem ys i ;;
     m <- Scalar (-1)%float ;;
     pi <- getitem ps i ;;
     t <- __mul__ m pi ;;
     __add__ yi t) h1 = Ok (r, h2) /\
    allocs 3 h1 h2 /\ r < length h2 /\ height h2 r = S (S b).
Proof.
  intros Hwf Hys Hps Hiy Hip h1 Hext W1.
  destruct (lookup_lt_is_Some_2 ys i Hiy) as [yi Hyi].
  destruct (lookup_lt_is_Some_2 ps i Hip) as [pi Hpi].
  destruct (Forall_lookup_1 _ _ _ _ Hys Hyi) as [Hy0 Hyh].
  destruct (Forall_lookup_1 _ _ _ _ Hps Hpi) as [Hp0 Hph].
  assert (Hb1 := height_pos h pi Hp0).
  assert (L1 := extends_length _ _ Hext).
  destruct (Scalar_height h1 (-1)%float) as (ha & Hm & Aa & Hma).
  assert (La := allocs_length _ _ _ Aa).
  assert (Wa := allocs_wf _ _ _ Aa W1).
  assert (Ea : extends h ha).
  { eapply extends_trans; [exact Hext|eapply allocs_extends, Aa]. }
  destruct (mul_height ha (length h1) pi Wa ltac:(lia) ltac:(lia))
    as (hb & Ht & Ab & Htb).
  assert (Lb := allocs_length _ _ _ Ab).
  assert (Wb := allocs_wf _ _ _ Ab Wa).
  assert (Eb : extends h hb).
  { eapply extends_trans; [exact Ea|eapply allocs_extends, Ab]. }
  rewrite Hma, (height_extends h ha pi Hwf Ea Hp0) in Htb.
  destruct (add_height hb yi (length ha) Wb ltac:(lia) ltac:(lia))
    as (hc & He & Ac & Hec).
  assert (Lc := allocs_length _ _ _ Ac).
  rewrite Htb, (height_extends h hb yi Hwf Eb Hy0) in Hec.
  exists (length hb), hc. split; [|split; [|split; [lia|]]].
  - rewrite (bind_Ok _ _ _ _ _ (getitem_eq _ _ _ _ Hyi)).
    rewrite (bind_Ok _ _ _ _ _ Hm).
    rewrite (bind_Ok _ _ _ _ _ (getitem_eq _ _ _ _ Hpi)).
    rewrite (bind_Ok _ _ _ _ _ Ht). exact He.
  - apply (allocs_trans 2 1 h1 hb hc); [|exact Ac].
    apply (allocs_trans 1 1 h1 ha hb); assumption.
  - rewrite Hec. lia.
Qed.

Lemma mse_square_height errors c i h :
  wf h ->
  Forall (fun r => r < length h /\ height h r = c) errors ->
  i < length errors ->
  forall h1, extends h h1 -> wf h1 ->
  exists r h2,
    (e1 <- getitem errors i ;; e2 <- getitem errors i ;; __mul__ e1 e2) h1
      = Ok (r, h2) /\
    allocs 1 h1 h2 /\ r < length h2 /\ height h2 r = S c.
Proof.
  intros Hwf Hes Hi h1 Hext W1.
  destruct (lookup_lt_is_Some_2 errors i Hi) as [e He].
  destruct (Forall_lookup_1 _ _ _ _ Hes He) as [He0 Heh].
  assert (L1 := extends_length _ _ Hext).
  destruct (mul_height h1 e e W1 ltac:(lia) ltac:(lia)) as (h2 & Hr & A & Hh).
  assert (L2 := allocs_length _ _ _ A).
  rewrite (height_extends h h1 e Hwf Hext He0), Heh in Hh.
  exists (length h1), h2. split; [|split; [exact A|split; [lia|]]].
  - rewrite !(bind_Ok _ _ _ _ _ (getitem_eq _ _ _ _ He)). exact Hr.
  - rewrite Hh. lia.
Qed.

Lemma py_sum_height s : forall l acc h,
  wf h -> Forall (fun r => r < length h /\ height h r = s) l ->
  acc < length h ->
  exists r h', py_sum l acc h = Ok (r, h') /\ allocs (length l) h h' /\
    r < length h' /\
    height h' r = match l with
                  | [] => height h acc
                  | _ :: _ => Nat.max (height h acc) s + length l
                  end.
Proof.
  induction l as [|x l IH]; intros acc h Hwf Hl Hacc.
  - exists acc, h. repeat split; [apply allocs_refl|exact Hacc].
  - apply Forall_cons in Hl as [[Hx Hxh] Hl].
    destruct (add_height h acc x Hwf Hacc Hx) as (h1 & H1 & A1 & Hh1).
    assert (L1 := allocs_length _ _ _ A1).
    assert (W1 := allocs_wf _ _ _ A1 Hwf).
    destruct (IH (length h) h1 W1) as (r & h2 & H2 & A2 & Hr & Hh2).
    { apply (Forall_height_extends (fun d => d = s) h h1); auto.
      eapply allocs_extends, A1. }
    { lia. }
    exists r, h2. split; [|split; [|split; [exact Hr|]]].
    + cbn [py_sum]. rewrite (bind_Ok _ _ _ _ _ H1). exact H2.
    + apply (allocs_trans 1 (length l) h h1 h2); assumption.
    + rewrite Hh2, Hh1, Hxh. destruct l; cbn [length]; lia.
Qed.

Lemma mse_height_run h ys ps b :
  wf h -> ys <> [] -> length ys <= length ps ->
  Forall (fun r => r < length h /\ height h r <= S b) ys ->
  Forall (fun r => r < length h /\ height h r = b) ps ->
  exists loss h',
    mse ys ps h = Ok (loss, h') /\ allocs (5 * length ys + 3) h h' /\
    loss < length h' /\ height h' loss = length ys + b + 4.
Proof.
  intros Hwf Hne Hle Hys Hps. set (n := length ys).
  assert (Hn : 1 <= n) by (unfold n; destruct ys; [congruence|cbn; lia]).
  destruct (mapM_inv
              (fun i => yi <- getitem ys i ;; m <- Scalar (-1)%float ;;
                        pi <- getitem ps i ;; t <- __mul__ m pi ;; __add__ yi t)
              3 (fun r h => height h r = S (S b)) (height_stable _)
              (range n) h Hwf)
    as (errors & he & Herr & Ae & Len & Fe).
  { intros i hx [_ Hi]%elem_of_seq Hext Wx.
    apply (mse_error_height ys ps b i h); auto; lia. }
  unfold range in Len, Ae. rewrite length_seq in Len, Ae.
  assert (We := allocs_wf _ _ _ Ae Hwf).
  destruct (mapM_inv
              (fun i => e1 <- getitem errors i ;; e2 <- getitem errors i ;;
                        __mul__ e1 e2)
              1 (fun r h => height h r = S (S (S b))) (height_stable _)
              (range (length errors)) he We)
    as (se & hs & Hse & As & Lse & Fs).
  { intros i hx [_ Hi]%elem_of_seq Hext Wx.
    apply (mse_square_height errors (S (S b)) i he); auto; lia. }
  unfold range in Lse, As. rewrite length_seq in Lse, As.
  assert (Ws := allocs_wf _ _ _ As We).
  destruct (Scalar_height hs (1 / float_of_nat n)%float) as (hc & Hc & Ac & Hhc).
  assert (Wc := allocs_wf _ _ _ Ac Ws).
  destruct (Scalar_height hc 0%float) as (hz & Hz & Az & _).
  assert (Wz := allocs_wf _ _ _ Az Wc).
  assert (Lc := allocs_length _ _ _ Ac). assert (Lz := allocs_length _ _ _ Az).
  assert (Ecz := allocs_extends _ _ _ Az).
  destruct (py_sum_height (S (S (S b))) se (length hc) hz Wz)
    as (t & ht & Ht & At & Htl & Hht); [|lia|].
  { apply (Forall_height_extends (fun d => d = S (S (S b))) hs hz); auto.
    eapply extends_trans; [eapply allocs_extends, Ac|exact Ecz]. }
  assert (Hstart : height hz (length hc) = 1).
  { apply height_leaf; [lia|]. rewrite Scalar_eq in Hz. injection Hz as <-.
    apply ruleof_last. }
  assert (Lt := allocs_length _ _ _ At).
  assert (Wt := allocs_wf _ _ _ At Wz).
  assert (Ect : extends hc ht).
  { eapply extends_trans; [exact Ecz|eapply allocs_extends, At]. }
  destruct (mul_height ht (length hs) t Wt ltac:(lia) Htl) as (hr & Hr & Ar & Hhr).
  rewrite (height_extends hc ht (length hs) Wc Ect ltac:(lia)), Hhc in Hhr.
  assert (Le := allocs_length _ _ _ Ae). assert (Ls := allocs_length _ _ _ As).
  assert (Lr := allocs_length _ _ _ Ar).
  exists (length ht), hr. split; [|split; [|split; [lia|]]].
  - unfold mse. fold n. rewrite (bind_Ok _ _ _ _ _ Herr).
    rewrite (bind_Ok _ _ _ _ _ Hse). rewrite Len.
    assert (Htd : truediv 1%float n hs = Ok ((1 / float_of_nat n)%float, hs)).
    { destruct n; [lia|reflexivity]. }
    rewrite (bind_Ok _ _ _ _ _ Htd), (bind_Ok _ _ _ _ _ Hc).
    rewrite (bind_Ok _ _ _ _ _ Hz), (bind_Ok _ _ _ _ _ Ht). exact Hr.
  - replace (5 * n + 3) with (n * 3 + (length errors * 1 + (1 + (1 + (length se + 1)))))
      by lia.
    repeat (eapply allocs_trans; [eassumption|]). exact Ar.
  - rewrite Hhr, Hht, Hstart. destruct se; cbn [length] in *; lia.
Qed.

(** The call [loss.backward()] of [mse]'s result nests deeper by one call
    for every sample: when every prediction sits [b] calls deep and no
    target deeper than [b + 1], the loss sits [len(y) + b + 4] calls deep,
    so the call returns only if the interpreter has room for that many. *)
Theorem mse_height h ys ps b limit :
  wf h -> ys <> [] -> length ys <= length ps ->
  Forall (fun r => r < length h /\ height h r <= S b) ys ->
  Forall (fun r => r < length h /\ height h r = b) ps ->
  exists loss h',
    mse ys ps h = Ok (loss, h') /\
    height h' loss = length ys + b + 4 /\
    (limit < length ys + b + 4 -> backward limit loss h' = Raise RecursionError) /\
    (length ys + b + 4 <= limit -> exists h'', backward limit loss h' = Ok (tt, h'')).
Proof.
  intros Hwf Hne Hle Hys Hps.
  destruct (mse_height_run h ys ps b Hwf Hne Hle Hys Hps)
    as (loss & h' & H' & A & Hl & Hh).
  assert (W' := allocs_wf _ _ _ A Hwf).
  exists loss, h'. split; [exact H'|split; [exact Hh|]].
  destruct (backward_depth_aux (length h') limit loss h' W' Hl Hl) as [Aok Aerr].
  fold (height h' loss) in Aok, Aerr. rewrite Hh in Aok, Aerr. auto.
Qed.

Lemma epoch_within_ok limit h X y w :
  wf h -> w < length h -> is_leaf h w ->
  Forall (fun r => r < length h /\ is_leaf h r) X ->
  Forall (fun r => r < length h /\ height h r <= 3) y ->
  y <> [] -> length y <= length X ->
  (limit < length y + 6 -> epoch_within limit X y w h = Raise RecursionError) /\
  (length y + 6 <= limit -> epoch_within limit X y w h = epoch X y w h).
Proof.
  intros Hwf Hw Hwl HX Hy Hne Hle.
  assert (HX' : Forall (fun r => r < length h) X).
  { eapply Forall_impl; [exact HX|]. cbn. tauto. }
  destruct (forward_run h X w Hw HX') as (h1 & Hf & A1 & E1).
  assert (L1 := allocs_length _ _ _ A1).
  assert (X1 := allocs_extends _ _ _ A1).
  assert (W1 := allocs_wf _ _ _ A1 Hwf).
  assert (Hps : Forall (fun r => r < length h1 /\ height h1 r = 2)
                  (seq (length h) (length X))).
  { apply Forall_forall. intros r [Hr1 Hr2]%elem_of_seq.
    destruct (lookup_lt_is_Some_2 X (r - length h) ltac:(lia)) as [x Hx].
    destruct (Forall_lookup_1 _ _ _ _ HX Hx) as [Hx0 Hxl].
    specialize (E1 _ _ Hx). replace (length h + (r - length h)) with r in E1 by lia.
    split; [lia|].
    rewrite (height_op h1 r w x r W1 ltac:(lia)).
    - rewrite (height_extends h h1 w Hwf X1 Hw), (height_extends h h1 x Hwf X1 Hx0).
      rewrite (height_leaf h w Hw Hwl), (height_leaf h x Hx0 Hxl). reflexivity.
    - right. unfold ruleof. rewrite E1. reflexivity. }
  destruct (mse_height_run h1 y (seq (length h) (length X)) 2 W1 Hne)
    as (loss & h2 & Hm & A2 & Hl & Hh).
  { rewrite length_seq. exact Hle. }
  { apply (Forall_height_extends (fun d => d <= 3) h h1); auto. }
  { exact Hps. }
  assert (L2 := allocs_length _ _ _ A2).
  assert (W2 := allocs_wf _ _ _ A2 W1).
  destruct (set_grad_ok h2 w 0%float ltac:(lia)) as (h3 & H3 & G3).
  assert (L3 := graph_of_length _ _ G3).
  destruct (set_grad_ok h3 loss 1%float ltac:(lia)) as (h4 & H4 & G4).
  assert (L4 := graph_of_length _ _ G4).
  assert (W4 : wf h4) by (apply (graph_of_wf h3), (graph_of_wf h2); auto).
  assert (Hh4 : height h4 loss = length y + 6).
  { rewrite (height_graph_of h3 h4 _ G4), (height_graph_of h2 h3 _ G3). lia. }
  assert (Hn : 1 <= length y) by (destruct y; [congruence|cbn; lia]).
  split; intros Hlim.
  - unfold epoch_within.
    rewrite (bind_Ok _ _ _ _ _ Hf), (bind_Ok _ _ _ _ _ Hm).
    rewrite (bind_Ok _ _ _ _ _ H3), (bind_Ok _ _ _ _ _ H4).
    apply bind_Raise.
    apply (backward_depth_aux (length h4) limit loss h4 W4); try lia.
    fold (height h4 loss). lia.
  - destruct (backward_depth_aux (length h4) (length y + 6) loss h4 W4
                ltac:(lia) ltac:(lia)) as [Aok _].
    destruct Aok as [h5 H5]; [fold (height h4 loss); lia|].
    assert (Ha := backward_fuel_mono (length y + 6) limit loss h4 h5 W4
                  ltac:(lia) Hlim H5).
    assert (Hb : call_backward loss h4 = Ok (tt, h5)).
    { apply (backward_fuel_mono (length y + 6) (length h4)); auto; lia. }
    unfold epoch_within, epoch.
    rewrite !(bind_Ok _ _ _ _ _ Hf), !(bind_Ok _ _ _ _ _ Hm).
    rewrite !(bind_Ok _ _ _ _ _ H3), !(bind_Ok _ _ _ _ _ H4).
    rewrite (bind_Ok _ _ _ _ _ Ha), (bind_Ok _ _ _ _ _ Hb). reflexivity.
Qed.

Lemma train_within_ok limit epochs h X y w :
  wf h -> w < length h -> is_leaf h w ->
  Forall (fun r => r < length h /\ is_leaf h r) X ->
  Forall (fun r => r < length h /\ height h r <= 3) y ->
  y <> [] -> length y <= length X ->
  (limit < length y + 6 ->
     train_within limit (S epochs) X y w h = Raise RecursionError) /\
  (length y + 6 <= limit ->
     train_within limit epochs X y w h = train epochs X y w h).
Proof.
  intros Hwf Hw Hwl HX Hy Hne Hle. split; intros Hlim.
  - cbn [train_within]. apply bind_Raise.
    apply (epoch_within_ok limit h X y w); assumption.
  - revert h Hwf Hw Hwl HX Hy.
    induction epochs as [|k IH]; intros h Hwf Hw Hwl HX Hy; [reflexivity|].
    cbn [train_within train].
    destruct (epoch_within_ok limit h X y w Hwf Hw Hwl HX Hy Hne Hle) as [_ B].
    specialize (B Hlim).
    destruct (epoch_ok h X y w Hwf Hw) as (h1 & H1 & L1 & W1 & R1 & _); auto.
    { eapply Forall_impl; [exact HX|]. cbn. tauto. }
    { eapply Forall_impl; [exact Hy|]. cbn. tauto. }
    rewrite (bind_Ok _ _ _ _ _ H1). rewrite <- B in H1.
    rewrite (bind_Ok _ _ _ _ _ H1).
    apply IH; auto.
    + lia.
    + unfold is_leaf. rewrite R1 by exact Hw. exact Hwl.
    + eapply Forall_impl; [exact HX|]. intros r [Hr Hrl]. split; [lia|].
      unfold is_leaf. rewrite R1 by exact Hr. exact Hrl.
    + eapply Forall_impl; [exact Hy|]. intros r [Hr Hrh]. split; [lia|].
      rewrite (height_ruleof_ext h h1 r Hwf ltac:(lia) R1 Hr). exact Hrh.
Qed.

(** How much room for nested calls the training loop needs:
    [loss.backward()] goes [len(y) + 6] calls deep when [w] and the inputs
    are leaves and no target sits deeper than 3 (as
    [W * X[i] + Scalar(...)] does). With less room the first epoch raises
    [RecursionError]; with that much or more the loop runs as with an
    unbounded stack, for any number of epochs: the depth does not grow from
    one epoch to the next. *)
Theorem train_recursion_limit limit epochs h X y w :
  wf h -> w < length h -> is_leaf h w ->
  Forall (fun r => r < length h /\ is_leaf h r) X ->
  Forall (fun r => r < length h /\ height h r <= 3) y ->
  y <> [] -> length y <= length X ->
  (limit < length y + 6 ->
     train_within limit (S epochs) X y w h = Raise RecursionError) /\
  (length y + 6 <= limit ->
     train_within limit epochs X y w h = train epochs X y w h).
Proof. apply train_within_ok. Qed.

(** ** The notebook as a whole *)

Lemma is_leaf_stable :
  forall r h1 h2, wf h1 -> r < length h1 -> extends h1 h2 ->
    is_leaf h1 r -> is_leaf h2 r.
Proof.
  intros r h1 h2 _ Hr E Hl. unfold is_leaf.
  rewrite (extends_ruleof h1 h2 r E Hr). exact Hl.
Qed.

Lemma target_height W X (noise : nat -> float) i h :
  wf h -> W < length h -> is_leaf h W ->
  Forall (fun r => r < length h /\ is_leaf h r) X -> i < length X ->
  forall h1, extends h h1 -> wf h1 ->
  exists r h2,
    (x <- getitem X i ;; t <- __mul__ W x ;; e <- Scalar (noise i) ;;
     __add__ t e) h1 = Ok (r, h2) /\
    allocs 3 h1 h2 /\ r < length h2 /\ height h2 r = 3.
Proof.
  intros Hwf HW HWl HX Hi h1 Hext W1.
  destruct (lookup_lt_is_Some_2 X i Hi) as [x Hx].
  destruct (Forall_lookup_1 _ _ _ _ HX Hx) as [Hx0 Hxl].
  assert (L1 := extends_length _ _ Hext).
  destruct (mul_height h1 W x W1 ltac:(lia) ltac:(lia)) as (ha & Ht & Aa & Hta).
  rewrite (height_extends h h1 W Hwf Hext HW) in Hta.
  rewrite (height_extends h h1 x Hwf Hext Hx0) in Hta.
  rewrite (height_leaf h W HW HWl), (height_leaf h x Hx0 Hxl) in Hta.
  assert (La := allocs_length _ _ _ Aa).
  assert (Wa := allocs_wf _ _ _ Aa W1).
  destruct (Scalar_height ha (noise i)) as (hb & He & Ab & Heb).
  assert (Lb := allocs_length _ _ _ Ab).
  assert (Wb := allocs_wf _ _ _ Ab Wa).
  destruct (add_height hb (length h1) (length ha) Wb ltac:(lia) ltac:(lia))
    as (hc & Hr & Ac & Hrc).
  assert (Lc := allocs_length _ _ _ Ac).
  rewrite (height_extends ha hb (length h1) Wa (allocs_extends _ _ _ Ab)
             ltac:(lia)), Hta, Heb in Hrc.
  exists (length hb), hc. split; [|split; [|split; [lia|exact Hrc]]].
  - rewrite (bind_Ok _ _ _ _ _ (getitem_eq _ _ _ _ Hx)).
    rewrite (bind_Ok _ _ _ _ _ Ht), (bind_Ok _ _ _ _ _ He). exact Hr.
  - apply (allocs_trans 2 1 h1 hb hc); [|exact Ac].
    apply (allocs_trans 1 1 h1 ha hb); assumption.
Qed.

Lemma wf_nil : wf ([] : heap float).
Proof. intros i Hi. cbn in Hi. lia. Qed.

(* What the data cells leave. *)
Lemma dataset_ok w0 xs noise :
  exists X y h,
    dataset w0 xs noise [] = Ok ((0, X, y), h) /\
    length h = 2 + 4 * length xs /\ wf h /\ is_leaf h 0 /\
    length X = length xs /\ length y = length xs /\
    Forall (fun r => r < length h /\ is_leaf h r) X /\
    Forall (fun r => r < length h /\ height h r <= 3) y.
Proof.
  destruct (Scalar_allocs [] w0) as (h1 & H1 & A1 & _).
  assert (L1 := allocs_length _ _ _ A1). cbn [length] in H1, L1.
  assert (W1 := allocs_wf _ _ _ A1 wf_nil).
  assert (Rw : is_leaf h1 0).
  { rewrite Scalar_eq in H1. injection H1 as <-. reflexivity. }
  destruct (mapM_inv Scalar 1 (fun r h => is_leaf h r) is_leaf_stable xs h1 W1)
    as (X & h2 & H2 & A2 & LX & F2).
  { intros v hx _ _ Wx. destruct (Scalar_allocs hx v) as (hy & Hy & Ay & _).
    exists (length hx), hy. split; [exact Hy|split; [exact Ay|split]].
    - rewrite (allocs_length _ _ _ Ay). lia.
    - rewrite Scalar_eq in Hy. injection Hy as <-. apply ruleof_last. }
  assert (L2 := allocs_length _ _ _ A2).
  assert (W2 := allocs_wf _ _ _ A2 W1).
  assert (E2 := allocs_extends _ _ _ A2).
  destruct (Scalar_allocs h2 7%float) as (h3 & H3 & A3 & _).
  assert (L3 := allocs_length _ _ _ A3).
  assert (W3 := allocs_wf _ _ _ A3 W2).
  assert (E3 := allocs_extends _ _ _ A3).
  assert (RW : is_leaf h3 (length h2)).
  { rewrite Scalar_eq in H3. injection H3 as <-. apply ruleof_last. }
  assert (F3 : Forall (fun r => r < length h3 /\ is_leaf h3 r) X).
  { eapply Forall_impl; [exact F2|]. intros r [Hr Hl]. split; [lia|].
    apply (is_leaf_stable r h2 h3); auto. }
  destruct (mapM_inv
              (fun i => x <- getitem X i ;; t <- __mul__ (length h2) x ;;
                        e <- Scalar (noise i) ;; __add__ t e)
              3 (fun r h => height h r = 3) (height_stable _)
              (range (length X)) h3 W3)
    as (y & h4 & H4 & A4 & Ly & F4).
  { intros i hx [_ Hi]%elem_of_seq Hext Wx.
    apply (target_height (length h2) X noise i h3); auto; lia. }
  unfold range in A4, Ly. rewrite length_seq in A4, Ly.
  assert (L4 := allocs_length _ _ _ A4).
  assert (E4 := allocs_extends _ _ _ A4).
  exists X, y, h4. split; [|split; [lia|split; [|split; [|split; [|split; [|split]]]]]].
  - unfold dataset. rewrite (bind_Ok _ _ _ _ _ H1), (bind_Ok _ _ _ _ _ H2).
    rewrite (bind_Ok _ _ _ _ _ H3), (bind_Ok _ _ _ _ _ H4). reflexivity.
  - apply (allocs_wf _ _ _ A4 W3).
  - apply (is_leaf_stable 0 h3 h4); auto; [lia|].
    apply (is_leaf_stable 0 h2 h3); auto; [lia|].
    apply (is_leaf_stable 0 h1 h2); auto. lia.
  - exact LX.
  - lia.
  - eapply Forall_impl; [exact F3|]. intros r [Hr Hl]. split; [lia|].
    apply (is_leaf_stable r h3 h4); auto.
  - eapply Forall_impl; [exact F4|]. cbn. intros r [Hr ->]. split; [exact Hr|lia].
Qed.

(** The data cells and the training loop, run on an empty store with at
    least one input: whatever the random draws, the number of epochs and the
    input values, the run raises no exception and returns [w], which is
    the first object and still a leaf; after [n] inputs and [e] epochs
    the store holds [2 + 4 * n + e * (6 * n + 3)] objects. *)
Theorem notebook_runs w0 xs noise epochs :
  xs <> [] ->
  exists h',
    notebook w0 xs noise epochs [] = Ok (0, h') /\
    length h' = 2 + 4 * length xs + epochs * (6 * length xs + 3) /\
    wf h' /\ is_leaf h' 0.
Proof.
  intros Hne.
  destruct (dataset_ok w0 xs noise)
    as (X & y & h & Hd & L & W & Hl & LX & Ly & FX & Fy).
  destruct (train_ok epochs h X y 0) as (h5 & H5 & L5 & W5 & R5 & _); auto.
  { lia. }
  { eapply Forall_impl; [exact FX|]. cbn. tauto. }
  { eapply Forall_impl; [exact Fy|]. cbn. tauto. }
  { intros ->. destruct xs; [congruence|]. cbn in *. lia. }
  { lia. }
  exists h5. split; [|split; [|split; [exact W5|]]].
  - unfold notebook. rewrite (bind_Ok _ _ _ _ _ Hd). cbn [fst snd].
    rewrite (bind_Ok _ _ _ _ _ H5). reflexivity.
  - rewrite L5, L, Ly, LX. lia.
  - unfold is_leaf. rewrite R5 by lia. exact Hl.
Qed.

(** With no inputs the run stops in the first epoch: [y] is empty and
    [mse] divides by zero. With no epochs it returns at once. *)
Theorem notebook_without_inputs w0 noise epochs :
  notebook w0 [] noise (S epochs) [] = Raise ZeroDivisionError /\
  exists h', notebook w0 [] noise 0 [] = Ok (0, h') /\ length h' = 2.
Proof. split; [reflexivity|]. eexists. split; reflexivity. Qed.

(** The room for nested calls the notebook needs grows with the data,
    not with the number of epochs: with [n > 0] inputs, [loss.backward()]
    goes [n + 6] calls deep. With less room the first epoch raises
    [RecursionError]; with that much or more the run is the same as with an
    unbounded stack. *)
Theorem notebook_recursion_limit limit w0 xs noise epochs :
  xs <> [] ->
  (limit < length xs + 6 ->
     notebook_within limit w0 xs noise (S epochs) [] = Raise RecursionError) /\
  (length xs + 6 <= limit ->
     notebook_within limit w0 xs noise epochs [] = notebook w0 xs noise epochs []).
Proof.
  intros Hne.
  destruct (dataset_ok w0 xs noise)
    as (X & y & h & Hd & L & W & Hl & LX & Ly & FX & Fy).
  assert (Hy : y <> []).
  { intros ->. destruct xs; [congruence|]. cbn in *. lia. }
  unfold notebook_within, notebook. rewrite !(bind_Ok _ _ _ _ _ Hd). cbn [fst snd].
  split; intros Hlim.
  - apply bind_Raise.
    apply (train_within_ok limit epochs h X y 0); auto; lia.
  - apply bind_cong.
    apply (train_within_ok limit epochs h X y 0); auto; lia.
Qed.


End HelperDepth.

(** * What [loss.backward()] leaves in [w.grad] *)

Section LossGraph.
Context {R : Type} {AR : Arith R}.
Variables (m1 rc : R) (g : heap R) (L N n : nat) (w : ref) (xs ys : nat -> ref).
Hypothesis LG : loss_graph m1 g L N n w xs ys rc.
Implicit Types (H : heap R) (i j k f : nat).

Local Abbreviation P i := (L + i).
Local Abbreviation Mn i := (L + N + 3 * i).
Local Abbreviation T i := (L + N + 3 * i + 1).
Local Abbreviation E i := (L + N + 3 * i + 2).
Local Abbreviation Sq i := (L + N + 3 * n + i).
Local Abbreviation C := (L + N + 3 * n + n).
Local Abbreviation Acc k := (L + N + 3 * n + n + 1 + k).
Local Abbreviation Loss := (L + N + 3 * n + n + n + 2).
Ltac open_LG :=
  let X := fresh in
  pose proof LG as X;
  destruct X as [Wg Len Hn [Hw Hwl] Hx Hy Rp Rm Rt Re Rs [Rcl Rcv] Rst Racc Rloss];
  unfold is_leaf in *.

Ltac on_H G :=
  pose proof (graph_of_length _ _ G) as HlenH;
  pose proof (fun m => graph_of_ruleof _ _ m G) as RH;
  pose proof (fun m => graph_of_valof _ _ m G) as VH.

Lemma backward_leaf f H r :
  0 < f -> r < length H -> ruleof H r = LambdaNone -> backward f r H = Ok (tt, H).
Proof.
  intros Hf Hr Hc. destruct f as [|f]; [lia|]. cbn [backward].
  rewrite (bind_Ok _ _ _ _ _ (get_backward_eq _ _ Hr)), Hc. reflexivity.
Qed.

Lemma p_fire i f H :
  i < n -> graph_of H = graph_of g -> P i < f ->
  exists H', backward f (P i) H = Ok (tt, H') /\ graph_of H' = graph_of g /\
    gradof H' w = gradof H w [+] valof g (xs i) [*] gradof H (P i) /\
    forall j, L <= j -> gradof H' j = gradof H j.
Proof using LG.
  intros Hi G Hf. open_LG. on_H G.
  destruct (Hx i Hi) as (Hxi & Hxl & Hxw).
  destruct f as [|f]; [lia|].
  rewrite (backward_S_mul f (P i) H w (xs i) (P i)) by (rewrite ?RH; auto; lia).
  set (H1 := bump w _ H). set (H2 := bump (xs i) _ H1).
  assert (L1 : length H1 = length H) by apply length_bump.
  assert (L2 : length H2 = length H) by (unfold H2; rewrite length_bump; exact L1).
  assert (G2 : graph_of H2 = graph_of H)
    by (unfold H2, H1; rewrite !graph_of_bump; reflexivity).
  exists H2. split; [|split; [congruence|split]].
  - rewrite (bind_Ok _ _ _ _ _ (backward_leaf f H2 w ltac:(lia) ltac:(lia)
               ltac:(rewrite (graph_of_ruleof _ _ _ G2), RH; exact Hwl))).
    apply backward_leaf; [lia|lia|].
    rewrite (graph_of_ruleof _ _ _ G2), RH. exact Hxl.
  - unfold H2. rewrite gradof_bump by lia.
    destruct (decide (w = xs i)) as [Heq|_]; [congruence|].
    unfold H1. rewrite gradof_bump by lia.
    destruct (decide (w = w)) as [_|]; [|congruence].
    rewrite VH. reflexivity.
  - intros j Hj. unfold H2. rewrite gradof_bump by lia.
    destruct (decide (j = xs i)) as [Heq|_]; [lia|].
    unfold H1. rewrite gradof_bump by lia.
    destruct (decide (j = w)) as [Heq|_]; [lia|]. reflexivity.
Qed.

Ltac grad_bumps :=
  repeat (rewrite gradof_bump by (rewrite ?length_bump; lia));
  repeat match goal with
         | |- context [decide (?a = ?b)] =>
             destruct (decide (a = b)) as [?|?]; try lia
         end.

Lemma t_fire i f H :
  i < n -> graph_of H = graph_of g -> T i < f ->
  exists H', backward f (T i) H = Ok (tt, H') /\ graph_of H' = graph_of g /\
    gradof H' w = gradof H w [+]
      valof g (xs i) [*] (gradof H (P i) [+] m1 [*] gradof H (T i)) /\
    gradof H' (P i) = gradof H (P i) [+] m1 [*] gradof H (T i) /\
    forall j, L <= j -> j <> Mn i -> j <> P i -> gradof H' j = gradof H j.
Proof using LG.
  intros Hi G Hf. open_LG. on_H G.
  destruct (Rm i Hi) as [Rml Rmv].
  destruct f as [|f]; [lia|].
  rewrite (backward_S_mul f (T i) H (Mn i) (P i) (T i))
    by (rewrite ?RH; auto; lia).
  set (H1 := bump (Mn i) _ H). set (H2 := bump (P i) _ H1).
  assert (L1 : length H1 = length H) by apply length_bump.
  assert (L2 : length H2 = length H) by (unfold H2; rewrite length_bump; exact L1).
  assert (G2 : graph_of H2 = graph_of g)
    by (unfold H2, H1; rewrite !graph_of_bump; exact G).
  destruct (p_fire i f H2 Hi G2 ltac:(lia)) as (H3 & B3 & G3 & W3 & F3).
  exists H3. split; [|split; [exact G3|split; [|split]]].
  - rewrite (bind_Ok _ _ _ _ _ (backward_leaf f H2 (Mn i) ltac:(lia) ltac:(lia)
               ltac:(rewrite (graph_of_ruleof _ _ _ G2); exact Rml))).
    exact B3.
  - rewrite W3. unfold H2, H1. grad_bumps. rewrite VH, Rmv. reflexivity.
  - rewrite F3 by lia. unfold H2, H1. grad_bumps. rewrite VH, Rmv. reflexivity.
  - intros j Hj Hjm Hjp. rewrite F3 by lia. unfold H2, H1. grad_bumps.
    reflexivity.
Qed.

(** The backward call of a target reaches neither [w] nor any object of the
    loss graph. *)
Lemma y_frame i f H H' :
  i < n -> graph_of H = graph_of g -> ys i < f ->
  backward f (ys i) H = Ok (tt, H') ->
  gradof H' w = gradof H w /\ forall j, L <= j -> gradof H' j = gradof H j.
Proof using LG.
  intros Hi G Hf B. open_LG. on_H G.
  destruct (Hy i Hi) as [Hyi Hyw].
  assert (WH : wf H) by (eapply graph_of_wf; eauto).
  split.
  - apply (backward_frame f (ys i) H H' w WH ltac:(lia) Hf B).
    intros p Hp Hin. apply Hyw.
    apply events_reaches in Hp.
    apply (reaches_ext H g) in Hp; [|symmetry; exact G].
    eapply reaches_trans; [exact Hp|].
    eapply reaches_step; [|constructor].
    rewrite <- (operands_ext _ _ p G). exact Hin.
  - intros j Hj.
    apply (backward_frame f (ys i) H H' j WH ltac:(lia) Hf B).
    intros p Hp Hin.
    assert (Hle : p <= ys i) by (eapply events_le; eauto; lia).
    unfold operands in Hin.
    destruct (ruleof H p) as [|a b c|a b c] eqn:Hc; cbn in Hin.
    + apply elem_of_nil in Hin. contradiction.
    + destruct (wf_operands H p a b c WH ltac:(lia) (or_introl Hc)) as (Ha & Hb & _).
      apply elem_of_cons in Hin as [->|Hin]; [lia|].
      apply list_elem_of_singleton in Hin as ->. lia.
    + destruct (wf_operands H p a b c WH ltac:(lia) (or_intror Hc)) as (Ha & Hb & _).
      apply elem_of_cons in Hin as [->|Hin]; [lia|].
      apply list_elem_of_singleton in Hin as ->. lia.
Qed.

Lemma e_fire i f H :
  i < n -> graph_of H = graph_of g -> E i < f ->
  exists H', backward f (E i) H = Ok (tt, H') /\ graph_of H' = graph_of g /\
    gradof H' w = gradof H w [+]
      valof g (xs i) [*]
        (gradof H (P i) [+] m1 [*] (gradof H (T i) [+] gradof H (E i))) /\
    gradof H' (P i) =
      gradof H (P i) [+] m1 [*] (gradof H (T i) [+] gradof H (E i)) /\
    gradof H' (T i) = gradof H (T i) [+] gradof H (E i) /\
    forall j, L <= j -> j <> Mn i -> j <> P i -> j <> T i ->
      gradof H' j = gradof H j.
Proof using LG.
  intros Hi G Hf. open_LG. on_H G.
  destruct (Hy i Hi) as [Hyi Hyw].
  assert (Hyne : ys i <> w) by (intros Heq; apply Hyw; rewrite Heq; constructor).
  destruct f as [|f]; [lia|].
  rewrite (backward_S_add f (E i) H (ys i) (T i) (E i))
    by (rewrite ?RH; auto; lia).
  set (H1 := bump (ys i) _ H). set (H2 := bump (T i) _ H1).
  assert (L1 : length H1 = length H) by apply length_bump.
  assert (L2 : length H2 = length H) by (unfold H2; rewrite length_bump; exact L1).
  assert (G2 : graph_of H2 = graph_of g)
    by (unfold H2, H1; rewrite !graph_of_bump; exact G).
  assert (W2 : wf H2) by (eapply graph_of_wf; eauto).
  destruct (backward_total f (ys i) H2 W2 ltac:(lia) ltac:(lia)) as [H3 B3].
  assert (G3 : graph_of H3 = graph_of g).
  { rewrite (backward_graph_of _ _ _ _ B3). exact G2. }
  destruct (y_frame i f H2 H3 Hi G2 ltac:(lia) B3) as [Yw Yf].
  destruct (t_fire i f H3 Hi G3 ltac:(lia)) as (H4 & B4 & G4 & W4 & P4 & F4).
  assert (T2 : gradof H2 (T i) = gradof H (T i) [+] gradof H (E i)).
  { unfold H2, H1. grad_bumps. reflexivity. }
  assert (P2 : gradof H2 (P i) = gradof H (P i)).
  { unfold H2, H1. grad_bumps. reflexivity. }
  assert (Wg2 : gradof H2 w = gradof H w).
  { unfold H2, H1. grad_bumps. reflexivity. }
  exists H4. split; [|split; [exact G4|split; [|split; [|split]]]].
  - rewrite (bind_Ok _ _ _ _ _ B3). exact B4.
  - rewrite W4, Yw, !Yf, Wg2, P2, T2 by lia. reflexivity.
  - rewrite P4, !Yf, P2, T2 by lia. reflexivity.
  - rewrite F4, Yf, T2 by lia. reflexivity.
  - intros j Hj Hjm Hjp Hjt. rewrite F4, Yf by lia.
    unfold H2, H1. grad_bumps. reflexivity.
Qed.

Lemma s_fire i f H :
  i < n -> graph_of H = graph_of g -> Sq i < f ->
  gradof H (E i) = n0 -> gradof H (T i) = n0 -> gradof H (P i) = n0 ->
  exists H', backward f (Sq i) H = Ok (tt, H') /\ graph_of H' = graph_of g /\
    gradof H' w =
      sample_flow m1 (gradof H w) (gradof H (Sq i)) (valof g (E i))
        (valof g (xs i)) /\
    forall j, L <= j -> j <> Mn i -> j <> P i -> j <> T i -> j <> E i ->
      gradof H' j = gradof H j.
Proof using LG.
  intros Hi G Hf Ze Zt Zp. open_LG. on_H G.
  destruct f as [|f]; [lia|].
  rewrite (backward_S_mul f (Sq i) H (E i) (E i) (Sq i))
    by (rewrite ?RH; auto; lia).
  set (H1 := bump (E i) _ H). set (H2 := bump (E i) _ H1).
  assert (L1 : length H1 = length H) by apply length_bump.
  assert (L2 : length H2 = length H) by (unfold H2; rewrite length_bump; exact L1).
  assert (G2 : graph_of H2 = graph_of g)
    by (unfold H2, H1; rewrite !graph_of_bump; exact G).
  assert (E2 : gradof H2 (E i) =
               n0 [+] valof g (E i) [*] gradof H (Sq i)
                  [+] valof g (E i) [*] gradof H (Sq i)).
  { unfold H2, H1. grad_bumps. rewrite Ze, !VH. reflexivity. }
  assert (T2 : gradof H2 (T i) = n0).
  { unfold H2, H1. grad_bumps. exact Zt. }
  assert (P2 : gradof H2 (P i) = n0).
  { unfold H2, H1. grad_bumps. exact Zp. }
  assert (Wg2 : gradof H2 w = gradof H w).
  { unfold H2, H1. grad_bumps. reflexivity. }
  destruct (e_fire i f H2 Hi G2 ltac:(lia)) as (H3 & B3 & G3 & W3 & P3 & T3 & F3).
  destruct (e_fire i f H3 Hi G3 ltac:(lia)) as (H4 & B4 & G4 & W4 & P4 & T4 & F4).
  exists H4. split; [|split; [exact G4|split]].
  - rewrite (bind_Ok _ _ _ _ _ B3). exact B4.
  - rewrite W4, W3, P3, T3, (F3 (E i)), Wg2, P2, T2, E2 by lia. reflexivity.
  - intros j Hj Hjm Hjp Hjt Hje. rewrite F4, F3 by lia.
    unfold H2, H1. grad_bumps. reflexivity.
Qed.

(** The objects the chain of partial sums below [Acc k] reaches. *)
Local Abbreviation below k j :=
  ((L <= j < L + k) \/ (L + N <= j < L + N + 3 * k) \/
   (L + N + 3 * n <= j < L + N + 3 * n + k) \/
   (L + N + 3 * n + n + 1 <= j < L + N + 3 * n + n + 1 + k)).

Lemma chain_fire : forall k f H,
  k <= n -> graph_of H = graph_of g -> Acc k < f ->
  (forall j, below k j -> gradof H j = n0) ->
  exists H', backward f (Acc k) H = Ok (tt, H') /\ graph_of H' = graph_of g /\
    gradof H' w =
      chain_flow m1 (fun i => valof g (E i)) (fun i => valof g (xs i)) k
        (gradof H (Acc k)) (gradof H w) /\
    forall j, L <= j -> ~ below k j -> gradof H' j = gradof H j.
Proof using LG.
  induction k as [|k IH]; intros f H Hk G Hf Z; open_LG; on_H G.
  - exists H. split; [|split; [exact G|split]].
    + apply backward_leaf; [lia|lia|].
      rewrite RH. replace (Acc 0) with (C + 1) by lia. exact Rst.
    + reflexivity.
    + auto.
  - destruct f as [|f]; [lia|].
    replace (Acc (S k)) with (C + 2 + k) by lia.
    rewrite (backward_S_add f (C + 2 + k) H (Acc k) (Sq k) (C + 2 + k))
      by (rewrite ?RH; auto; lia).
    set (H1 := bump (Acc k) _ H). set (H2 := bump (Sq k) _ H1).
    assert (L1 : length H1 = length H) by apply length_bump.
    assert (L2 : length H2 = length H)
      by (unfold H2; rewrite length_bump; exact L1).
    assert (G2 : graph_of H2 = graph_of g)
      by (unfold H2, H1; rewrite !graph_of_bump; exact G).
    assert (A2 : gradof H2 (Acc k) = n0 [+] gradof H (C + 2 + k)).
    { unfold H2, H1. grad_bumps. rewrite (Z (Acc k)) by lia. reflexivity. }
    assert (S2 : gradof H2 (Sq k) = n0 [+] gradof H (C + 2 + k)).
    { unfold H2, H1. grad_bumps. rewrite (Z (Sq k)) by lia. reflexivity. }
    assert (O2 : forall j, j <> Acc k -> j <> Sq k -> gradof H2 j = gradof H j).
    { intros j Hja Hjs. unfold H2, H1. grad_bumps. reflexivity. }
    destruct (IH f H2 ltac:(lia) G2 ltac:(lia)) as (H3 & B3 & G3 & W3 & F3).
    { intros j Hj. rewrite O2 by lia. apply Z. lia. }
    destruct (s_fire k f H3 ltac:(lia) G3 ltac:(lia))
      as (H4 & B4 & G4 & W4 & F4).
    { rewrite F3, O2 by lia. apply Z. lia. }
    { rewrite F3, O2 by lia. apply Z. lia. }
    { rewrite F3, O2 by lia. apply Z. lia. }
    exists H4. split; [|split; [exact G4|split]].
    + rewrite (bind_Ok _ _ _ _ _ B3). exact B4.
    + rewrite W4, W3, (F3 (Sq k)), A2, S2, (O2 w) by lia.
      cbn [chain_flow]. reflexivity.
    + intros j Hj Hnb. rewrite F4, F3, O2 by lia. reflexivity.
Qed.

(** The backward call of the loss: the factor times the seed goes to the
    last partial sum, and the chain hands it down to every sample. *)
Lemma loss_fire H :
  graph_of H = graph_of g ->
  (forall j, L <= j -> j < Loss -> gradof H j = n0) ->
  exists H', call_backward Loss H = Ok (tt, H') /\ graph_of H' = graph_of g /\
    gradof H' w =
      chain_flow m1 (fun i => valof g (E i)) (fun i => valof g (xs i)) n
        (n0 [+] rc [*] gradof H Loss) (gradof H w).
Proof using LG.
  intros G Z. open_LG. on_H G.
  unfold call_backward. destruct (length H) as [|f] eqn:Ef; [lia|].
  rewrite (backward_S_mul f Loss H C (Acc n) Loss)
    by (rewrite ?RH; auto; lia).
  set (H1 := bump C _ H). set (H2 := bump (Acc n) _ H1).
  assert (L1 : length H1 = length H) by apply length_bump.
  assert (L2 : length H2 = length H) by (unfold H2; rewrite length_bump; exact L1).
  assert (G2 : graph_of H2 = graph_of g)
    by (unfold H2, H1; rewrite !graph_of_bump; exact G).
  assert (A2 : gradof H2 (Acc n) = n0 [+] rc [*] gradof H Loss).
  { unfold H2, H1. grad_bumps. rewrite (Z (Acc n)), VH, Rcv by lia. reflexivity. }
  assert (O2 : forall j, j <> Acc n -> j <> C -> gradof H2 j = gradof H j).
  { intros j Hja Hjs. unfold H2, H1. grad_bumps. reflexivity. }
  destruct (chain_fire n f H2 ltac:(lia) G2 ltac:(lia))
    as (H3 & B3 & G3 & W3 & F3).
  { intros j Hj. rewrite O2 by lia. apply Z; lia. }
  exists H3. split; [|split; [exact G3|]].
  - rewrite (bind_Ok _ _ _ _ _ (backward_leaf f H2 C ltac:(lia) ltac:(lia)
               ltac:(rewrite (graph_of_ruleof _ _ _ G2); exact Rcl))).
    exact B3.
  - rewrite W3, A2, (O2 w) by lia. reflexivity.
Qed.

End LossGraph.

(** * Where [forward] and [mse] put their objects *)

Section LossLayout.
Context {R : Type} {AR : Arith R}.
Implicit Types (h : heap R) (l X y : list ref).

Lemma allocs0_refl h : allocs0 0 h h.
Proof. exists []. rewrite app_nil_r. repeat split; auto. Qed.

Lemma allocs0_trans j k h1 h2 h3 :
  allocs0 j h1 h2 -> allocs0 k h2 h3 -> allocs0 (j + k) h1 h3.
Proof.
  intros (t1 & -> & L1 & Z1 & W1) (t2 & -> & L2 & Z2 & W2).
  exists (t1 ++ t2). rewrite app_assoc, length_app.
  repeat split; auto. apply Forall_app. auto.
Qed.

Lemma allocs0_extends k h h' : allocs0 k h h' -> extends h h'.
Proof. intros (t & -> & _). exists t. reflexivity. Qed.

Lemma allocs0_length k h h' : allocs0 k h h' -> length h' = length h + k.
Proof. intros (t & -> & <- & _). apply length_app. Qed.

Lemma allocs0_wf k h h' : allocs0 k h h' -> wf h -> wf h'.
Proof. intros (t & _ & _ & _ & W). exact W. Qed.

Lemma allocs0_zero k h h' j : allocs0 k h h' -> length h <= j -> gradof h' j = n0.
Proof.
  intros (t & -> & _ & Z & _) Hj. unfold gradof.
  rewrite lookup_app_r by exact Hj.
  destruct (t !! (j - length h)) as [nd|] eqn:E; [|reflexivity].
  exact (Forall_lookup_1 _ _ _ _ Z E).
Qed.

Lemma extends_lookup h h' j nd : extends h h' -> h !! j = Some nd -> h' !! j = Some nd.
Proof. intros [t ->] E. apply lookup_app_l_Some, E. Qed.

Lemma reaches_extends h h' r m :
  wf h -> extends h h' -> r < length h -> reaches h' r m -> reaches h r m.
Proof.
  intros Hwf Hext Hr Hm. induction Hm as [n|r m n Hin _ IH]; [constructor|].
  unfold operands in Hin. rewrite (extends_ruleof h h' r Hext Hr) in Hin.
  assert (Hlt : m < r).
  { destruct (ruleof h r) as [|a b c|a b c] eqn:Hc; cbn in Hin.
    - apply elem_of_nil in Hin. contradiction.
    - destruct (wf_operands h r a b c Hwf Hr (or_introl Hc)) as (Ha & Hb & _).
      apply elem_of_cons in Hin as [->|Hin]; [lia|].
      apply list_elem_of_singleton in Hin as ->. lia.
    - destruct (wf_operands h r a b c Hwf Hr (or_intror Hc)) as (Ha & Hb & _).
      apply elem_of_cons in Hin as [->|Hin]; [lia|].
      apply list_elem_of_singleton in Hin as ->. lia. }
  eapply reaches_step; [exact Hin|]. apply IH. lia.
Qed.

Lemma Scalar_node h v :
  exists h', Scalar v h = Ok (length h, h') /\ allocs0 1 h h' /\
    h' !! length h = Some (mkNode v n0 LambdaNone).
Proof.
  destruct (Scalar_allocs h v) as (h' & E & A & _).
  exists h'. split; [exact E|]. rewrite Scalar_eq in E. injection E as <-.
  split; [|apply list_lookup_middle; reflexivity].
  exists [mkNode v n0 LambdaNone]. repeat split; [repeat constructor|].
  apply (allocs_wf _ _ _ A).
Qed.

Lemma add_node h a b :
  a < length h -> b < length h ->
  exists h', __add__ a b h = Ok (length h, h') /\ allocs0 1 h h' /\
    h' !! length h =
    Some (mkNode (valof h a [+] valof h b) n0 (AddBackward a b (length h))).
Proof.
  intros Ha Hb. destruct (add_allocs h a b Ha Hb) as (h' & E & A).
  exists h'. split; [exact E|]. rewrite add_eq in E by assumption.
  injection E as <-.
  split; [|apply list_lookup_middle; reflexivity].
  eexists. repeat split; [repeat constructor|]. apply (allocs_wf _ _ _ A).
Qed.

Lemma mul_node h a b :
  a < length h -> b < length h ->
  exists h', __mul__ a b h = Ok (length h, h') /\ allocs0 1 h h' /\
    h' !! length h =
    Some (mkNode (valof h a [*] valof h b) n0 (MulBackward a b (length h))).
Proof.
  intros Ha Hb. destruct (mul_allocs h a b Ha Hb) as (h' & E & A).
  exists h'. split; [exact E|]. rewrite mul_eq in E by assumption.
  injection E as <-.
  split; [|apply list_lookup_middle; reflexivity].
  eexists. repeat split; [repeat constructor|]. apply (allocs_wf _ _ _ A).
Qed.

End LossLayout.

Section LossLayoutFloat.
Implicit Types (h : heap float) (l X y : list ref).

(** A comprehension whose body allocates [k] objects and returns the last
    one: the [j]-th result is the object at [len + j * k + (k - 1)], and what
    the body establishes about its objects still holds at the end. *)
Lemma mapM_layout {A} (f : A -> M float ref) (k : nat)
    (Q : A -> nat -> heap float -> Prop) :
  (forall a b h1 h2, extends h1 h2 -> Q a b h1 -> Q a b h2) ->
  forall (xs : list A) h,
  (forall j a h1, xs !! j = Some a -> extends h h1 ->
     length h1 = length h + j * k ->
     exists h2, f a h1 = Ok (length h1 + (k - 1), h2) /\ allocs0 k h1 h2 /\
       Q a (length h1) h2) ->
  exists h2,
    mapM f xs h
      = Ok ((fun j => length h + j * k + (k - 1)) <$> seq 0 (length xs), h2) /\
    allocs0 (length xs * k) h h2 /\
    forall j a, xs !! j = Some a -> Q a (length h + j * k) h2.
Proof.
  intros Hst. induction xs as [|a xs IH]; intros h Hbody.
  - exists h. split; [reflexivity|split; [apply allocs0_refl|]].
    intros j a Hj. discriminate.
  - destruct (Hbody 0 a h eq_refl (extends_refl h) ltac:(lia))
      as (h1 & Hr & A1 & HQ).
    assert (L1 := allocs0_length _ _ _ A1).
    assert (E1 := allocs0_extends _ _ _ A1).
    destruct (IH h1) as (h2 & Hrs & A2 & HQs).
    { intros j a' hx Hj Hext Hlen. apply (Hbody (S j) a' hx Hj).
      - eapply extends_trans; eauto.
      - lia. }
    assert (E2 := allocs0_extends _ _ _ A2).
    exists h2. split; [|split].
    + cbn [mapM length seq fmap list_fmap].
      rewrite (bind_Ok _ _ _ _ _ Hr), (bind_Ok _ _ _ _ _ Hrs).
      unfold ret. do 2 f_equal. f_equal; [lia|].
      rewrite <- fmap_S_seq, <- list_fmap_compose.
      apply list_fmap_ext. intros i x _. cbn. lia.
    + cbn [length]. replace (S (length xs) * k) with (k + length xs * k) by lia.
      eapply allocs0_trans; eauto.
    + intros j a' Hj. destruct j as [|j].
      * injection Hj as <-. replace (length h + 0 * k) with (length h) by lia.
        eapply Hst; eauto.
      * replace (length h + S j * k) with (length h1 + j * k) by lia.
        apply HQs. exact Hj.
Qed.

Lemma lookup_ruleof h j nd : h !! j = Some nd -> ruleof h j = backward_rule nd.
Proof. unfold ruleof. intros ->. reflexivity. Qed.

Lemma lookup_valof h j nd : h !! j = Some nd -> valof h j = val nd.
Proof. unfold valof. intros ->. reflexivity. Qed.

Lemma forward_layout h X w :
  w < length h -> Forall (fun r => r < length h) X ->
  exists h1,
    forward X w h = Ok ((fun i => length h + i) <$> seq 0 (length X), h1) /\
    allocs0 (length X) h h1 /\
    forall i x, X !! i = Some x ->
      h1 !! (length h + i) =
      Some (mkNode (valof h w [*] valof h x) n0 (MulBackward w x (length h + i))).
Proof.
  intros Hw HX.
  destruct (mapM_layout
              (fun i => x <- getitem X i ;; __mul__ w x) 1
              (fun i b h' => forall x, X !! i = Some x ->
                 h' !! b = Some (mkNode (valof h w [*] valof h x) n0
                                   (MulBackward w x b)))
              ltac:(intros a b h1 h2 E HQ x Hx; eapply extends_lookup; eauto)
              (range (length X)) h)
    as (h1 & H1 & A1 & Q1).
  { intros j a hx Hj Hext Hlen.
    apply lookup_seq in Hj as [-> Hj]. cbn [Nat.add].
    destruct (lookup_lt_is_Some_2 X j Hj) as [x Hx].
    assert (Hx0 := Forall_lookup_1 _ _ _ _ HX Hx). cbn in Hx0.
    assert (Lx := extends_length _ _ Hext).
    destruct (mul_node hx w x ltac:(lia) ltac:(lia)) as (h2 & E2 & A2 & N2).
    exists h2. split; [|split; [exact A2|]].
    - rewrite (bind_Ok _ _ _ _ _ (getitem_eq _ _ _ _ Hx)).
      rewrite E2. do 2 f_equal. lia.
    - intros x' Hx'. rewrite Hx in Hx'. injection Hx' as <-.
      rewrite N2, (extends_valof h hx w Hext Hw), (extends_valof h hx x Hext Hx0).
      reflexivity. }
  unfold range in *. rewrite length_seq in H1, A1.
  exists h1. split; [|split].
  - unfold forward, range. rewrite H1. do 2 f_equal.
    apply list_fmap_ext. intros i x _. lia.
  - rewrite Nat.mul_1_r in A1. exact A1.
  - intros i x Hx.
    assert (Hi : i < length X) by (eapply lookup_lt_Some, Hx).
    specialize (Q1 i i (lookup_seq_lt 0 _ i Hi) x Hx).
    rewrite Nat.mul_1_r in Q1. exact Q1.
Qed.

Lemma errors_layout (m1 : float) h ys ps :
  Forall (fun r => r < length h) ys -> Forall (fun r => r < length h) ps ->
  length ys <= length ps ->
  exists h',
    mapM (fun i =>
                 yi <- getitem ys i ;;
                 m <- Scalar m1 ;;
                 pi <- getitem ps i ;;
                 t <- __mul__ m pi ;;
                 __add__ yi t)
              (range (length ys)) h
      = Ok ((fun i => length h + 3 * i + 2) <$> seq 0 (length ys), h') /\
    allocs0 (3 * length ys) h h' /\
    forall i yy pp, ys !! i = Some yy -> ps !! i = Some pp ->
      h' !! (length h + 3 * i) = Some (mkNode m1 n0 LambdaNone) /\
      h' !! (length h + 3 * i + 1) =
        Some (mkNode (m1 [*] valof h pp) n0
                (MulBackward (length h + 3 * i) pp (length h + 3 * i + 1))) /\
      h' !! (length h + 3 * i + 2) =
        Some (mkNode (valof h yy [+] m1 [*] valof h pp) n0
                (AddBackward yy (length h + 3 * i + 1) (length h + 3 * i + 2))).
Proof.
  intros Hys Hps Hle.
  destruct (mapM_layout
              (fun i => yi <- getitem ys i ;; m <- Scalar m1 ;;
                        pi <- getitem ps i ;; t <- __mul__ m pi ;;
                        __add__ yi t) 3
              (fun i b h' => forall yy pp, ys !! i = Some yy -> ps !! i = Some pp ->
                 h' !! b = Some (mkNode m1 n0 LambdaNone) /\
                 h' !! (b + 1) =
                   Some (mkNode (m1 [*] valof h pp) n0 (MulBackward b pp (b + 1))) /\
                 h' !! (b + 2) =
                   Some (mkNode (valof h yy [+] m1 [*] valof h pp) n0
                           (AddBackward yy (b + 1) (b + 2))))
              ltac:(intros a b h1 h2 E HQ yy pp Hy Hp;
                    destruct (HQ yy pp Hy Hp) as (Q1 & Q2 & Q3);
                    repeat split; eapply extends_lookup; eauto)
              (range (length ys)) h)
    as (h1 & H1 & A1 & Q1).
  { intros j a hx Hj Hext Hlen.
    apply lookup_seq in Hj as [-> Hj]. cbn [Nat.add].
    destruct (lookup_lt_is_Some_2 ys j Hj) as [yy Hy].
    destruct (lookup_lt_is_Some_2 ps j ltac:(lia)) as [pp Hp].
    assert (Hy0 := Forall_lookup_1 _ _ _ _ Hys Hy).
    assert (Hp0 := Forall_lookup_1 _ _ _ _ Hps Hp). cbn in Hy0, Hp0.
    assert (Lx := extends_length _ _ Hext).
    destruct (Scalar_node hx m1) as (ha & Ea & Aa & Na).
    assert (La := allocs0_length _ _ _ Aa).
    assert (Xa := allocs0_extends _ _ _ Aa).
    destruct (mul_node ha (length hx) pp ltac:(lia) ltac:(lia))
      as (hb & Eb & Ab & Nb).
    assert (Lb := allocs0_length _ _ _ Ab).
    assert (Xb := allocs0_extends _ _ _ Ab).
    destruct (add_node hb yy (length ha) ltac:(lia) ltac:(lia))
      as (hc & Ec & Ac & Nc).
    assert (Xc := allocs0_extends _ _ _ Ac).
    exists hc. split; [|split].
    - rewrite (bind_Ok _ _ _ _ _ (getitem_eq _ _ _ _ Hy)).
      rewrite (bind_Ok _ _ _ _ _ Ea).
      rewrite (bind_Ok _ _ _ _ _ (getitem_eq _ _ _ _ Hp)).
      rewrite (bind_Ok _ _ _ _ _ Eb), Ec. do 2 f_equal. lia.
    - apply (allocs0_trans 2 1 hx hb hc); [|exact Ac].
      apply (allocs0_trans 1 1 hx ha hb); assumption.
    - intros yy' pp' Hy' Hp'. rewrite Hy in Hy'. rewrite Hp in Hp'.
      injection Hy' as <-. injection Hp' as <-.
      assert (Vm : valof ha (length hx) = m1) by (rewrite (lookup_valof _ _ _ Na); reflexivity).
      assert (Vp : valof ha pp = valof h pp).
      { apply extends_valof; [|exact Hp0]. eapply extends_trans; eauto. }
      assert (Vy : valof hb yy = valof h yy).
      { apply extends_valof; [|exact Hy0].
        eapply extends_trans; [|exact Xb]. eapply extends_trans; eauto. }
      assert (Vt : valof hb (length ha) = m1 [*] valof h pp).
      { rewrite (lookup_valof _ _ _ Nb). cbn. rewrite Vm, Vp. reflexivity. }
      split; [|split].
      + eapply extends_lookup; [exact Xc|]. eapply extends_lookup; [exact Xb|].
        exact Na.
      + eapply extends_lookup; [exact Xc|].
        replace (length hx + 1) with (length ha) by lia.
        rewrite Nb, Vm, Vp. reflexivity.
      + replace (length hx + 2) with (length hb) by lia.
        replace (length hx + 1) with (length ha) by lia.
        rewrite Nc, Vy, Vt. reflexivity. }
  unfold range in *. rewrite length_seq in H1, A1.
  exists h1. split; [|split].
  - rewrite H1. do 2 f_equal. apply list_fmap_ext. intros i x _. lia.
  - replace (3 * length ys) with (length ys * 3) by lia. exact A1.
  - intros i yy pp Hy Hp.
    assert (Hi : i < length ys) by (eapply lookup_lt_Some, Hy).
    specialize (Q1 i i (lookup_seq_lt 0 _ i Hi) yy pp Hy Hp).
    replace (length h + i * 3) with (length h + 3 * i) in Q1 by lia.
    exact Q1.
Qed.

Lemma squares_layout h es :
  Forall (fun r => r < length h) es ->
  exists h',
    mapM (fun i =>
                 e1 <- getitem es i ;;
                 e2 <- getitem es i ;;
                 __mul__ e1 e2)
              (range (length es)) h
      = Ok ((fun i => length h + i) <$> seq 0 (length es), h') /\
    allocs0 (length es) h h' /\
    forall i e, es !! i = Some e ->
      h' !! (length h + i) =
      Some (mkNode (valof h e [*] valof h e) n0 (MulBackward e e (length h + i))).
Proof.
  intros Hes.
  destruct (mapM_layout
              (fun i => e1 <- getitem es i ;; e2 <- getitem es i ;;
                        __mul__ e1 e2) 1
              (fun i b h' => forall e, es !! i = Some e ->
                 h' !! b = Some (mkNode (valof h e [*] valof h e) n0
                                   (MulBackward e e b)))
              ltac:(intros a b h1 h2 E HQ x Hx; eapply extends_lookup; eauto)
              (range (length es)) h)
    as (h1 & H1 & A1 & Q1).
  { intros j a hx Hj Hext Hlen.
    apply lookup_seq in Hj as [-> Hj]. cbn [Nat.add].
    destruct (lookup_lt_is_Some_2 es j Hj) as [e He].
    assert (He0 := Forall_lookup_1 _ _ _ _ Hes He). cbn in He0.
    assert (Lx := extends_length _ _ Hext).
    destruct (mul_node hx e e ltac:(lia) ltac:(lia)) as (h2 & E2 & A2 & N2).
    exists h2. split; [|split; [exact A2|]].
    - rewrite !(bind_Ok _ _ _ _ _ (getitem_eq _ _ _ _ He)).
      rewrite E2. do 2 f_equal. lia.
    - intros e' He'. rewrite He in He'. injection He' as <-.
      rewrite N2, (extends_valof h hx e Hext He0). reflexivity. }
  unfold range in *. rewrite length_seq in H1, A1.
  exists h1. split; [|split].
  - rewrite H1. do 2 f_equal. apply list_fmap_ext. intros i x _. lia.
  - rewrite Nat.mul_1_r in A1. exact A1.
  - intros i e He.
    assert (Hi : i < length es) by (eapply lookup_lt_Some, He).
    specialize (Q1 i i (lookup_seq_lt 0 _ i Hi) e He).
    rewrite Nat.mul_1_r in Q1. exact Q1.
Qed.

Lemma py_sum_layout : forall l acc h,
  acc < length h -> Forall (fun r => r < length h) l ->
  exists h',
    py_sum l acc h
      = Ok (match l with [] => acc | _ :: _ => length h + length l - 1 end, h') /\
    allocs0 (length l) h h' /\
    forall j s, l !! j = Some s ->
      ruleof h' (length h + j)
      = AddBackward (match j with 0 => acc | S j' => length h + j' end) s
          (length h + j).
Proof.
  induction l as [|s l IH]; intros acc h Hacc Hl.
  - exists h. split; [reflexivity|split; [apply allocs0_refl|]].
    intros j s Hj. discriminate.
  - apply Forall_cons in Hl as [Hs Hl].
    destruct (add_node h acc s Hacc Hs) as (h1 & E1 & A1 & N1).
    assert (L1 := allocs0_length _ _ _ A1).
    assert (X1 := allocs0_extends _ _ _ A1).
    destruct (IH (length h) h1 ltac:(lia)) as (h2 & E2 & A2 & Q2).
    { eapply Forall_impl; [exact Hl|]. cbn. intros. lia. }
    assert (X2 := allocs0_extends _ _ _ A2).
    exists h2. split; [|split].
    + cbn [py_sum]. rewrite (bind_Ok _ _ _ _ _ E1), E2.
      do 2 f_equal. destruct l; cbn [length]; lia.
    + apply (allocs0_trans 1 (length l) h h1 h2); assumption.
    + intros j s' Hj. destruct j as [|j].
      * injection Hj as <-. rewrite Nat.add_0_r.
        rewrite (lookup_ruleof _ _ _ (extends_lookup _ _ _ _ X2 N1)).
        reflexivity.
      * cbn in Hj. specialize (Q2 j s' Hj).
        replace (length h + S j) with (length h1 + j) by lia.
        rewrite Q2. f_equal. destruct j; lia.
Qed.

Lemma nth_lookup_lt (l : list ref) i : i < length l -> l !! i = Some (nth i l 0).
Proof.
  intros Hi. destruct (lookup_lt_is_Some_2 l i Hi) as [x Hx].
  rewrite nth_lookup, Hx. reflexivity.
Qed.

Lemma lookup_fmap_seq (f : nat -> ref) k i :
  i < k -> (f <$> seq 0 k) !! i = Some (f i).
Proof. intros Hi. rewrite list_lookup_fmap, lookup_seq_lt by exact Hi. reflexivity. Qed.

Lemma Forall_fmap_seq (P : ref -> Prop) (f : nat -> ref) k :
  (forall i, i < k -> P (f i)) -> Forall P (f <$> seq 0 k).
Proof.
  intros HP. apply Forall_forall. intros r Hr.
  apply list_elem_of_fmap in Hr as (i & -> & Hi).
  apply elem_of_seq in Hi. apply HP. lia.
Qed.

(** The graph [forward] and [mse] build has the layout of [loss_graph];
    its new objects start with zero gradients, and the errors hold
    [y_i + (-1.0) * (w * x_i)]. *)
Lemma loss_layout h X y w :
  wf h -> w < length h -> is_leaf h w ->
  Forall (fun r => r < length h /\ is_leaf h r /\ r <> w) X ->
  Forall (fun r => r < length h /\ ~ reaches h r w) y ->
  y <> [] -> length y <= length X ->
  exists g,
    (y_pred <- forward X w ;; mse y y_pred) h
      = Ok (length h + length X + 3 * length y + length y + length y + 2, g) /\
    loss_graph (-1)%float g (length h) (length X) (length y) w
      (fun i => nth i X 0) (fun i => nth i y 0)
      (1 / float_of_nat (length y))%float /\
    extends h g /\
    (forall j, length h <= j -> gradof g j = 0%float) /\
    (forall i, i < length y ->
       valof g (length h + length X + 3 * i + 2)
       = (valof h (nth i y 0%nat) + -1 * (valof h w * valof h (nth i X 0%nat)))%float).
Proof.
  intros Hwf Hw Hwl HX Hy Hne Hle.
  set (L := length h). set (N := length X). set (n := length y).
  assert (Hn : 1 <= n) by (unfold n; destruct y; [congruence|cbn; lia]).
  assert (HX' : Forall (fun r => r < length h) X).
  { eapply Forall_impl; [exact HX|]. cbn. tauto. }
  assert (Hy' : Forall (fun r => r < length h) y).
  { eapply Forall_impl; [exact Hy|]. cbn. tauto. }
  (* the predictions *)
  destruct (forward_layout h X w Hw HX') as (h1 & F1 & A1 & Q1).
  fold L N in F1, A1, Q1.
  assert (L1 : length h1 = L + N) by apply (allocs0_length _ _ _ A1).
  assert (X1 := allocs0_extends _ _ _ A1).
  set (ps := (fun i => L + i) <$> seq 0 N) in *.
  assert (Lps : length ps = N) by (unfold ps; rewrite length_fmap, length_seq; reflexivity).
  (* the errors *)
  destruct (errors_layout (-1)%float h1 y ps) as (h2 & F2 & A2 & Q2).
  { eapply Forall_impl; [exact Hy'|]. cbn. intros. lia. }
  { apply Forall_fmap_seq. intros. lia. }
  { lia. }
  fold n in F2, A2. rewrite L1 in F2, Q2.
  assert (L2 : length h2 = L + N + 3 * n).
  { rewrite (allocs0_length _ _ _ A2). lia. }
  assert (X2 := allocs0_extends _ _ _ A2).
  set (es := (fun i => L + N + 3 * i + 2) <$> seq 0 n) in *.
  assert (Les : length es = n) by (unfold es; rewrite length_fmap, length_seq; reflexivity).
  (* the squares *)
  destruct (squares_layout h2 es) as (h3 & F3 & A3 & Q3).
  { apply Forall_fmap_seq. intros. lia. }
  rewrite Les, L2 in F3. rewrite Les in A3. rewrite L2 in Q3.
  assert (L3 : length h3 = L + N + 3 * n + n).
  { rewrite (allocs0_length _ _ _ A3). lia. }
  assert (X3 := allocs0_extends _ _ _ A3).
  set (ss := (fun i => L + N + 3 * n + i) <$> seq 0 n) in *.
  assert (Lss : length ss = n) by (unfold ss; rewrite length_fmap, length_seq; reflexivity).
  (* the factor and the start of the sum *)
  destruct (Scalar_node h3 (1 / float_of_nat n)%float) as (h4 & E4 & A4 & N4).
  assert (L4 : length h4 = L + N + 3 * n + n + 1).
  { rewrite (allocs0_length _ _ _ A4). lia. }
  assert (X4 := allocs0_extends _ _ _ A4).
  destruct (Scalar_node h4 0%float) as (h5 & E5 & A5 & N5).
  assert (L5 : length h5 = L + N + 3 * n + n + 2).
  { rewrite (allocs0_length _ _ _ A5). lia. }
  assert (X5 := allocs0_extends _ _ _ A5).
  (* the sum *)
  destruct (py_sum_layout ss (length h4) h5 ltac:(lia)) as (h6 & E6 & A6 & Q6).
  { apply Forall_fmap_seq. intros. lia. }
  rewrite Lss in A6.
  assert (L6 : length h6 = L + N + 3 * n + n + 2 + n).
  { rewrite (allocs0_length _ _ _ A6). lia. }
  assert (X6 := allocs0_extends _ _ _ A6).
  assert (Hres : match ss with
                 | [] => length h4
                 | _ :: _ => length h5 + length ss - 1
                 end = L + N + 3 * n + n + 1 + n).
  { rewrite Lss. unfold ss. destruct n as [|n']; [lia|]. cbn. lia. }
  rewrite Hres in E6.
  (* the loss *)
  destruct (mul_node h6 (length h3) (L + N + 3 * n + n + 1 + n) ltac:(lia) ltac:(lia))
    as (g & E7 & A7 & N7).
  assert (L7 : length g = L + N + 3 * n + n + n + 3).
  { rewrite (allocs0_length _ _ _ A7). lia. }
  assert (X7 := allocs0_extends _ _ _ A7).
  rewrite L3, L6 in N7.
  assert (X6g : extends h6 g) by exact X7.
  assert (X5g : extends h5 g) by (eapply extends_trans; eauto).
  assert (X4g : extends h4 g) by (eapply extends_trans; eauto).
  assert (X3g : extends h3 g) by (eapply extends_trans; eauto).
  assert (X2g : extends h2 g) by (eapply extends_trans; eauto).
  assert (X1g : extends h1 g) by (eapply extends_trans; eauto).
  assert (X0g : extends h g) by (eapply extends_trans; eauto).
  assert (A0g : allocs0 (N + (3 * n + (n + (1 + (1 + (n + 1)))))) h g).
  { repeat (eapply allocs0_trans; [eassumption|]). exact A7. }
  assert (HXi : forall i, i < n -> X !! i = Some (nth i X 0)).
  { intros i Hi. apply nth_lookup_lt. unfold n, N in *. lia. }
  assert (Hyi : forall i, i < n -> y !! i = Some (nth i y 0)).
  { intros i Hi. apply nth_lookup_lt. exact Hi. }
  assert (Hpi : forall i, i < n -> ps !! i = Some (L + i)).
  { intros i Hi. unfold ps. apply (lookup_fmap_seq (fun i => L + i)). lia. }
  assert (Vp : forall i, i < n ->
            valof h1 (L + i) = valof h w [*] valof h (nth i X 0)).
  { intros i Hi. rewrite (lookup_valof _ _ _ (Q1 i _ (HXi i Hi))). reflexivity. }
  exists g. split; [|split; [|split; [exact X0g|split]]].
  - unfold mse. rewrite (bind_Ok _ _ _ _ _ F1).
    fold n. rewrite (bind_Ok _ _ _ _ _ F2). fold es.
    rewrite Les. rewrite (bind_Ok _ _ _ _ _ F3). fold ss.
    assert (Htd : truediv 1%float n h3 = Ok ((1 / float_of_nat n)%float, h3))
      by (destruct n; [lia|reflexivity]).
    rewrite (bind_Ok _ _ _ _ _ Htd), (bind_Ok _ _ _ _ _ E4).
    rewrite (bind_Ok _ _ _ _ _ E5), (bind_Ok _ _ _ _ _ E6).
    rewrite E7. do 2 f_equal. lia.
  - split.
    + apply (allocs0_wf _ _ _ A0g Hwf).
    + exact L7.
    + exact Hle.
    + split; [exact Hw|]. unfold is_leaf.
      rewrite (extends_ruleof h g w X0g Hw). exact Hwl.
    + intros i Hi.
      destruct (Forall_lookup_1 _ _ _ _ HX (HXi i Hi)) as (Hx0 & Hxl & Hxw).
      split; [exact Hx0|split; [|exact Hxw]]. unfold is_leaf.
      rewrite (extends_ruleof h g _ X0g Hx0). exact Hxl.
    + intros i Hi.
      destruct (Forall_lookup_1 _ _ _ _ Hy (Hyi i Hi)) as (Hy0 & Hyw).
      split; [exact Hy0|]. intros Hr. apply Hyw.
      eapply reaches_extends; eauto.
    + intros i Hi.
      rewrite (lookup_ruleof _ _ _
                 (extends_lookup _ _ _ _ X1g (Q1 i _ (HXi i Hi)))).
      reflexivity.
    + intros i Hi.
      destruct (Q2 i _ _ (Hyi i Hi) (Hpi i Hi)) as (Qm & _ & _).
      apply (extends_lookup _ _ _ _ X2g) in Qm.
      unfold is_leaf. rewrite (lookup_ruleof _ _ _ Qm), (lookup_valof _ _ _ Qm).
      split; reflexivity.
    + intros i Hi.
      destruct (Q2 i _ _ (Hyi i Hi) (Hpi i Hi)) as (_ & Qt & _).
      apply (extends_lookup _ _ _ _ X2g) in Qt.
      rewrite (lookup_ruleof _ _ _ Qt). reflexivity.
    + intros i Hi.
      destruct (Q2 i _ _ (Hyi i Hi) (Hpi i Hi)) as (_ & _ & Qe).
      apply (extends_lookup _ _ _ _ X2g) in Qe.
      rewrite (lookup_ruleof _ _ _ Qe). reflexivity.
    + intros i Hi.
      assert (Qs := Q3 i _ (lookup_fmap_seq (fun i => L + N + 3 * i + 2) n i Hi)).
      apply (extends_lookup _ _ _ _ X3g) in Qs.
      rewrite (lookup_ruleof _ _ _ Qs). reflexivity.
    + rewrite L3 in N4. apply (extends_lookup _ _ _ _ X4g) in N4.
      unfold is_leaf. rewrite (lookup_ruleof _ _ _ N4), (lookup_valof _ _ _ N4).
      split; reflexivity.
    + rewrite L4 in N5. apply (extends_lookup _ _ _ _ X5g) in N5.
      unfold is_leaf. rewrite (lookup_ruleof _ _ _ N5). reflexivity.
    + intros k Hk.
      assert (Qa := Q6 k _ (lookup_fmap_seq (fun i => L + N + 3 * n + i) n k Hk)).
      rewrite L5, L4 in Qa.
      rewrite (extends_ruleof h6 g _ X6g) by lia. rewrite Qa.
      f_equal. destruct k; lia.
    + replace (L + N + 3 * n + n + n + 2) with (L + N + 3 * n + n + 2 + n) by lia.
      rewrite (lookup_ruleof _ _ _ N7). reflexivity.
  - intros j Hj. apply (allocs0_zero _ _ _ _ A0g Hj).
  - intros i Hi.
    destruct (Q2 i _ _ (Hyi i Hi) (Hpi i Hi)) as (_ & _ & Qe).
    apply (extends_lookup _ _ _ _ X2g) in Qe.
    rewrite (lookup_valof _ _ _ Qe). cbn [val].
    destruct (Forall_lookup_1 _ _ _ _ Hy (Hyi i Hi)) as (Hy0 & _).
    rewrite (extends_valof h h1 _ X1 Hy0), (Vp i Hi). reflexivity.
Qed.

End LossLayoutFloat.

(** * What the loop body computes for [w.grad] *)

Section LoopGradient.
Implicit Types (h : heap float) (X y : list ref).

Lemma set_grad_gradof h n v :
  n < length h ->
  exists h', set_grad n v h = Ok (tt, h') /\ graph_of h' = graph_of h /\
    gradof h' n = v /\ forall m, m <> n -> gradof h' m = gradof h m.
Proof.
  intros Hn. destruct (set_grad_ok h n v Hn) as (h' & H' & G).
  exists h'. split; [exact H'|split; [exact G|]].
  revert H'. unfold set_grad, setattr, gradof.
  destruct (h !! n) as [nd|] eqn:E; [|discriminate]. intros [= <-]. split.
  - rewrite list_lookup_insert_eq by exact Hn. reflexivity.
  - intros m Hm. rewrite list_lookup_insert_ne by auto. reflexivity.
Qed.

Lemma chain_flow_ext (m1 : float) (es es' xs xs' : nat -> float) : forall k A g,
  (forall i, i < k -> es i = es' i /\ xs i = xs' i) ->
  chain_flow m1 es xs k A g = chain_flow m1 es' xs' k A g.
Proof.
  induction k as [|k IH]; intros A g E; [reflexivity|].
  cbn [chain_flow]. destruct (E k ltac:(lia)) as [-> ->].
  rewrite IH by auto with lia. reflexivity.
Qed.

(** The gradient the loop body leaves in [w], for any data: in binary64,
    with the operations in the order the closures perform them, it is what
    [chain_flow] computes from the values of [w], of the inputs and of the
    targets. Every sample enters through [sample_flow], where the gradient
    of its error is handed down twice, the second time on top of the
    first. *)
Theorem loop_gradient_flow h X y w :
  wf h -> w < length h -> is_leaf h w ->
  Forall (fun r => r < length h /\ is_leaf h r /\ r <> w) X ->
  Forall (fun r => r < length h /\ ~ reaches h r w) y ->
  y <> [] -> length y <= length X ->
  exists h',
    (y_pred <- forward X w ;;
     loss <- mse y y_pred ;;
     set_grad w 0%float ;;;
     set_grad loss 1%float ;;;
     call_backward loss ;;;
     get_grad w) h
    = Ok (chain_flow (-1)%float
            (fun i => (valof h (nth i y 0%nat)
                       + -1 * (valof h w * valof h (nth i X 0%nat)))%float)
            (fun i => valof h (nth i X 0%nat))
            (length y)
            (0 + 1 / float_of_nat (length y) * 1)%float 0%float, h').
Proof.
  intros Hwf Hw Hwl HX Hy Hne Hle.
  destruct (loss_layout h X y w Hwf Hw Hwl HX Hy Hne Hle)
    as (g & E & LG & Xg & Z & VE).
  set (L := length h) in *. set (N := length X) in *. set (n := length y) in *.
  set (loss := L + N + 3 * n + n + n + 2) in *.
  apply bind_inv in E as (ps & h1 & Ef & Em).
  assert (Lg := lg_len _ _ _ _ _ _ _ _ _ LG).
  destruct (set_grad_gradof g w 0%float ltac:(lia)) as (g1 & E1 & G1 & W1 & O1).
  assert (L1 := graph_of_length _ _ G1).
  destruct (set_grad_gradof g1 loss 1%float ltac:(unfold loss; lia))
    as (g2 & E2 & G2 & W2 & O2).
  assert (G2g : graph_of g2 = graph_of g) by congruence.
  destruct (loss_fire (-1)%float (1 / float_of_nat n)%float g L N n w
              (fun i => nth i X 0) (fun i => nth i y 0) LG g2 G2g)
    as (H' & B & G' & GW).
  { intros j Hj1 Hj2. rewrite O2, O1 by (unfold loss; lia). apply Z, Hj1. }
  fold loss in B, GW. rewrite W2, O2, W1 in GW by (unfold loss; lia).
  exists H'.
  rewrite (bind_Ok _ _ _ _ _ Ef), (bind_Ok _ _ _ _ _ Em).
  rewrite (bind_Ok _ _ _ _ _ E1), (bind_Ok _ _ _ _ _ E2).
  rewrite (bind_Ok _ _ _ _ _ B).
  rewrite (get_grad_eq H' w) by (rewrite (graph_of_length _ _ G'); lia).
  rewrite GW. do 2 f_equal. apply chain_flow_ext. intros i Hi. split.
  - apply (VE i Hi).
  - destruct (lg_x _ _ _ _ _ _ _ _ _ LG i Hi) as (Hx & _).
    apply (extends_valof h g _ Xg Hx).
Qed.

End LoopGradient.


(** * The theorems above on concrete stores *)

Lemma cubic_plus_2x_built :
  built (Notebook.store_of (Notebook.cubic_plus_2x_graph 4%Z)).
Proof.
  pose proof (@built_empty Z Z_Arith) as B.
  eapply (built_Scalar _ 4%Z) in B; [|reflexivity].
  eapply (built_mul _ 0 0) in B; [|reflexivity].
  eapply (built_mul _ 1 0) in B; [|reflexivity].
  eapply (built_add _ 2 0) in B; [|reflexivity].
  eapply (built_add _ 3 0) in B; [|reflexivity].
  eapply (built_set_grad _ 0 0%Z) in B; [|reflexivity].
  eapply (built_set_grad _ 4 1%Z) in B; [|reflexivity].
  exact B.
Qed.

Lemma scalars3_wf (a b c : float) :
  wf (Notebook.store_of (mapM Scalar [a; b; c])).
Proof.
  intros i Hi. cbn in Hi.
  destruct i as [|[|[|i]]]; [exact I|exact I|exact I|lia].
Qed.

Lemma backward_only_touches_operands_witness :
  let h := Notebook.store_of (Notebook.doubled_leaf_graph 3%Z 5%Z) in
  exists h', call_backward 1 h = Ok (tt, h') /\
    gradof h' 1 = gradof h 1 /\
    forall n, (forall p, reaches h 1 p -> n ∉ operands h p) ->
      gradof h' n = gradof h n.
Proof.
  intros h. apply (backward_only_touches_operands h 1).
  - apply built_wf, doubled_leaf_built.
  - vm_compute. lia.
Defined.

Lemma built_graph_invariant_witness :
  let h := Notebook.store_of (Notebook.doubled_leaf_graph 3%Z 5%Z) in
  closure_ok 3 (ruleof h 3) /\ val_ok h 3.
Proof.
  intros h. apply (built_graph_invariant h 3).
  - apply doubled_leaf_built.
  - vm_compute. lia.
Defined.

Lemma backward_needs_height_witness :
  let h := Notebook.store_of (Notebook.cubic_plus_2x_graph 4%Z) in
  height h 4 = 5 /\
  (exists h', backward 5 4 h = Ok (tt, h')) /\
  backward 4 4 h = Raise RecursionError.
Proof.
  intros h.
  assert (Hwf : wf h) by apply built_wf, cubic_plus_2x_built.
  assert (Hr : 4 < length h) by (vm_compute; lia).
  split; [reflexivity|split].
  - apply (backward_needs_height h 4 5 Hwf Hr). vm_compute. lia.
  - apply (backward_needs_height h 4 4 Hwf Hr). vm_compute. lia.
Defined.

Lemma identity_gradient_witness :
  let h : heap float := Notebook.store_of (Scalar 2%float) in
  exists h',
    (set_grad 0 0%float ;;; set_grad 0 1%float ;;; call_backward 0 ;;;
     get_grad 0) h = Ok (1%float, h') /\
    graph_of h' = graph_of h /\
    forall n, n <> 0 -> gradof h' n = gradof h n.
Proof.
  intros h. apply (identity_gradient h 0 0%float 1%float).
  - vm_compute. lia.
  - reflexivity.
Defined.

Lemma forward_spec_witness :
  let h : heap float :=
    Notebook.store_of (mapM Scalar [2%float; 1%float; 3%float]) in
  exists h',
    forward [1; 2] 0 h = Ok (seq (length h) (length [1; 2]), h') /\
    length h' = length h + length [1; 2] /\
    (forall m, m < length h -> h' !! m = h !! m) /\
    forall i x, [1; 2] !! i = Some x ->
      valof h' (length h + i) = (valof h 0 * valof h x)%float /\
      gradof h' (length h + i) = 0%float /\
      ruleof h' (length h + i) = MulBackward 0 x (length h + i).
Proof.
  intros h. apply (forward_spec h [1; 2] 0).
  - vm_compute. lia.
  - repeat (constructor; [vm_compute; lia|]). constructor.
Defined.

Lemma mse_short_predictions_witness :
  let h : heap float :=
    Notebook.store_of (mapM Scalar [2%float; 1%float; 3%float]) in
  mse [0; 1] [2] h = Raise IndexError.
Proof.
  intros h. apply (mse_short_predictions h [0; 1] [2]).
  - repeat (constructor; [vm_compute; lia|]). constructor.
  - repeat (constructor; [vm_compute; lia|]). constructor.
  - cbn. lia.
Defined.

Lemma mse_ignores_surplus_witness :
  let h : heap float :=
    Notebook.store_of (mapM Scalar [2%float; 1%float; 3%float]) in
  mse [0] [1; 2] h = mse [0] (take (length [0]) [1; 2]) h.
Proof.
  intros h. apply (mse_ignores_surplus h [0] [1; 2]). cbn. lia.
Defined.

Lemma mse_allocates_witness :
  let h : heap float :=
    Notebook.store_of (mapM Scalar [2%float; 1%float; 3%float]) in
  exists r h',
    mse [0; 1] [2; 1] h = Ok (r, h') /\
    length h' = length h + (5 * length [0; 1] + 3) /\
    r = length h' - 1 /\
    (forall m, m < length h -> h' !! m = h !! m) /\
    (wf h -> wf h').
Proof.
  intros h. apply (mse_allocates h [0; 1] [2; 1]).
  - discriminate.
  - cbn. lia.
  - repeat (constructor; [vm_compute; lia|]). constructor.
  - repeat (constructor; [vm_compute; lia|]). constructor.
Defined.

Lemma train_spec_witness :
  let h : heap float :=
    Notebook.store_of (mapM Scalar [2%float; 1%float; 7%float]) in
  exists h',
    train EPOCHS [1] [2] 0 h = Ok (tt, h') /\
    length h' = length h + EPOCHS * (length [1] + 5 * length [2] + 3) /\
    wf h' /\
    (forall m, m < length h -> ruleof h' m = ruleof h m) /\
    (forall m, m < length h -> m <> 0 -> valof h' m = valof h m).
Proof.
  intros h. apply (train_spec EPOCHS h [1] [2] 0).
  - apply scalars3_wf.
  - vm_compute. lia.
  - repeat (constructor; [vm_compute; lia|]). constructor.
  - repeat (constructor; [vm_compute; lia|]). constructor.
  - discriminate.
  - cbn. lia.
Defined.

Lemma notebook_runs_witness :
  X_values <> [] /\
  exists h',
    notebook 0.5%float X_values (fun _ => 0.25%float) EPOCHS [] = Ok (0, h') /\
    length h' = 2 + 4 * length X_values + EPOCHS * (6 * length X_values + 3) /\
    wf h' /\ is_leaf h' 0.
Proof.
  assert (H : X_values <> []) by discriminate.
  split; [exact H|].
  apply (notebook_runs 0.5%float X_values (fun _ => 0.25%float) EPOCHS H).
Defined.

Lemma mse_height_witness :
  let h : heap float :=
    Notebook.store_of (mapM Scalar [2%float; 1%float; 3%float]) in
  exists loss h',
    mse [0; 1] [2; 2] h = Ok (loss, h') /\
    height h' loss = length [0; 1] + 1 + 4 /\
    (6 < length [0; 1] + 1 + 4 ->
       backward 6 loss h' = Raise RecursionError) /\
    (length [0; 1] + 1 + 4 <= 6 ->
       exists h'', backward 6 loss h' = Ok (tt, h'')).
Proof.
  intros h. apply (mse_height h [0; 1] [2; 2] 1 6).
  - apply scalars3_wf.
  - discriminate.
  - cbn. lia.
  - repeat (constructor; [split; vm_compute; lia|]). constructor.
  - repeat (constructor; [split; [vm_compute; lia|reflexivity]|]). constructor.
Defined.

Lemma train_recursion_limit_witness :
  let h : heap float :=
    Notebook.store_of (mapM Scalar [2%float; 1%float; 7%float]) in
  train_within 6 1 [1] [2] 0 h = Raise RecursionError /\
  train_within 7 EPOCHS [1] [2] 0 h = train EPOCHS [1] [2] 0 h.
Proof.
  intros h.
  assert (Hwf : wf h) by apply scalars3_wf.
  assert (Hw : 0 < length h) by (vm_compute; lia).
  assert (Hl : is_leaf h 0) by reflexivity.
  assert (HX : Forall (fun r => r < length h /\ is_leaf h r) [1]).
  { repeat (constructor; [split; [vm_compute; lia|reflexivity]|]). constructor. }
  assert (Hy : Forall (fun r => r < length h /\ height h r <= 3) [2]).
  { repeat (constructor; [split; vm_compute; lia|]). constructor. }
  assert (Hne : [2] <> ([] : list ref)) by discriminate.
  assert (Hle : length [2] <= length [1]) by (cbn; lia).
  split.
  - apply (train_recursion_limit 6 0 h [1] [2] 0 Hwf Hw Hl HX Hy Hne Hle).
    cbn. lia.
  - apply (train_recursion_limit 7 EPOCHS h [1] [2] 0 Hwf Hw Hl HX Hy Hne Hle).
    cbn. lia.
Defined.

Lemma notebook_recursion_limit_witness :
  X_values <> [] /\
  notebook_within 105 0.5%float X_values (fun _ => 0.25%float) 1 []
    = Raise RecursionError /\
  notebook_within 1000 0.5%float X_values (fun _ => 0.25%float) EPOCHS []
    = notebook 0.5%float X_values (fun _ => 0.25%float) EPOCHS [].
Proof.
  assert (H : X_values <> []) by discriminate.
  split; [exact H|split].
  - apply (notebook_recursion_limit 105 0.5%float X_values
             (fun _ => 0.25%float) 0 H).
    vm_compute. lia.
  - apply (notebook_recursion_limit 1000 0.5%float X_values
             (fun _ => 0.25%float) EPOCHS H).
    vm_compute. lia.
Defined.

Lemma backward_chain_rule_when_ordered_witness :
  let h := Notebook.store_of (Notebook.cubic_plus_2x_graph 4%float) in
  exists h', call_backward 4 h = Ok (tt, h') /\
    gradof h' 0 = 50%float /\
    forall n, reaches h 4 n -> gradof h' n = adjoint h 4 n.
Proof.
  intros h. destruct (backward_chain_rule_when_ordered h 4) as (h' & Hrun & E).
  - apply cubic_plus_2x_graph_built.
  - vm_compute. lia.
  - reflexivity.
  - intros n _ Hn.
    do 5 (destruct n as [|n]; [try reflexivity; exfalso; apply Hn; reflexivity|]).
    reflexivity.
  - vm_compute. reflexivity.
  - exists h'. split; [exact Hrun|]. split; [|exact E].
    rewrite E; [vm_compute; reflexivity|].
    eapply reaches_step; [|constructor]. vm_compute. repeat constructor.
Defined.


Lemma backward_chain_rule_single_use_witness :
  let h := Notebook.store_of (Notebook.shared_leaf_graph 3%float) in
  ordered (trace h 2) = false /\
  exists h', call_backward 2 h = Ok (tt, h') /\
    gradof h' 0 = 7%float /\
    forall n, reaches h 2 n -> gradof h' n = adjoint h 2 n.
Proof.
  intros h. split; [vm_compute; reflexivity|].
  pose proof (shared_leaf_graph_built 3%float) as Hb. fold h in Hb.
  destruct (backward_chain_rule_single_use h 2) as (h' & Hrun & E).
  - exact Hb.
  - vm_compute. lia.
  - reflexivity.
  - intros n _ Hn.
    do 3 (destruct n as [|n]; [try reflexivity; exfalso; apply Hn; reflexivity|]).
    reflexivity.
  - intros m p i p' i' Hnl _ _ Hp Hp' Ho Ho'.
    assert (p <= 2).
    { eapply (reaches_le h); [apply built_wf, Hb|vm_compute; lia|exact Hp]. }
    assert (p' <= 2).
    { eapply (reaches_le h); [apply built_wf, Hb|vm_compute; lia|exact Hp']. }
    destruct p as [|[|[|p]]]; try lia;
      destruct p' as [|[|[|p']]]; try lia;
      destruct i, i'; vm_compute in Ho, Ho'; try contradiction;
      subst m; try discriminate; try (split; reflexivity);
      exfalso; apply Hnl; reflexivity.
  - exists h'. split; [exact Hrun|]. split; [|exact E].
    rewrite E; [vm_compute; reflexivity|].
    eapply reaches_step; [|constructor]. vm_compute. repeat constructor.
Defined.

Lemma loop_gradient_flow_witness :
  let h : heap float :=
    Notebook.store_of
      (mapM Scalar [2%float; 1%float; 3%float; 7%float; 4%float]) in
  exists h',
    (y_pred <- forward [1; 2] 0 ;; loss <- mse [3; 4] y_pred ;;
     set_grad 0 0%float ;;; set_grad loss 1%float ;;;
     call_backward loss ;;; get_grad 0) h = Ok (4%float, h').
Proof.
  intros h. destruct (loop_gradient_flow h [1; 2] [3; 4] 0) as [h' H].
  - intros i Hi. cbn in Hi.
    destruct i as [|[|[|[|[|i]]]]]; [exact I..|lia].
  - vm_compute. lia.
  - reflexivity.
  - repeat (constructor; [split; [vm_compute; lia|split; [reflexivity|lia]]|]).
    constructor.
  - repeat (constructor;
            [split; [vm_compute; lia|];
             intros Hr; inversion Hr as [|? m ? Hm]; subst;
             vm_compute in Hm; elem_cases|]).
    constructor.
  - discriminate.
  - cbn. lia.
  - exists h'. etransitivity; [exact H|].
    apply (f_equal (fun v => Ok (v, h'))). vm_compute. reflexivity.
Defined.

Lemma backward_accumulates_witness :
  let h := Notebook.store_of
             (Notebook.doubled_leaf_graph 3%float 5%float ;;;
              set_grad 0 2%float ;;; set_grad 1 4%float ;;;
              set_grad 3 7%float) in
  exists h', call_backward 3 h = Ok (tt, h') /\
    gradof h' 1 = 39%float /\ gradof h' 0 = 80%float /\
    graph_of h' = graph_of h /\
    forall n, gradof h' n =
      accumulate (gradof h n) (inflow (length h) h (gradof h') 3 n).
Proof.
  intros h.
  assert (Hb : built h).
  { pose proof (doubled_leaf_graph_built 3%float 5%float) as B.
    eapply (built_set_grad _ 0 2%float) in B; [|reflexivity].
    eapply (built_set_grad _ 1 4%float) in B; [|reflexivity].
    eapply (built_set_grad _ 3 7%float) in B; [|reflexivity].
    exact B. }
  destruct (backward_accumulates h 3) as (h' & Hrun & G & E).
  - exact Hb.
  - vm_compute. lia.
  - intros m p i p' i' Hnl _ Hm Hp Hp' Ho Ho'.
    assert (p <= 3).
    { eapply (reaches_le h); [apply built_wf, Hb|vm_compute; lia|exact Hp]. }
    assert (p' <= 3).
    { eapply (reaches_le h); [apply built_wf, Hb|vm_compute; lia|exact Hp']. }
    destruct p as [|[|[|[|p]]]]; try lia;
      destruct p' as [|[|[|[|p']]]]; try lia;
      destruct i, i'; vm_compute in Ho, Ho'; try contradiction;
      subst m; try discriminate; try (split; reflexivity);
      exfalso; apply Hnl; reflexivity.
  - exists h'. split; [exact Hrun|].
    assert (Hh : h' = Notebook.store_of (fun h0 => call_backward 3 h)).
    { unfold Notebook.store_of. rewrite Hrun. reflexivity. }
    split; [rewrite Hh; vm_compute; reflexivity|].
    split; [rewrite Hh; vm_compute; reflexivity|].
    split; [exact G|exact E].
Defined.
